(** * TCG market price checker: text normalizer, catalog service, price summary

    A shallow embedding of [services/messageParser.ts] (the text normalizer
    [cleanProductName]) and [services/tcgplayerService.ts] (the class
    [TCGPlayerService]: [initialize], [searchProducts], [formatPrice]),
    together with the properties the specification states about them.

    How the program is modelled:
    - a string is its list of UTF-16 code units; each [replace] with a
      regular expression is the scan the engine makes for that expression;
    - integers (ids, lengths, times in milliseconds) are in [Z], prices are
      rationals, [null] is [None];
    - a method is a function from the fields of the service to its
      completion (returned or thrown), the fields afterwards, and the list
      of what it did (console output, HTTP requests, delays); an [async]
      method is run to its end, so the states described are those between
      calls;
    - what the host and the libraries compute ([Date], [toFixed], the
      answers of the remote catalog, the scores of fuse.js) is a parameter
      of the definitions that use it. *)

From Stdlib Require Import Ascii String NArith ZArith QArith Qabs Qround DecimalString.
From stdpp Require Import gmap list strings sorting.

Local Open Scope N_scope.

(** ** JavaScript strings

    A JavaScript string is a sequence of UTF-16 code units.  All the
    characters the program mentions are in the Basic Multilingual Plane, so
    one code unit is one character of the source text. *)

Definition jsstring := list N.

(** ASCII literals of the source, written as Rocq strings. *)
Definition str (s : string) : jsstring :=
  (λ a, N_of_ascii a) <$> list_ascii_of_string s.

(** The non-ASCII characters that occur in the two source files. *)
Definition eAcute : N := 233.          (* U+00E9, e with acute accent *)
Definition emDash : N := 8212.         (* U+2014 *)
Definition hyphen : N := 45.           (* U+002D *)
Definition space : N := 32.            (* U+0020 *)
Definition boxVertRight : N := 9500.   (* U+251C *)
Definition reversedNot : N := 8976.    (* U+2310 *)
Definition capGamma : N := 915.        (* U+0393 *)
Definition capCCedilla : N := 199.     (* U+00C7 *)
Definition oDiaeresis : N := 246.      (* U+00F6 *)

(** [\s] of a regular expression and the characters [String.prototype.trim]
    removes: the same set, WhiteSpace and LineTerminator of ECMAScript. *)
Definition isWhiteSpace (c : N) : bool :=
  ((9 <=? c) && (c <=? 13)) || (c =? 32) || (c =? 160) || (c =? 5760)
  || ((8192 <=? c) && (c <=? 8202)) || (c =? 8232) || (c =? 8233)
  || (c =? 8239) || (c =? 8287) || (c =? 12288) || (c =? 65279).

(** [\w] of a regular expression without the [u] flag: [A-Za-z0-9_]. *)
Definition isWordChar (c : N) : bool :=
  ((65 <=? c) && (c <=? 90)) || ((97 <=? c) && (c <=? 122))
  || ((48 <=? c) && (c <=? 57)) || (c =? 95).

(** [Canonicalize] of a regular expression with the [i] flag and without the
    [u] flag: the code unit of the upper-case form, except that a code unit
    of 128 or more is never mapped below 128.  The table is written out for
    ASCII and Latin-1.  Outside Latin-1 the model is the identity; no code
    unit there has an upper-case form among the characters of the patterns
    of this program (ASCII, U+00C9, U+251C, U+2310), so the comparisons
    below are the ones the engine makes. *)
Definition canonicalize (c : N) : N :=
  if (97 <=? c) && (c <=? 122) then c - 32
  else if (224 <=? c) && (c <=? 254) && negb (c =? 247) then c - 32
  else c.

Definition charEqCI (p c : N) : bool := canonicalize p =? canonicalize c.

Fixpoint dropWhile {A} (f : A → bool) (l : list A) : list A :=
  match l with
  | [] => []
  | x :: r => if f x then dropWhile f r else l
  end.

(** A literal pattern matched, ignoring case, at the start of [s]: the rest
    of [s] after the match. *)
Fixpoint matchPrefixCI (pat s : jsstring) : option jsstring :=
  match pat with
  | [] => Some s
  | p :: pat' =>
      match s with
      | [] => None
      | c :: s' => if charEqCI p c then matchPrefixCI pat' s' else None
      end
  end.

(** [s.replace(/^PAT\s*/i, '')]: when the literal [PAT] starts the string,
    it is removed with all the white space that follows it (the star is
    greedy and ends the pattern); otherwise the string is returned as is. *)
Definition stripPrefix (pat s : jsstring) : jsstring :=
  match matchPrefixCI pat s with
  | Some rest => dropWhile isWhiteSpace rest
  | None => s
  end.

(** [s.replace(/X/g, y)] for a single character [X]. *)
Definition replaceChar (x y : N) (s : jsstring) : jsstring :=
  (λ c, if c =? x then y else c) <$> s.

(** [s.replace(/\s+/g, ' ')]: every maximal run of white space becomes one
    space.  [inRun] tells that the previous character was white space, so
    the run's space has been written already. *)
Fixpoint collapseFrom (inRun : bool) (s : jsstring) : jsstring :=
  match s with
  | [] => []
  | c :: r =>
      if isWhiteSpace c
      then (if inRun then collapseFrom true r else space :: collapseFrom true r)
      else c :: collapseFrom false r
  end.

Definition collapseWhiteSpace (s : jsstring) : jsstring := collapseFrom false s.

(** [s.trim()]. *)
Definition trimStart (s : jsstring) : jsstring := dropWhile isWhiteSpace s.
Definition trimEnd (s : jsstring) : jsstring := reverse (trimStart (reverse s)).
Definition trim (s : jsstring) : jsstring := trimEnd (trimStart s).

(** Two strings equal up to case, as the [i] flag compares them. *)
Fixpoint eqCI (pat s : jsstring) : bool :=
  match pat, s with
  | [], [] => true
  | p :: pat', c :: s' => charEqCI p c && eqCI pat' s'
  | _, _ => false
  end.

(** [\b]: the position between a word character and a character that is
    not one; the two ends of the string count as not a word character. *)
Definition isWordAt (c : option N) : bool := from_option isWordChar false c.

Definition wordBoundary (prev next : option N) : bool :=
  xorb (isWordAt prev) (isWordAt next).

(** One attempt of [/\bABBREV\b/i] at a position of the text: [prev] is
    the character before the position, [s] the text from it.  The opening
    [\b] is tested first, then the characters of [ABBREV] ignoring case,
    then the closing [\b] after the last character matched. *)
Fixpoint matchesToBoundary (pat : jsstring) (prev : option N) (s : jsstring) : bool :=
  match pat with
  | [] => wordBoundary prev (head s)
  | p :: pat' =>
      match s with
      | [] => false
      | c :: s' => charEqCI p c && matchesToBoundary pat' (Some c) s'
      end
  end.

Definition matchesWholeWord (abbrev : jsstring) (prev : option N) (s : jsstring) : bool :=
  wordBoundary prev (head s) && matchesToBoundary abbrev prev s.

(** [s.replace(new RegExp(`\\b${abbrev}\\b`, 'gi'), full)]: left to right,
    a match is tried at each position; a match is replaced by [full] and
    the scan goes on after it, otherwise the character is kept.  [skip]
    counts the characters of a match still to be passed over. *)
Fixpoint replaceWholeWordFrom (abbrev full : jsstring) (prev : option N)
    (skip : nat) (s : jsstring) : jsstring :=
  match s with
  | [] => []
  | c :: r =>
      match skip with
      | S k => replaceWholeWordFrom abbrev full (Some c) k r
      | O =>
          if matchesWholeWord abbrev prev s
          then full ++ replaceWholeWordFrom abbrev full (Some c) (length abbrev - 1) r
          else c :: replaceWholeWordFrom abbrev full (Some c) 0 r
      end
  end.

Definition replaceWholeWord (abbrev full s : jsstring) : jsstring :=
  replaceWholeWordFrom abbrev full None 0 s.

(** ** messageParser.ts *)

(** [ABBREVIATIONS], in the order [Object.entries] lists its keys. *)
Definition ABBREVIATIONS : list (jsstring * jsstring) :=
  [ (str "upc", str "Ultra Premium Collection");
    (str "etb", str "Elite Trainer Box");
    (str "bb", str "Booster Box") ].

Definition prefixPokemonAccentTCGame : jsstring :=
  str "Pok" ++ [eAcute] ++ str "mon Trading Card Game:".
Definition prefixPokemonTCGame : jsstring := str "Pokemon Trading Card Game:".
Definition prefixPokemonTCG : jsstring := str "Pokemon TCG:".
Definition prefixPTCG : jsstring := str "PTCG:".

(** The four anchored prefix replacements of [cleanProductName], in the
    order of the source. *)
Definition stripKnownPrefixes (name : jsstring) : jsstring :=
  stripPrefix prefixPTCG
    (stripPrefix prefixPokemonTCG
      (stripPrefix prefixPokemonTCGame
        (stripPrefix prefixPokemonAccentTCGame name))).

(** The chain of [replace] calls and the [trim] that give the first value of
    [cleaned]: the raw cleanup pass. *)
Definition rawCleanup (name : jsstring) : jsstring :=
  trim (collapseWhiteSpace (replaceChar emDash hyphen (stripKnownPrefixes name))).

(** The loop over [ABBREVIATIONS]. *)
Definition expandAbbreviations (cleaned : jsstring) : jsstring :=
  foldl (λ acc '(abbrev, full), replaceWholeWord abbrev full acc) cleaned ABBREVIATIONS.

Definition cleanProductName (name : jsstring) : jsstring :=
  expandAbbreviations (rawCleanup name).

(** The input of the end-to-end scenario of the specification. *)
Definition scenarioQuery : jsstring :=
  str "pokemon tcg: scarlet & violet" ++ [emDash] ++ str "151 etb".

(** ** tcgplayerService.ts: data model *)

Local Open Scope Z_scope.

Record TCGGroup := {
  group_groupId : Z;
  group_name : jsstring;
  group_abbreviation : jsstring;
  group_publishedOn : jsstring;
  group_modifiedOn : jsstring;
  group_categoryId : Z }.

Record TCGProduct := {
  product_productId : Z;
  product_name : jsstring;
  product_cleanName : jsstring;
  product_imageUrl : jsstring;
  product_categoryId : Z;
  product_groupId : Z;
  product_url : jsstring;
  product_modifiedOn : jsstring;
  product_extendedData : option (list (jsstring * jsstring)) }.

(** A price is a finite JSON number; [None] is [null]. *)
Record TCGPrice := {
  price_productId : Z;
  lowPrice : option Q;
  midPrice : option Q;
  highPrice : option Q;
  marketPrice : option Q;
  directLowPrice : option Q;
  subTypeName : jsstring }.

(** [ProductWithPrice extends TCGProduct]: the product's own fields, then
    [prices] and [groupName]. *)
Record ProductWithPrice := {
  pwp_product : TCGProduct;
  prices : list TCGPrice;
  groupName : jsstring }.

(** The [Fuse] object: the collection it was constructed over.  Its options
    are the constants of [initialize]. *)
Record Fuse := { fuse_docs : list ProductWithPrice }.

(** The private fields of [TCGPlayerService]. *)
Record TCGPlayerService := {
  groupsCache : list TCGGroup;
  productsCache : gmap Z (list TCGProduct);
  pricesCache : gmap Z (list TCGPrice);
  allProductsWithPrices : list ProductWithPrice;
  fuse : option Fuse;
  lastFetchTime : Z;
  cacheValidityMs : Z }.

(** The field initialisers of the class: the state of [tcgplayerService]
    when the module is loaded. *)
Definition newService : TCGPlayerService := {|
  groupsCache := [];
  productsCache := ∅;
  pricesCache := ∅;
  allProductsWithPrices := [];
  fuse := None;
  lastFetchTime := 0;
  cacheValidityMs := 6 * 60 * 60 * 1000 |}.

(** ** Effects

    What a call does besides changing the fields: console output, HTTP
    requests and the pacing delay, in the order they happen; and whether it
    returns or throws. *)

Inductive Event :=
  | ConsoleLog (msg : jsstring)
  | ConsoleWarn (msg : jsstring)
  | ConsoleError (msg : jsstring) (error : jsstring)
  | HttpGet (url : jsstring)
  | Delay (ms : Z).

Inductive Completion (A : Type) :=
  | Return (a : A)
  | Throw (error : jsstring).
Arguments Return {A} a.
Arguments Throw {A} error.

(** What the remote catalog answers to one GET: a network or parse failure,
    a status that is not [ok], or a body holding the result list. *)
Inductive Fetched (A : Type) :=
  | NetworkError (error : jsstring)
  | HttpStatus (status : Z)
  | Body (results : A).
Arguments NetworkError {A} error.
Arguments HttpStatus {A} status.
Arguments Body {A} results.

(** Decimal rendering of an integer in a template string. *)
Definition showZ (z : Z) : jsstring :=
  str (DecimalString.NilZero.string_of_int (Z.to_int z)).

Definition TCGCSV_BASE_URL : jsstring := str "https://tcgcsv.com".
Definition POKEMON_CATEGORY_ID : Z := 3.

Definition groupsUrl : jsstring :=
  TCGCSV_BASE_URL ++ str "/tcgplayer/" ++ showZ POKEMON_CATEGORY_ID ++ str "/groups".
Definition productsUrl (groupId : Z) : jsstring :=
  TCGCSV_BASE_URL ++ str "/tcgplayer/" ++ showZ POKEMON_CATEGORY_ID
    ++ str "/" ++ showZ groupId ++ str "/products".
Definition pricesUrl (groupId : Z) : jsstring :=
  TCGCSV_BASE_URL ++ str "/tcgplayer/" ++ showZ POKEMON_CATEGORY_ID
    ++ str "/" ++ showZ groupId ++ str "/prices".

(** The three fetch methods share one shape: throw the library's error,
    throw [Failed to fetch ...: status] when the response is not [ok],
    return the results otherwise. *)
Definition fetchResult {A} (what : jsstring) (answer : Fetched A) : Completion A :=
  match answer with
  | NetworkError e => Throw e
  | HttpStatus status => Throw (str "Failed to fetch " ++ what ++ str ": " ++ showZ status)
  | Body results => Return results
  end.

(** The surroundings of one call of [initialize]: the clock and the remote
    catalog.  [filterClock i] is what [new Date()] gives inside the filter
    callback for the group at index [i] of the fetched list. *)
Record Environment := {
  dateNow : Z;
  filterClock : nat → Z;
  remoteGroups : Fetched (list TCGGroup);
  remoteProducts : Z → Fetched (list TCGProduct);
  remotePrices : Z → Fetched (list TCGPrice) }.

Definition fetchGroups (env : Environment) : Completion (list TCGGroup) :=
  fetchResult (str "groups") (remoteGroups env).
Definition fetchProducts (env : Environment) (groupId : Z) : Completion (list TCGProduct) :=
  fetchResult (str "products for group " ++ showZ groupId) (remoteProducts env groupId).
Definition fetchPrices (env : Environment) (groupId : Z) : Completion (list TCGPrice) :=
  fetchResult (str "prices for group " ++ showZ groupId) (remotePrices env groupId).

(** ** Array.prototype.sort

    The sort is stable, and for a consistent comparator its result is the
    one sorted arrangement that keeps equal elements in their order; an
    insertion sort computes it.  [cmp a b <= 0] keeps [a] before [b]. *)
Section Sort.
Context {A : Type} (cmp : A → A → Z).

Fixpoint insertSorted (x : A) (l : list A) : list A :=
  match l with
  | [] => [x]
  | y :: r => if cmp x y <=? 0 then x :: l else y :: insertSorted x r
  end.

Definition sortBy (l : list A) : list A := foldr insertSorted [] l.
End Sort.

(** ** tcgplayerService.ts: the service *)

(** The first and the last pattern of [searchProducts] as the source file
    has them: where [cleanProductName] has U+00E9 the pattern has the two
    characters U+251C U+2310, and where it has U+2014 the pattern has the
    three characters U+0393 U+00C7 U+00F6 (the UTF-8 bytes of the intended
    character read in another code page). *)
Definition mojibakePrefixPokemonTCGame : jsstring :=
  str "Pok" ++ [boxVertRight; reversedNot] ++ str "mon Trading Card Game:".
Definition mojibakeDash : jsstring := [capGamma; capCCedilla; oDiaeresis].

(** [s.replace(/PAT/g, rep)] for a literal, non-empty [PAT] of several
    characters: left to right, each occurrence found is replaced and the
    scan goes on after it.  [skip] counts the characters of an occurrence
    still to be passed over. *)
Fixpoint isPrefixOf (pat s : jsstring) : bool :=
  match pat with
  | [] => true
  | p :: pat' =>
      match s with
      | [] => false
      | c :: s' => (p =? c)%N && isPrefixOf pat' s'
      end
  end.

Fixpoint replaceLiteralFrom (pat rep : jsstring) (skip : nat) (s : jsstring) : jsstring :=
  match s with
  | [] => []
  | c :: r =>
      match skip with
      | S k => replaceLiteralFrom pat rep k r
      | O =>
          if isPrefixOf pat s
          then rep ++ replaceLiteralFrom pat rep (length pat - 1) r
          else c :: replaceLiteralFrom pat rep 0 r
      end
  end.

Definition replaceLiteral (pat rep s : jsstring) : jsstring :=
  replaceLiteralFrom pat rep 0 s.

(** The value of [cleanQuery] in [searchProducts]: the string handed to
    [fuse.search]. *)
Definition cleanQuery (query : jsstring) : jsstring :=
  trim
    (replaceLiteral mojibakeDash [hyphen]
      (stripPrefix prefixPTCG
        (stripPrefix prefixPokemonTCGame
          (stripPrefix mojibakePrefixPokemonTCGame query)))).

(** One result of [fuse.search]. *)
Record FuseResult := {
  item : ProductWithPrice;
  refIndex : nat;
  score : Q }.

Definition setGroupsCache (v : list TCGGroup) (s : TCGPlayerService) :=
  {| groupsCache := v; productsCache := productsCache s;
     pricesCache := pricesCache s;
     allProductsWithPrices := allProductsWithPrices s; fuse := fuse s;
     lastFetchTime := lastFetchTime s; cacheValidityMs := cacheValidityMs s |}.

Definition setAllProductsWithPrices (v : list ProductWithPrice) (s : TCGPlayerService) :=
  {| groupsCache := groupsCache s; productsCache := productsCache s;
     pricesCache := pricesCache s;
     allProductsWithPrices := v; fuse := fuse s;
     lastFetchTime := lastFetchTime s; cacheValidityMs := cacheValidityMs s |}.

Definition setCaches (groupId : Z) (products : list TCGProduct)
    (prices : list TCGPrice) (s : TCGPlayerService) :=
  {| groupsCache := groupsCache s;
     productsCache := <[groupId := products]> (productsCache s);
     pricesCache := <[groupId := prices]> (pricesCache s);
     allProductsWithPrices := allProductsWithPrices s; fuse := fuse s;
     lastFetchTime := lastFetchTime s; cacheValidityMs := cacheValidityMs s |}.

Definition setLastFetchTime (v : Z) (s : TCGPlayerService) :=
  {| groupsCache := groupsCache s; productsCache := productsCache s;
     pricesCache := pricesCache s;
     allProductsWithPrices := allProductsWithPrices s; fuse := fuse s;
     lastFetchTime := v; cacheValidityMs := cacheValidityMs s |}.

Definition setFuse (v : option Fuse) (s : TCGPlayerService) :=
  {| groupsCache := groupsCache s; productsCache := productsCache s;
     pricesCache := pricesCache s;
     allProductsWithPrices := allProductsWithPrices s; fuse := v;
     lastFetchTime := lastFetchTime s; cacheValidityMs := cacheValidityMs s |}.

(** The result of a method: how it completed, the fields afterwards, and
    what it did on the way. *)
Definition Outcome (A : Type) : Type :=
  (Completion A * TCGPlayerService * list Event)%type.

Section Service.
(** The host and the library the service runs on:
    - [dateParse s] is the time value of [new Date(s)], in milliseconds,
      [None] for an invalid date (whose time value is NaN);
    - [getFullYear t] is the year, in local time, of a [Date] of time
      value [t], and [setFullYear t year] the time value of that [Date]
      after [setFullYear(year)];
    - [fuseScore pattern doc] is the score [fuse.js] gives [doc] for
      [pattern] under the options of [initialize] (keys and weights,
      threshold 0.4, minMatchCharLength 3), 0 for a perfect match, [None]
      when [doc] does not match. *)
Variable dateParse : jsstring → option Z.
Variable getFullYear : Z → Z.
Variable setFullYear : Z → Z → Z.
Variable fuseScore : jsstring → ProductWithPrice → option Q.

(** The callback of [filter]: [oneYearAgo] is the [Date] of [today] with
    its year set two lower; the test [publishDate > oneYearAgo] is false
    when [publishDate] is invalid. *)
Definition isRecent (today : Z) (g : TCGGroup) : bool :=
  let oneYearAgo := setFullYear today (getFullYear today - 2) in
  match dateParse (group_publishedOn g) with
  | Some publishDate => oneYearAgo <? publishDate
  | None => false
  end.

Fixpoint filterRecent (clock : nat → Z) (i : nat) (groups : list TCGGroup)
    : list TCGGroup :=
  match groups with
  | [] => []
  | g :: r =>
      if isRecent (clock i) g
      then g :: filterRecent clock (S i) r
      else filterRecent clock (S i) r
  end.

(** The comparator of [sort]; a NaN difference counts as 0. *)
Definition comparePublished (a b : TCGGroup) : Z :=
  match dateParse (group_publishedOn b), dateParse (group_publishedOn a) with
  | Some tb, Some ta => tb - ta
  | _, _ => 0
  end.

Definition recentGroupsOf (env : Environment) (groups : list TCGGroup)
    : list TCGGroup :=
  sortBy comparePublished (filterRecent (filterClock env) 0 groups).

(** The loop that fills [priceMap], and its body. *)
Definition addPrice (priceMap : gmap Z (list TCGPrice)) (price : TCGPrice)
    : gmap Z (list TCGPrice) :=
  let existing := default [] (priceMap !! price_productId price) in
  <[price_productId price := existing ++ [price]]> priceMap.

Definition buildPriceMap (prices : list TCGPrice) : gmap Z (list TCGPrice) :=
  foldl addPrice ∅ prices.

Definition withPrices (group : TCGGroup) (priceMap : gmap Z (list TCGPrice))
    (product : TCGProduct) : ProductWithPrice :=
  {| pwp_product := product;
     prices := default [] (priceMap !! product_productId product);
     groupName := group_name group |}.

(** One turn of the loop over [recentGroups]: the body of [try] when both
    fetches return, the [catch] clause when one throws.  Both requests are
    sent before either is awaited. *)
Definition processGroup (env : Environment)
    (acc : TCGPlayerService * list Event) (group : TCGGroup)
    : TCGPlayerService * list Event :=
  let '(s, trace) := acc in
  let groupId := group_groupId group in
  let trace := trace ++ [Delay 100; HttpGet (productsUrl groupId);
                         HttpGet (pricesUrl groupId)] in
  let failed error :=
    (s, trace ++ [ConsoleError
                    (str "Error fetching group " ++ group_name group ++ str ":")
                    error]) in
  match fetchProducts env groupId with
  | Throw error => failed error
  | Return products =>
      match fetchPrices env groupId with
      | Throw error => failed error
      | Return prices =>
          let priceMap := buildPriceMap prices in
          let s := setAllProductsWithPrices
                     (allProductsWithPrices s
                        ++ (withPrices group priceMap <$> products)) s in
          (setCaches groupId products prices s, trace)
      end
  end.

Definition initialize (env : Environment) (forceRefresh : bool)
    (s : TCGPlayerService) : Outcome unit :=
  let now := dateNow env in
  if negb forceRefresh
     && (0 <? Z.of_nat (length (allProductsWithPrices s)))
     && (now - lastFetchTime s <? cacheValidityMs s)
  then (Return (), s, [ConsoleLog (str "Using cached product data")])
  else
    let trace := [ConsoleLog (str "Fetching Pokemon TCG data from tcgcsv.com...");
                  HttpGet groupsUrl] in
    match fetchGroups env with
    | Throw error => (Throw error, s, trace)
    | Return groups =>
        let s := setGroupsCache groups s in
        let trace := trace ++ [ConsoleLog
          (str "Fetched " ++ showZ (Z.of_nat (length groups))
             ++ str " Pokemon TCG groups/sets")] in
        let recentGroups := recentGroupsOf env groups in
        let trace := trace ++ [ConsoleLog
          (str "Processing " ++ showZ (Z.of_nat (length recentGroups))
             ++ str " recent groups...")] in
        let s := setAllProductsWithPrices [] s in
        let '(s, trace) := foldl (processGroup env) (s, trace) recentGroups in
        let trace := trace ++ [ConsoleLog
          (str "Loaded " ++ showZ (Z.of_nat (length (allProductsWithPrices s)))
             ++ str " products with prices")] in
        let s := setLastFetchTime now s in
        let s := setFuse (Some {| fuse_docs := allProductsWithPrices s |}) s in
        (Return (), s, trace)
    end.

(** [fuse.search(pattern, { limit })] of fuse.js: the documents that
    match, each with its index and score; sorted by the library's default
    [sortFn] (score ascending, then index ascending); cut to [limit]
    entries when [limit > -1]. *)
Fixpoint fuseMatches (pattern : jsstring) (idx : nat)
    (docs : list ProductWithPrice) : list FuseResult :=
  match docs with
  | [] => []
  | doc :: rest =>
      match fuseScore pattern doc with
      | Some sc =>
          {| item := doc; refIndex := idx; score := sc |}
            :: fuseMatches pattern (S idx) rest
      | None => fuseMatches pattern (S idx) rest
      end
  end.

Definition fuseSortFn (a b : FuseResult) : Z :=
  match (score a ?= score b)%Q with
  | Eq => if (refIndex a <? refIndex b)%nat then -1 else 1
  | Lt => -1
  | Gt => 1
  end.

Definition fuseSearch (f : Fuse) (pattern : jsstring) (limit : Z)
    : list FuseResult :=
  let results := sortBy fuseSortFn (fuseMatches pattern 0 (fuse_docs f)) in
  if -1 <? limit then take (Z.to_nat limit) results else results.

Definition searchProducts (query : jsstring) (limit : Z)
    (s : TCGPlayerService) : Outcome (list ProductWithPrice) :=
  match fuse s with
  | None =>
      (Return [], s, [ConsoleWarn (str "Product data not initialized")])
  | Some f =>
      let results := fuseSearch f (cleanQuery query) limit in
      (Return (item <$> results), s, [])
  end.
End Service.

(** ** The bot: the lookup of handleChannelMessage

    For each product name found in a message, the body of the loop up to
    the search: the name is cleaned, logged, and searched with limit 1. *)
Definition searchCleanedName (fuseScore : jsstring → ProductWithPrice → option Q)
    (name : jsstring) (s : TCGPlayerService) : Outcome (list ProductWithPrice) :=
  let cleanedName := cleanProductName name in
  let '(results, s', trace) := searchProducts fuseScore cleanedName 1 s in
  (results, s', ConsoleLog (str "Searching for: " ++ cleanedName) :: trace).

(** ** formatPrice *)

(** [lines.join(sep)]. *)
Fixpoint joinWith (sep : jsstring) (lines : list jsstring) : jsstring :=
  match lines with
  | [] => []
  | [line] => line
  | line :: rest => line ++ sep ++ joinWith sep rest
  end.

Definition noPriceData : jsstring := str "No price data available".

Section FormatPrice.
(** [toFixed2 x] is the string [x.toFixed(2)] of the host. *)
Variable toFixed2 : Q → jsstring.

(** [lines.push(`Label: $${value.toFixed(2)}`)] under [value !== null]. *)
Definition pushLine (label : string) (value : option Q)
    (lines : list jsstring) : list jsstring :=
  match value with
  | Some v => lines ++ [str label ++ str ": $" ++ toFixed2 v]
  | None => lines
  end.

Definition isNormal (p : TCGPrice) : bool :=
  bool_decide (subTypeName p = str "Normal").

Definition formatPrice (product : ProductWithPrice) : jsstring :=
  match prices product with
  | [] => noPriceData
  | first :: _ =>
      let mainPrice := default first (List.find isNormal (prices product)) in
      let lines := [] in
      let lines := pushLine "Market" (marketPrice mainPrice) lines in
      let lines := pushLine "Low" (lowPrice mainPrice) lines in
      let lines := pushLine "Mid" (midPrice mainPrice) lines in
      let lines := pushLine "High" (highPrice mainPrice) lines in
      joinWith (str " | ") lines
  end.
End FormatPrice.

(** ** The specification's reading of the price summary *)

Definition taggedNormal (r : TCGPrice) : Prop := subTypeName r = str "Normal".

(** [primaryPrice]: the first record tagged "Normal", or the first record
    when none is tagged. *)
Definition isPrimaryPrice (records : list TCGPrice) (main : TCGPrice) : Prop :=
  (∃ before after,
      records = before ++ main :: after
      ∧ taggedNormal main ∧ Forall (λ r, ¬ taggedNormal r) before)
  ∨ (Forall (λ r, ¬ taggedNormal r) records ∧ head records = Some main).

(** The non-null values among market, low, mid and high, in that order,
    each rendered with its label. *)
Definition renderedValues (toFixed2 : Q → jsstring) (r : TCGPrice) : list jsstring :=
  omap (λ '(label, value), (λ v, str label ++ str ": $" ++ toFixed2 v) <$> value)
    [ ("Market"%string, marketPrice r); ("Low"%string, lowPrice r);
      ("Mid"%string, midPrice r); ("High"%string, highPrice r) ].

(** ** A host to run the model on

    Number formatting, calendar and date parsing of a host whose local time
    zone is UTC, and a toy scorer; they instantiate the parameters of the
    sections above in the examples. *)
Module UTCHost.

(** [x.toFixed(2)] for [|x| < 10^21]: the nearest multiple of 1/100, the
    larger one on a tie, with the sign in front. *)
Definition twoDigits (n : Z) : jsstring :=
  if n <? 10 then str "0" ++ showZ n else showZ n.

Definition toFixed2 (x : Q) : jsstring :=
  let a := Qabs x in
  let n := Qfloor (a * 100 + (1 # 2))%Q in
  (if Qle_bool 0 x then [] else str "-")
    ++ showZ (n / 100) ++ str "." ++ twoDigits (n mod 100).

Definition msPerDay : Z := 86400000.

(** Day number of a civil date and back (proleptic Gregorian calendar,
    day 0 is 1970-01-01, months 1 to 12). *)
Definition daysFromCivil (y m d : Z) : Z :=
  let y' := if m <=? 2 then y - 1 else y in
  let era := y' / 400 in
  let yoe := y' - era * 400 in
  let doy := (153 * (if 2 <? m then m - 3 else m + 9) + 2) / 5 + d - 1 in
  let doe := yoe * 365 + yoe / 4 - yoe / 100 + doy in
  era * 146097 + doe - 719468.

Definition civilFromDays (z : Z) : Z * Z * Z :=
  let z := z + 719468 in
  let era := z / 146097 in
  let doe := z - era * 146097 in
  let yoe := (doe - doe / 1460 + doe / 36524 - doe / 146096) / 365 in
  let doy := doe - (365 * yoe + yoe / 4 - yoe / 100) in
  let mp := (5 * doy + 2) / 153 in
  let d := doy - (153 * mp + 2) / 5 + 1 in
  let m := if mp <? 10 then mp + 3 else mp - 9 in
  (yoe + era * 400 + (if m <=? 2 then 1 else 0), m, d).

(** [getFullYear()] and [setFullYear(year)]: the year of the date, and the
    date with the same month, day of month and time of day in the year
    [year] (a day of month the month does not have runs over into the
    next month). *)
Definition getFullYear (t : Z) : Z := (civilFromDays (t / msPerDay)).1.1.

Definition setFullYear (t year : Z) : Z :=
  let '(_, m, d) := civilFromDays (t / msPerDay) in
  (daysFromCivil year m 1 + d - 1) * msPerDay + t mod msPerDay.

(** [new Date(s)] for the date-time form [YYYY-MM-DDTHH:mm:ss] the catalog
    uses, read as local time; any other string is taken to be invalid. *)
Definition digit (c : N) : option Z :=
  if ((48 <=? c) && (c <=? 57))%N then Some (Z.of_N c - 48) else None.

Fixpoint number (acc : Z) (s : jsstring) : option Z :=
  match s with
  | [] => Some acc
  | c :: r => d ← digit c; number (acc * 10 + d) r
  end.

Definition dateParse (s : jsstring) : option Z :=
  if bool_decide (length s = 19%nat)
     && bool_decide (s !! 4%nat = Some 45%N) && bool_decide (s !! 7%nat = Some 45%N)
     && bool_decide (s !! 10%nat = Some 84%N)
     && bool_decide (s !! 13%nat = Some 58%N) && bool_decide (s !! 16%nat = Some 58%N)
  then
    y ← number 0 (take 4 s);
    mo ← number 0 (take 2 (drop 5 s));
    d ← number 0 (take 2 (drop 8 s));
    h ← number 0 (take 2 (drop 11 s));
    mi ← number 0 (take 2 (drop 14 s));
    se ← number 0 (take 2 (drop 17 s));
    if (1 <=? mo) && (mo <=? 12) && (1 <=? d) && (d <=? 31)
       && (h <=? 23) && (mi <=? 59) && (se <=? 59)
    then Some (daysFromCivil y mo d * msPerDay + ((h * 60 + mi) * 60 + se) * 1000)
    else None
  else None.

(** A toy scorer: 0 for a name equal to the pattern up to case, 1/4 for a
    name the pattern starts, no match otherwise. *)
Definition fuseScore (pattern : jsstring) (doc : ProductWithPrice) : option Q :=
  if eqCI pattern (product_name (pwp_product doc)) then Some 0%Q
  else if bool_decide (is_Some (matchPrefixCI pattern (product_name (pwp_product doc))))
       then Some (1 # 4)%Q
       else None.
End UTCHost.

(** ** Statements of the specification, as it words them *)

Definition isAscii (c : N) : Prop := (c < 128)%N.

(** The claim as the specification states it: the cleanup of
    [searchProducts] is the raw-cleanup pass of the normalizer. *)
Definition cleanQueryIsRawCleanup : Prop := ∀ q, cleanQuery q = rawCleanup q.


(** The parts of an outcome. *)
Definition completion {A} (o : Outcome A) : Completion A := o.1.1.
Definition finalState {A} (o : Outcome A) : TCGPlayerService := o.1.2.
Definition events {A} (o : Outcome A) : list Event := o.2.

(** A rebuild starts with the request for the group list. *)
Definition rebuildStarted (trace : list Event) : Prop := HttpGet groupsUrl ∈ trace.

(** The snapshot is non-empty. *)
Definition hasSnapshot (s : TCGPlayerService) : Prop := allProductsWithPrices s ≠ [].

(** Cache freshness as the specification states it, for a query arriving at
    time [t]: inside the validity window nothing is rebuilt, at or after
    its end a rebuild is triggered. *)
Definition queryRebuildsWhenStale (fuseScore : jsstring → ProductWithPrice → option Q)
    (s : TCGPlayerService) (t : Z) (query : jsstring) (limit : Z) : Prop :=
  let o := searchProducts fuseScore query limit s in
  (t < lastFetchTime s + cacheValidityMs s →
     finalState o = s ∧ ¬ rebuildStarted (events o))
  ∧ (lastFetchTime s + cacheValidityMs s ≤ t → rebuildStarted (events o)).

(** The states the service can be in between calls: the fresh object, and
    what a call of [initialize] or [searchProducts] leaves behind. *)
Inductive Reachable (dateParse : jsstring → option Z) (getFullYear : Z → Z)
    (setFullYear : Z → Z → Z)
    (fuseScore : jsstring → ProductWithPrice → option Q) : TCGPlayerService → Prop :=
  | reach_new : Reachable dateParse getFullYear setFullYear fuseScore newService
  | reach_initialize env forceRefresh s :
      Reachable dateParse getFullYear setFullYear fuseScore s →
      Reachable dateParse getFullYear setFullYear fuseScore
        (finalState (initialize dateParse getFullYear setFullYear env forceRefresh s))
  | reach_search query limit s :
      Reachable dateParse getFullYear setFullYear fuseScore s →
      Reachable dateParse getFullYear setFullYear fuseScore
        (finalState (searchProducts fuseScore query limit s)).

(** The time value of a group's [publishedOn]. *)
Definition publishedAt (dateParse : jsstring → option Z) (g : TCGGroup) (t : Z) : Prop :=
  dateParse (group_publishedOn g) = Some t.

(** The instant two calendar years before [today]: the date of [today]
    with its year lowered by 2. *)
Definition twoYearsBefore (getFullYear : Z → Z) (setFullYear : Z → Z → Z)
    (today : Z) : Z :=
  setFullYear today (getFullYear today - 2).

(** "Published within the last 2 years", read at the time [today]. *)
Definition publishedWithinLastTwoYears (dateParse : jsstring → option Z)
    (getFullYear : Z → Z) (setFullYear : Z → Z → Z) (today : Z) (g : TCGGroup) : Prop :=
  ∃ t, publishedAt dateParse g t
       ∧ twoYearsBefore getFullYear setFullYear today < t ∧ t ≤ today.

(** What the filter of [initialize] tests: published later than two years
    before [today]. *)
Definition publishedAfterCutoff (dateParse : jsstring → option Z)
    (getFullYear : Z → Z) (setFullYear : Z → Z → Z) (today : Z) (g : TCGGroup) : Prop :=
  ∃ t, publishedAt dateParse g t
       ∧ twoYearsBefore getFullYear setFullYear today < t.

(** Most recently published first. *)
Definition notOlderThan (dateParse : jsstring → option Z) (a b : TCGGroup) : Prop :=
  ∃ ta tb, publishedAt dateParse a ta ∧ publishedAt dateParse b tb ∧ tb ≤ ta.

(** The entries of one group: every product of the group with the price
    records of its product id, in the order of the price list, and the
    group's display name. *)
Definition pricesOf (product : TCGProduct) (prices : list TCGPrice) : list TCGPrice :=
  filter (λ price, price_productId price = product_productId product) prices.

Definition entriesOf (group : TCGGroup) (products : list TCGProduct)
    (prices : list TCGPrice) : list ProductWithPrice :=
  (λ product, {| pwp_product := product;
                 prices := pricesOf product prices;
                 groupName := group_name group |}) <$> products.

(** What one group adds to the collection during a rebuild. *)
Definition contribution (env : Environment) (group : TCGGroup) : list ProductWithPrice :=
  match remoteProducts env (group_groupId group),
        remotePrices env (group_groupId group) with
  | Body products, Body prices => entriesOf group products prices
  | _, _ => []
  end.

(** A group whose product and price fetch both succeed, and its entries. *)
Definition fetchedEntries (env : Environment) (group : TCGGroup)
    (entries : list ProductWithPrice) : Prop :=
  ∃ products prices,
    remoteProducts env (group_groupId group) = Body products
    ∧ remotePrices env (group_groupId group) = Body prices
    ∧ entries = entriesOf group products prices.

Definition fetchFails (env : Environment) (group : TCGGroup) : Prop :=
  (∀ products, remoteProducts env (group_groupId group) ≠ Body products)
  ∨ (∀ prices, remotePrices env (group_groupId group) ≠ Body prices).

(** The [catch] clause has logged the failure of a group. *)
Definition errorLogged (trace : list Event) (group : TCGGroup) : Prop :=
  ∃ error,
    ConsoleError (str "Error fetching group " ++ group_name group ++ str ":") error
      ∈ trace.

(** [initialize] does not serve the call from the cache. *)
Definition rebuildDue (env : Environment) (forceRefresh : bool)
    (s : TCGPlayerService) : Prop :=
  forceRefresh = true ∨ allProductsWithPrices s = []
  ∨ lastFetchTime s + cacheValidityMs s ≤ dateNow env.

(** Best match first: every returned item has a score for the cleaned
    query, and the scores do not decrease along the list. *)
Definition scoredNotAbove (fuseScore : jsstring → ProductWithPrice → option Q)
    (pattern : jsstring) (a b : ProductWithPrice) : Prop :=
  ∃ sa sb, fuseScore pattern a = Some sa ∧ fuseScore pattern b = Some sb
           ∧ (sa <= sb)%Q.

(** ** A sample catalog *)
Module Sample.

Definition group (groupId : Z) (name publishedOn : string) : TCGGroup :=
  {| group_groupId := groupId; group_name := str name;
     group_abbreviation := str ""; group_publishedOn := str publishedOn;
     group_modifiedOn := str publishedOn; group_categoryId := 3 |}.

Definition product (productId groupId : Z) (name : string) : TCGProduct :=
  {| product_productId := productId; product_name := str name;
     product_cleanName := str name; product_imageUrl := str "";
     product_categoryId := 3; product_groupId := groupId;
     product_url := str ""; product_modifiedOn := str "";
     product_extendedData := None |}.

Definition price (productId : Z) (subType : string) (low mid high market : option Q)
    : TCGPrice :=
  {| price_productId := productId; lowPrice := low; midPrice := mid;
     highPrice := high; marketPrice := market; directLowPrice := None;
     subTypeName := str subType |}.

(** 2026-11-03T12:00:00 UTC. *)
Definition now : Z := 1793707200000.

Definition lastMonthGroup : TCGGroup := group 1 "Surging Sparks" "2026-10-03T00:00:00".
Definition threeYearsAgoGroup : TCGGroup := group 2 "Paldea Evolved" "2023-11-03T00:00:00".
Definition summerGroup : TCGGroup := group 3 "Destined Rivals" "2026-06-01T00:00:00".
Definition springGroup : TCGGroup := group 4 "Journey Together" "2026-03-28T00:00:00".
Definition nextMonthGroup : TCGGroup := group 5 "Mega Evolution" "2026-12-15T00:00:00".

(** Published two years before [now] to the second, and one second later. *)
Definition cutoffGroup : TCGGroup := group 6 "Stellar Crown" "2024-11-03T12:00:00".
Definition afterCutoffGroup : TCGGroup := group 7 "Trick or Trade" "2024-11-03T12:00:01".

Definition sparksETB : TCGProduct := product 101 1 "Surging Sparks Elite Trainer Box".
Definition sparksBox : TCGProduct := product 102 1 "Surging Sparks Booster Box".
Definition journeyETB : TCGProduct := product 401 4 "Journey Together Elite Trainer Box".

Definition sparksPrices : list TCGPrice :=
  [ price 101 "Holofoil" None None None (Some (6000 # 100));
    price 102 "Normal" (Some (13999 # 100)) (Some (150 # 1)) (Some (200 # 1)) (Some (14550 # 100));
    price 101 "Normal" (Some (4999 # 100)) None (Some (70 # 1)) (Some (5512 # 100)) ].

Definition journeyPrices : list TCGPrice :=
  [ price 401 "Sealed" None None None None ].

Definition catalogProducts (groupId : Z) : Fetched (list TCGProduct) :=
  if decide (groupId = 1) then Body [sparksETB; sparksBox]
  else if decide (groupId = 4) then Body [journeyETB]
  else if decide (groupId = 3) then HttpStatus 503
  else Body [].

Definition catalogPrices (groupId : Z) : Fetched (list TCGPrice) :=
  if decide (groupId = 1) then Body sparksPrices
  else if decide (groupId = 4) then Body journeyPrices
  else Body [].

Definition environment (groups : list TCGGroup) : Environment :=
  {| dateNow := now; filterClock := λ _, now;
     remoteGroups := Body groups;
     remoteProducts := catalogProducts; remotePrices := catalogPrices |}.

(** The group list of the specification's scenario. *)
Definition scenarioGroups : list TCGGroup := [lastMonthGroup; threeYearsAgoGroup].

(** A catalog in which the fetch for one recent group fails. *)
Definition outageGroups : list TCGGroup :=
  [springGroup; threeYearsAgoGroup; summerGroup; lastMonthGroup].

(** The service after its start-up call of [initialize]. *)
Definition startedService : TCGPlayerService :=
  finalState (initialize UTCHost.dateParse UTCHost.getFullYear UTCHost.setFullYear
                (environment outageGroups) false newService).

(** Entries of the collection the start-up call builds. *)
Definition sparksETBEntry : ProductWithPrice :=
  {| pwp_product := sparksETB;
     prices := [ price 101 "Holofoil" None None None (Some (6000 # 100));
                 price 101 "Normal" (Some (4999 # 100)) None (Some (70 # 1))
                   (Some (5512 # 100)) ];
     groupName := str "Surging Sparks" |}.

Definition journeyETBEntry : ProductWithPrice :=
  {| pwp_product := journeyETB; prices := journeyPrices;
     groupName := str "Journey Together" |}.

(** A later moment, inside the validity window of the start-up build. *)
Definition oneHourLater : Environment :=
  {| dateNow := now + 3600000; filterClock := λ _, now + 3600000;
     remoteGroups := Body outageGroups;
     remoteProducts := catalogProducts; remotePrices := catalogPrices |}.

End Sample.

(** The states in which no rebuild has succeeded yet: the fresh object, and
    what a query or a rebuild that failed on the group list leaves behind. *)
Inductive NotYetBuilt (dateParse : jsstring → option Z) (getFullYear : Z → Z)
    (setFullYear : Z → Z → Z)
    (fuseScore : jsstring → ProductWithPrice → option Q) : TCGPlayerService → Prop :=
  | notYet_new : NotYetBuilt dateParse getFullYear setFullYear fuseScore newService
  | notYet_failed env forceRefresh s :
      NotYetBuilt dateParse getFullYear setFullYear fuseScore s →
      (∀ groups, remoteGroups env ≠ Body groups) →
      NotYetBuilt dateParse getFullYear setFullYear fuseScore
        (finalState (initialize dateParse getFullYear setFullYear env forceRefresh s))
  | notYet_search query limit s :
      NotYetBuilt dateParse getFullYear setFullYear fuseScore s →
      NotYetBuilt dateParse getFullYear setFullYear fuseScore
        (finalState (searchProducts fuseScore query limit s)).

(** The filter as the specification states it: retained are exactly the
    fetched groups published within the last 2 years. *)
Definition retainsExactlyLastTwoYears (dateParse : jsstring → option Z)
    (getFullYear : Z → Z) (setFullYear : Z → Z → Z) (env : Environment)
    (groups : list TCGGroup) : Prop :=
  ∀ g, g ∈ recentGroupsOf dateParse getFullYear setFullYear env groups
       ↔ g ∈ groups
         ∧ publishedWithinLastTwoYears dateParse getFullYear setFullYear (dateNow env) g.

(** Every result of a search is a document of the collection with the score
    the library gives it. *)
Definition resultOf (fuseScore : jsstring → ProductWithPrice → option Q)
    (pattern : jsstring) (docs : list ProductWithPrice) (r : FuseResult) : Prop :=
  item r ∈ docs ∧ fuseScore pattern (item r) = Some (score r).

(** Between calls the index, when there is one, is built over the current
    collection. *)
Definition indexCurrent (s : TCGPlayerService) : Prop :=
  ∀ f, fuse s = Some f → fuse_docs f = allProductsWithPrices s.

(** ** Words and separators

    For an abbreviation made of word characters, a match of
    [\bABBREV\b] is a maximal run of word characters equal to [ABBREV] up
    to case.  [replaceWord] is the replacement read that way: the scan
    keeps in [w] the word characters met since the last character that is
    not one, and writes the word, expanded or not, when it ends. *)
Definition expandWord (abbrev full w : jsstring) : jsstring :=
  if eqCI abbrev w then full else w.

Fixpoint replaceWordFrom (abbrev full w s : jsstring) : jsstring :=
  match s with
  | [] => expandWord abbrev full w
  | c :: r =>
      if isWordChar c then replaceWordFrom abbrev full (w ++ [c]) r
      else expandWord abbrev full w ++ c :: replaceWordFrom abbrev full [] r
  end.

Definition replaceWord (abbrev full s : jsstring) : jsstring :=
  replaceWordFrom abbrev full [] s.

(** The text as that scan cuts it: words, and the single characters
    between them. *)
Inductive Chunk :=
  | Word (w : jsstring)
  | Sep (c : N).

Definition flushWord (w : jsstring) : list Chunk :=
  match w with
  | [] => []
  | _ => [Word w]
  end.

Fixpoint chunksFrom (w s : jsstring) : list Chunk :=
  match s with
  | [] => flushWord w
  | c :: r =>
      if isWordChar c then chunksFrom (w ++ [c]) r
      else flushWord w ++ Sep c :: chunksFrom [] r
  end.

Definition chunks (s : jsstring) : list Chunk := chunksFrom [] s.

Definition chunkText (ch : Chunk) : jsstring :=
  match ch with
  | Word w => w
  | Sep c => [c]
  end.

(** What [replaceWord abbrev full] writes for a chunk. *)
Definition expandChunk (abbrev full : jsstring) (ch : Chunk) : jsstring :=
  match ch with
  | Word w => expandWord abbrev full w
  | Sep c => [c]
  end.

Definition chunkOK (ch : Chunk) : Prop :=
  match ch with
  | Word w => w ≠ [] ∧ Forall (λ c, isWordChar c = true) w
  | Sep c => isWordChar c = false
  end.

(** No word of the chunk list is [abbrev] up to case. *)
Definition notAbbrev (abbrev : jsstring) (ch : Chunk) : Prop :=
  match ch with
  | Word w => eqCI abbrev w = false
  | Sep _ => True
  end.

(** White space in normal form: every white-space character is a space,
    no two are adjacent, and none starts ([afterWs = true]) or ends the
    string. *)
Fixpoint tidyFrom (afterWs : bool) (s : jsstring) : bool :=
  match s with
  | [] => true
  | c :: r =>
      if isWhiteSpace c then negb afterWs && (c =? space)%N && tidyFrom true r
      else tidyFrom false r
  end.

Definition endsClean (s : jsstring) : Prop :=
  match reverse s with
  | c :: _ => isWhiteSpace c = false
  | [] => True
  end.

Definition tidy (s : jsstring) : Prop := tidyFrom true s = true ∧ endsClean s.

(** A piece of text that starts and ends a word: whatever precedes it, the
    white-space scan is past it in the state "not after white space". *)
Definition solid (p : jsstring) : Prop :=
  p ≠ [] ∧ endsClean p ∧ ∀ b r, tidyFrom b (p ++ r) = tidyFrom false r.

(** The claim as the specification states it. *)
Definition cleanProductNameIdempotent : Prop :=
  ∀ x, cleanProductName (cleanProductName x) = cleanProductName x.

(** A chunk that is none of the abbreviations. *)
Definition chunkClean (ch : Chunk) : Prop :=
  Forall (λ entry : jsstring * jsstring, notAbbrev entry.1 ch) ABBREVIATIONS.

(** The chunks one pass of [replaceWord] makes of a chunk. *)
Definition rechunk (abbrev full : jsstring) (ch : Chunk) : list Chunk :=
  chunks (expandChunk abbrev full ch).

(** A text made of word characters. *)
Definition wordy (s : jsstring) : Prop := Forall (λ c, isWordChar c = true) s.

(** The end of a word: the end of the text, or a character that is not a
    word character. *)
Definition atWordEnd (rest : jsstring) : Prop := isWordAt (head rest) = false.

(** The character before the position reached after reading [v]. *)
Definition lastOr (prev : option N) (v : jsstring) : option N :=
  from_option Some prev (last v).

(** * The rest of the two services and the bot *)

From Stdlib Require DecimalPos DecimalZ.

(** ** tcgplayerService.ts: getProductUrl *)

(** [product.url || `https://www.tcgplayer.com/product/${product.productId}`]:
    the empty string is the falsy value of a string. *)
Definition getProductUrl (product : ProductWithPrice) : jsstring :=
  match product_url (pwp_product product) with
  | [] => str "https://www.tcgplayer.com/product/"
            ++ showZ (product_productId (pwp_product product))
  | url => url
  end.

(** ** What a rebuild sends *)

(** The requests and delays among the events of a call. *)
Definition isNetworkEvent (e : Event) : bool :=
  match e with
  | HttpGet _ | Delay _ => true
  | _ => false
  end.

(** The pacing delay and the two requests for one group. *)
Definition groupRequests (group : TCGGroup) : list Event :=
  [ Delay 100; HttpGet (productsUrl (group_groupId group));
    HttpGet (pricesUrl (group_groupId group)) ].

(** A group of the list whose two fetches succeed, with the lists fetched. *)
Definition fetchedLists (env : Environment) (group : TCGGroup)
    (products : list TCGProduct) (prices : list TCGPrice) : Prop :=
  remoteProducts env (group_groupId group) = Body products
  ∧ remotePrices env (group_groupId group) = Body prices.

(** ** messageParser.ts: what the expansion loop does to a word

    The expansion of a word: the entry of [ABBREVIATIONS] whose key is the
    word up to case, if there is one. *)
Definition expansionOf (w : jsstring) : option jsstring :=
  snd <$> List.find (λ entry : jsstring * jsstring, eqCI entry.1 w) ABBREVIATIONS.

Definition expandKnown (ch : Chunk) : jsstring :=
  match ch with
  | Word w => default w (expansionOf w)
  | Sep c => [c]
  end.

(** ** cleanProductName: the known prefixes *)

(** The literals of the four anchored patterns, in the order of the
    source. *)
Definition knownPrefixes : list jsstring :=
  [prefixPokemonAccentTCGame; prefixPokemonTCGame; prefixPokemonTCG; prefixPTCG].

(** Two literals differ, up to case, at a position both of them have. *)
Fixpoint clash (p q : jsstring) : bool :=
  match p, q with
  | a :: p', b :: q' => negb (charEqCI a b) || clash p' q'
  | _, _ => false
  end.

(** ** String methods used by the parser and the bot *)

Local Open Scope N_scope.

Definition lineFeed : N := 10.         (* U+000A *)
Definition quote : N := 34.            (* U+0022 *)
Definition dollar : N := 36.           (* U+0024 *)
Definition comma : N := 44.            (* U+002C *)
Definition fullStop : N := 46.         (* U+002E *)
Definition verticalBar : N := 124.     (* U+007C *)

(** [s.includes(pat)]. *)
Fixpoint includes (s pat : jsstring) : bool :=
  isPrefixOf pat s
  || match s with
     | [] => false
     | _ :: r => includes r pat
     end.

(** [s.startsWith(pat)]. *)
Definition startsWith (s pat : jsstring) : bool := isPrefixOf pat s.

(** [s.split(sep)] for a separator of one character: the pieces between
    the occurrences of [sep]; [cur] is the piece being read. *)
Fixpoint splitFrom (sep : N) (cur s : jsstring) : list jsstring :=
  match s with
  | [] => [cur]
  | c :: r =>
      if c =? sep then cur :: splitFrom sep [] r
      else splitFrom sep (cur ++ [c]) r
  end.

Definition split (sep : N) (s : jsstring) : list jsstring := splitFrom sep [] s.

(** A string used as a condition: the empty string is falsy. *)
Definition nonEmpty (s : jsstring) : bool :=
  match s with
  | [] => false
  | _ => true
  end.

(** A value that is a string, [null] or [undefined], used as a condition. *)
Definition truthy (v : option jsstring) : bool := from_option nonEmpty false v.

(** [String.prototype.toLowerCase] on the code units below 256 (Basic
    Latin and Latin-1 Supplement): the letters A-Z and U+00C0-U+00DE
    without the multiplication sign U+00D7 move up by 32, every other code
    unit stays. *)
Definition isLatin1 (c : N) : Prop := c < 256.

Definition latin1Lower (c : N) : N :=
  if ((65 <=? c) && (c <=? 90))
     || ((192 <=? c) && (c <=? 222) && negb (c =? 215))
  then c + 32 else c.

(** A text occurs in another, up to the case of Latin-1 letters. *)
Definition occursIgnoringCase (keyword text : jsstring) : Prop :=
  ∃ before found after,
    text = before ++ found ++ after ∧ latin1Lower <$> found = keyword.

Local Open Scope Z_scope.

(** ** discord.js: the parts of a message the program reads *)

Record EmbedField := {
  field_name : jsstring;
  field_value : jsstring;
  field_inline : bool }.

(** [title], [description], [author] and [footer] are [null] when the
    embed has none; [fields] is always an array. *)
Record Embed := {
  embed_title : option jsstring;
  embed_description : option jsstring;
  embed_fields : list EmbedField;
  embed_authorName : option jsstring;
  embed_footerText : option jsstring }.

Record Message := {
  msg_content : jsstring;
  msg_embeds : list Embed;
  msg_authorId : jsstring;
  msg_authorUsername : jsstring;
  msg_channelId : jsstring }.

(** ** messageParser.ts: the classifiers and parseRestockEmbed *)

Record ParsedRestockMessage := {
  parsed_productName : jsstring;
  parsed_retailer : jsstring;
  parsed_price : option jsstring;
  parsed_type : option jsstring;
  parsed_stock : option jsstring;
  parsed_tcin : option jsstring;
  parsed_rawTitle : jsstring }.

Definition RESTOCK_BOT_NAMES : list jsstring :=
  [ str "target restocks"; str "walmart restocks"; str "best buy restocks";
    str "amazon restocks"; str "gamestop restocks"; str "zephyr monitors";
    str "restock alerts" ].

Definition SKIP_WORDS : list jsstring := [ str "queue" ].

(** The first keyword as the source file has it: U+251C U+2310 where an
    accented e was meant. *)
Definition pokemonKeywords : list jsstring :=
  [ str "pok" ++ [boxVertRight; reversedNot] ++ str "mon";
    str "pokemon"; str "pikachu"; str "charizard"; str "booster";
    str "elite trainer box"; str "etb"; str "tcg"; str "trading card";
    str "scarlet"; str "violet"; str "paldea"; str "obsidian flames";
    str "paradox rift"; str "temporal forces"; str "twilight masquerade";
    str "shrouded fable"; str "stellar crown"; str "surging sparks";
    str "prismatic evolutions"; str "destined rivals" ].

(** The values of [price], [type], [stock] and [tcin] in the loop over the
    fields of [parseRestockEmbed]. *)
Record RestockFields := {
  rf_price : option jsstring;
  rf_type : option jsstring;
  rf_stock : option jsstring;
  rf_tcin : option jsstring }.

Section Parser.
(** [toLowerCase s] is [s.toLowerCase()] of the host. *)
Variable toLowerCase : jsstring → jsstring.

Definition isRestockBot (authorName : jsstring) : bool :=
  let lowerName := toLowerCase authorName in
  existsb (λ bot, includes lowerName bot) RESTOCK_BOT_NAMES.

Definition shouldSkipSearch (text : jsstring) : bool :=
  let lowerText := toLowerCase text in
  existsb (λ word, includes lowerText word) SKIP_WORDS.

Definition isPokemonProduct (text : jsstring) : bool :=
  let lowerText := toLowerCase text in
  existsb (λ keyword, includes lowerText keyword) pokemonKeywords.

(** The body of the loop over [embed.fields]. *)
Definition parseField (acc : RestockFields) (field : EmbedField) : RestockFields :=
  let fieldName := toLowerCase (field_name field) in
  let fieldValue := field_value field in
  if bool_decide (fieldName = str "price") then
    {| rf_price := Some fieldValue; rf_type := rf_type acc;
       rf_stock := rf_stock acc; rf_tcin := rf_tcin acc |}
  else if bool_decide (fieldName = str "type") then
    {| rf_price := rf_price acc; rf_type := Some fieldValue;
       rf_stock := rf_stock acc; rf_tcin := rf_tcin acc |}
  else if bool_decide (fieldName = str "total stock")
          || bool_decide (fieldName = str "stock") then
    {| rf_price := rf_price acc; rf_type := rf_type acc;
       rf_stock := Some fieldValue; rf_tcin := rf_tcin acc |}
  else if bool_decide (fieldName = str "tcin") then
    {| rf_price := rf_price acc; rf_type := rf_type acc;
       rf_stock := rf_stock acc; rf_tcin := Some fieldValue |}
  else acc.

(** [embed.title || ''], then the first line of the description when the
    title is empty and there is a description. *)
Definition restockProductName (embed : Embed) : jsstring :=
  let productName := default [] (embed_title embed) in
  if negb (nonEmpty productName) && truthy (embed_description embed)
  then default [] (head (split lineFeed (default [] (embed_description embed))))
  else productName.

Definition restockRetailer (message : Message) (embed : Embed) : jsstring :=
  if truthy (embed_authorName embed) then default [] (embed_authorName embed)
  else if truthy (embed_footerText embed)
  then trim (default [] (head (split verticalBar (default [] (embed_footerText embed)))))
  else if nonEmpty (msg_authorUsername message) then msg_authorUsername message
  else str "Unknown".

(** [null] is [None]. *)
Definition parseRestockEmbed (message : Message) : option ParsedRestockMessage :=
  match msg_embeds message with
  | [] => None
  | embed :: _ =>
      let productName := restockProductName embed in
      if negb (nonEmpty productName) then None
      else if negb (isPokemonProduct productName) then None
      else
        let retailer := restockRetailer message embed in
        let fields :=
          foldl parseField
            {| rf_price := None; rf_type := None; rf_stock := None; rf_tcin := None |}
            (embed_fields embed) in
        Some {| parsed_productName := productName;
                parsed_retailer := retailer;
                parsed_price := rf_price fields;
                parsed_type := rf_type fields;
                parsed_stock := rf_stock fields;
                parsed_tcin := rf_tcin fields;
                parsed_rawTitle := productName |}
  end.
End Parser.

(** The value of the last field whose lower-cased name is one of [names]. *)
Definition lastNamed (toLowerCase : jsstring → jsstring) (names : list jsstring)
    (fields : list EmbedField) : option jsstring :=
  field_value <$> last (filter (λ field, toLowerCase (field_name field) ∈ names) fields).

(** ** index.ts: the bot

    The handlers are run to their end, like the methods of the service.
    What a handler does is the list of its actions: console output and
    requests of the service, and the replies it sends. *)

(** *** Configuration *)

(** The variables of [process.env] the handlers depend on; [None] is
    [undefined]. *)
Record ProcessEnv := {
  env_MONITORED_CHANNEL_IDS : option jsstring;
  env_COMMAND_PREFIX : option jsstring;
  env_AUTO_RESPOND : option jsstring }.

Definition MONITORED_CHANNEL_IDS (env : ProcessEnv) : list jsstring :=
  match env_MONITORED_CHANNEL_IDS env with
  | Some ids => trim <$> split comma ids
  | None => []
  end.

Definition COMMAND_PREFIX (env : ProcessEnv) : jsstring :=
  if truthy (env_COMMAND_PREFIX env) then default [] (env_COMMAND_PREFIX env)
  else str "!price".

Definition AUTO_RESPOND (env : ProcessEnv) : bool :=
  negb (bool_decide (env_AUTO_RESPOND env = Some (str "false"))).

(** [client.user]: [null] until the client is ready. *)
Record ClientUser := {
  user_id : jsstring;
  user_tag : jsstring }.

(** *** EmbedBuilder

    An embed under construction is the list of the calls made on the
    builder, in order.  Every call validates its argument and throws
    when the library rejects it. *)
Inductive BuilderCall :=
  | SetColor (color : Z)
  | SetTitle (title : jsstring)
  | SetURL (url : jsstring)
  | SetThumbnail (url : jsstring)
  | SetDescription (description : jsstring)
  | AddFields (name value : jsstring) (inline : bool)
  | SetFooter (text : jsstring)
  | SetTimestamp.

Definition isAddFields (c : BuilderCall) : bool :=
  match c with
  | AddFields _ _ _ => true
  | _ => false
  end.

Definition Build : Type := Completion (list BuilderCall).

(** *** Numbers of the retail price comparison *)
Inductive JSNumber :=
  | Finite (q : Q)
  | PlusInfinity
  | MinusInfinity
  | NaN.

Definition greaterThanZero (n : JSNumber) : bool :=
  match n with
  | Finite q => match (0 ?= q)%Q with Lt => true | _ => false end
  | PlusInfinity => true
  | _ => false
  end.

Definition lessThanZero (n : JSNumber) : bool :=
  match n with
  | Finite q => match (q ?= 0)%Q with Lt => true | _ => false end
  | MinusInfinity => true
  | _ => false
  end.

Definition isNaN (n : JSNumber) : bool :=
  match n with
  | NaN => true
  | _ => false
  end.

(** *** The host and the libraries of the bot

    - [host_toLowerCase s] is [s.toLowerCase()];
    - [host_dateParse], [host_getFullYear], [host_setFullYear],
      [host_fuseScore] and
      [host_toFixed2] are the parameters of the service;
    - [host_parseFloat], [host_subtract], [host_divide], [host_multiply]
      and [host_toFixed] are the arithmetic of IEEE doubles and its
      rendering;
    - [host_rejects calls call] is the error [EmbedBuilder] throws for
      [call] made after [calls], [None] when it accepts the call;
    - [host_replyError n] is the error with which the [n]-th
      [message.reply] of a handler run is rejected, [None] when it is
      delivered. *)
Record Host := {
  host_toLowerCase : jsstring → jsstring;
  host_dateParse : jsstring → option Z;
  host_getFullYear : Z → Z;
  host_setFullYear : Z → Z → Z;
  host_fuseScore : jsstring → ProductWithPrice → option Q;
  host_toFixed2 : Q → jsstring;
  host_parseFloat : jsstring → JSNumber;
  host_subtract : JSNumber → JSNumber → JSNumber;
  host_divide : JSNumber → JSNumber → JSNumber;
  host_multiply : JSNumber → JSNumber → JSNumber;
  host_toFixed : nat → JSNumber → jsstring;
  host_rejects : list BuilderCall → BuilderCall → option jsstring;
  host_replyError : nat → option jsstring }.

Inductive Payload :=
  | Content (text : jsstring)
  | Embeds (embed : list BuilderCall).

Inductive Action :=
  | Emit (e : Event)
  | Reply (payload : Payload).

Definition isReply (a : Action) : bool :=
  match a with
  | Reply _ => true
  | Emit _ => false
  end.

(** A handler run: the service, the actions so far, and the number of
    replies sent so far. *)
Record Run := {
  run_service : TCGPlayerService;
  run_actions : list Action;
  run_replies : nat }.

Definition Handler (A : Type) : Type := Run → Completion A * Run.

Definition startRun (s : TCGPlayerService) : Run :=
  {| run_service := s; run_actions := []; run_replies := 0 |}.

Definition returnH {A} (a : A) : Handler A := λ r, (Return a, r).

Definition bindH {A B} (m : Handler A) (f : A → Handler B) : Handler B :=
  λ r, match m r with
       | (Return a, r') => f a r'
       | (Throw error, r') => (Throw error, r')
       end.

Notation "m >>= f" := (bindH m f) (at level 100, f at level 200).
Notation "m >> k" := (bindH m (λ _, k)) (at level 100, k at level 200).

Definition emit (e : Event) : Handler unit :=
  λ r, (Return (),
        {| run_service := run_service r;
           run_actions := run_actions r ++ [Emit e];
           run_replies := run_replies r |}).

(** A method of the service called from a handler. *)
Definition service {A} (method : TCGPlayerService → Outcome A) : Handler A :=
  λ r, let '(result, s, trace) := method (run_service r) in
       (result,
        {| run_service := s;
           run_actions := run_actions r ++ (Emit <$> trace);
           run_replies := run_replies r |}).

Definition built (embed : Build) : Handler (list BuilderCall) :=
  λ r, (embed, r).

(** [try { body } catch (error) { handler }]. *)
Definition tryCatch (body : Handler unit) (handler : jsstring → Handler unit)
    : Handler unit :=
  λ r, match body r with
       | (Throw error, r') => handler error r'
       | (Return _, r') => (Return (), r')
       end.

(** [for (const x of l) { body }]. *)
Fixpoint forEach {A} (l : list A) (body : A → Handler unit) : Handler unit :=
  match l with
  | [] => returnH ()
  | x :: rest => body x >> forEach rest body
  end.

Definition pokemonYellow : Z := 16763653.   (* 0xFFCB05 *)

(** The three indicators of the value comparison as the source file has
    them (mis-encoded emoji). *)
Definition indicatorUp : jsstring := [8801; 402; 244; 234]%N.
Definition indicatorDown : jsstring := [8801; 402; 244; 235]%N.
Definition indicatorFlat : jsstring := [915; 8359; 251]%N.

(** The message of the TypeError for [mainPrice.marketPrice] when
    [mainPrice] is [undefined], in the wording of V8. *)
Definition undefinedMainPrice : jsstring :=
  str "Cannot read properties of undefined (reading 'marketPrice')".

Definition usageText : jsstring :=
  str "Please provide a product name to search. Example: `!price Scarlet Violet Booster Box`".

(** [{ name, retailPrice? }] of [extractProductNames]. *)
Record ProductInfo := {
  info_name : jsstring;
  info_retailPrice : option jsstring }.

Section Bot.
Variable host : Host.

Local Abbreviation toLowerCase := (host_toLowerCase host).
Local Abbreviation toFixed2 := (host_toFixed2 host).

(** One call on the builder. *)
Definition call (c : BuilderCall) (embed : Build) : Build :=
  match embed with
  | Throw error => Throw error
  | Return calls =>
      match host_rejects host calls c with
      | Some error => Throw error
      | None => Return (calls ++ [c])
      end
  end.

Definition callIf (condition : bool) (c : BuilderCall) (embed : Build) : Build :=
  if condition then call c embed else embed.

(** [prices.find(p => p.subTypeName === 'Normal') || prices[0]];
    [None] is [undefined]. *)
Definition mainPriceOf (prices : list TCGPrice) : option TCGPrice :=
  match List.find isNormal prices with
  | Some p => Some p
  | None => head prices
  end.

(** [priceFields.push(`**Label:** $${value.toFixed(2)}`)] under
    [value !== null]. *)
Definition pushField (label : string) (value : option Q)
    (priceFields : list jsstring) : list jsstring :=
  match value with
  | Some v => priceFields ++ [str "**" ++ str label ++ str ":** $" ++ toFixed2 v]
  | None => priceFields
  end.

Definition priceFieldsOf (mainPrice : option TCGPrice) : list jsstring :=
  match mainPrice with
  | Some mainPrice =>
      let priceFields := [] in
      let priceFields := pushField "Market" (marketPrice mainPrice) priceFields in
      let priceFields := pushField "Low" (lowPrice mainPrice) priceFields in
      let priceFields := pushField "Mid" (midPrice mainPrice) priceFields in
      let priceFields := pushField "High" (highPrice mainPrice) priceFields in
      priceFields
  | None => []
  end.

(** [mainPrice?.marketPrice] used as a condition: a number that is not
    zero. *)
Definition truthyMarketPrice (mainPrice : option TCGPrice) : option Q :=
  match mainPrice with
  | Some mainPrice =>
      match marketPrice mainPrice with
      | Some market => if Qeq_bool market 0 then None else Some market
      | None => None
      end
  | None => None
  end.

(** [retailPrice.replace(/[^0-9.]/g, '')]. *)
Definition digitsAndDots (s : jsstring) : jsstring :=
  List.filter (λ c, ((48 <=? c) && (c <=? 57) || (c =? fullStop))%N) s.

(** The block "Calculate potential savings/markup". *)
Definition valueComparison (mainPrice : option TCGPrice) (retailPrice : jsstring)
    (embed : Build) : Build :=
  match truthyMarketPrice mainPrice with
  | Some market =>
      if includes retailPrice [dollar] then
        let retailNum := host_parseFloat host (digitsAndDots retailPrice) in
        if negb (isNaN retailNum) then
          let diff := host_subtract host (Finite market) retailNum in
          let percentDiff :=
            host_toFixed host 1
              (host_multiply host (host_divide host diff retailNum) (Finite 100)) in
          let indicator :=
            if greaterThanZero diff then indicatorUp
            else if lessThanZero diff then indicatorDown else indicatorFlat in
          let plus := if greaterThanZero diff then str "+" else [] in
          call (AddFields (str "Value Comparison")
                  (indicator ++ str " Market is " ++ plus ++ str "$"
                     ++ host_toFixed host 2 diff ++ str " (" ++ plus
                     ++ percentDiff ++ str "%) vs retail")
                  false) embed
        else embed
      else embed
  | None => embed
  end.

Definition createPriceEmbed (product : ProductWithPrice)
    (retailPrice : option jsstring) : Build :=
  let prices := prices product in
  let mainPrice := mainPriceOf prices in
  let embed := Return [] in
  let embed := call (SetColor pokemonYellow) embed in
  let embed := call (SetTitle (product_name (pwp_product product))) embed in
  let embed := call (SetURL (getProductUrl product)) embed in
  let embed :=
    callIf (nonEmpty (product_imageUrl (pwp_product product)))
      (SetThumbnail (product_imageUrl (pwp_product product))) embed in
  let priceFields := priceFieldsOf mainPrice in
  let embed :=
    callIf (0 <? length priceFields)%nat
      (AddFields (str "TCGplayer Prices") (joinWith [lineFeed] priceFields) true)
      embed in
  let embed :=
    if truthy retailPrice && negb (bool_decide (retailPrice = Some (str "N/A"))) then
      let embed :=
        call (AddFields (str "Retail Price") (default [] retailPrice) true) embed in
      valueComparison mainPrice (default [] retailPrice) embed
    else embed in
  let embed :=
    call (AddFields (str "Set")
            (if nonEmpty (groupName product) then groupName product
             else str "Unknown")
            true) embed in
  let embed := call (SetFooter (str "Data from TCGplayer via tcgcsv.com")) embed in
  call SetTimestamp embed.

(** The value of [priceText] in one turn of the loop of
    [createSearchResultsEmbed]: [undefined !== null] holds, so a product
    without price record reaches [mainPrice.marketPrice] and throws. *)
Definition priceTextOf (mainPrice : option TCGPrice) : Completion jsstring :=
  match mainPrice with
  | None => Throw undefinedMainPrice
  | Some mainPrice =>
      match marketPrice mainPrice with
      | Some market => Return (str "Market: $" ++ toFixed2 market)
      | None => Return (str "No price data")
      end
  end.

(** The loop of [createSearchResultsEmbed] from index [i] on, over the
    results it visits. *)
Fixpoint addResultFields (i : nat) (results : list ProductWithPrice)
    (embed : Build) : Build :=
  match results with
  | [] => embed
  | product :: rest =>
      let embed :=
        match embed with
        | Throw error => Throw error
        | Return _ =>
            match priceTextOf (mainPriceOf (prices product)) with
            | Throw error => Throw error
            | Return priceText =>
                call (AddFields
                        (showZ (Z.of_nat i + 1) ++ str ". "
                           ++ product_name (pwp_product product))
                        (priceText ++ [lineFeed] ++ str "[View on TCGplayer]("
                           ++ getProductUrl product ++ str ")")
                        false) embed
            end
        end in
      addResultFields (S i) rest embed
  end.

Definition createSearchResultsEmbed (query : jsstring)
    (results : list ProductWithPrice) : Build :=
  let embed := Return [] in
  let embed := call (SetColor pokemonYellow) embed in
  let embed :=
    call (SetTitle (str "Search Results: " ++ [quote] ++ query ++ [quote])) embed in
  let embed :=
    call (SetDescription
            (if (length results =? 0)%nat then str "No matching products found."
             else str "Found " ++ showZ (Z.of_nat (length results))
                    ++ str " matching product(s):")) embed in
  let embed := addResultFields 0 (take 5 results) embed in
  let embed := call (SetFooter (str "Data from TCGplayer via tcgcsv.com")) embed in
  call SetTimestamp embed.

(** *** extractProductNames *)

Definition titleProducts (embed : Embed) : list ProductInfo :=
  if truthy (embed_title embed)
     && isPokemonProduct toLowerCase (default [] (embed_title embed))
  then
    let priceField :=
      List.find (λ f, bool_decide (toLowerCase (field_name f) = str "price"))
        (embed_fields embed) in
    [ {| info_name := default [] (embed_title embed);
         info_retailPrice := field_value <$> priceField |} ]
  else [].

Definition descriptionProducts (embed : Embed) : list ProductInfo :=
  if truthy (embed_description embed) then
    let lines := split lineFeed (default [] (embed_description embed)) in
    flat_map
      (λ line, if isPokemonProduct toLowerCase line && (10 <? length line)%nat
               then [ {| info_name := trim line; info_retailPrice := None |} ]
               else [])
      lines
  else [].

Definition lineProducts (lines : list jsstring) : list ProductInfo :=
  flat_map
    (λ line, let trimmedLine := trim line in
             if (10 <? length trimmedLine)%nat
                && isPokemonProduct toLowerCase trimmedLine
             then [ {| info_name := trimmedLine; info_retailPrice := None |} ]
             else [])
    lines.

Definition extractProductNames (message : Message) : list ProductInfo :=
  let products :=
    flat_map (λ embed, titleProducts embed ++ descriptionProducts embed)
      (msg_embeds message) in
  if nonEmpty (msg_content message)
     && isPokemonProduct toLowerCase (msg_content message)
  then
    let content := trim (msg_content message) in
    let lines := split lineFeed content in
    let products := products ++ lineProducts lines in
    if (length products =? 0)%nat && (10 <? length content)%nat
    then products ++ [ {| info_name := content; info_retailPrice := None |} ]
    else products
  else products.

(** *** The handlers *)

(** [message.reply(payload)]: the reply is sent, and delivered or
    rejected. *)
Definition reply (payload : Payload) : Handler unit :=
  λ r, (match host_replyError host (run_replies r) with
        | Some error => Throw error
        | None => Return ()
        end,
        {| run_service := run_service r;
           run_actions := run_actions r ++ [Reply payload];
           run_replies := S (run_replies r) |}).

(** One turn of the loop of [handleChannelMessage]. *)
Definition replyWithPrice (productInfo : ProductInfo) : Handler unit :=
  let cleanedName := cleanProductName (info_name productInfo) in
  service (searchCleanedName (host_fuseScore host) (info_name productInfo))
  >>= λ results,
    match results with
    | [] => emit (ConsoleLog (str "No TCGplayer match found for: " ++ cleanedName))
    | product :: _ =>
        built (createPriceEmbed product (info_retailPrice productInfo))
        >>= λ embed,
          tryCatch
            (reply (Embeds embed) >>
             emit (ConsoleLog (str "Replied with price for: "
                                 ++ product_name (pwp_product product))))
            (λ error, emit (ConsoleError (str "Error replying to message:") error))
    end.

Definition fullTextOf (message : Message) : jsstring :=
  msg_content message ++ str " "
    ++ joinWith (str " ") ((λ e, default [] (embed_title e)) <$> msg_embeds message).

Definition handleChannelMessage (message : Message) : Handler unit :=
  let fullText := fullTextOf message in
  if shouldSkipSearch toLowerCase fullText then
    emit (ConsoleLog (str "Skipping message containing skip word"))
  else
    let productInfos := extractProductNames message in
    if (length productInfos =? 0)%nat then returnH ()
    else
      emit (ConsoleLog (str "Found " ++ showZ (Z.of_nat (length productInfos))
                          ++ str " Pokemon product(s) in message")) >>
      forEach productInfos replyWithPrice.

Definition handlePriceCommand (message : Message) (query : jsstring) : Handler unit :=
  if negb (nonEmpty (trim query)) then reply (Content usageText)
  else
    emit (ConsoleLog (str "Price search requested: " ++ query)) >>
    service (searchProducts (host_fuseScore host) query 5)
    >>= λ results,
      match results with
      | [] =>
          reply (Content (str "No products found matching " ++ [quote] ++ query
                            ++ [quote] ++ str ". Try a different search term."))
      | first :: _ =>
          if (length results =? 1)%nat
             || includes (toLowerCase (product_name (pwp_product first)))
                  (toLowerCase query)
          then built (createPriceEmbed first None)
               >>= λ embed, reply (Embeds embed)
          else built (createSearchResultsEmbed query results)
               >>= λ embed, reply (Embeds embed)
      end.

(** The listener of [messageCreate]. *)
Definition messageCreate (env : ProcessEnv) (clientUser : option ClientUser)
    (message : Message) : Handler unit :=
  if bool_decide (Some (msg_authorId message) = user_id <$> clientUser)
  then returnH ()
  else if startsWith (msg_content message) (COMMAND_PREFIX env) then
    let query :=
      trim (drop (length (COMMAND_PREFIX env)) (msg_content message)) in
    handlePriceCommand message query
  else if AUTO_RESPOND env && (0 <? length (MONITORED_CHANNEL_IDS env))%nat then
    if bool_decide (msg_channelId message ∈ MONITORED_CHANNEL_IDS env)
    then handleChannelMessage message
    else returnH ()
  else returnH ().

(** The listener of [ready]; [catalog] is the clock and the remote
    catalog during the start-up call of [initialize]. *)
Definition ready (env : ProcessEnv) (clientUser : option ClientUser)
    (catalog : Environment) : Handler unit :=
  emit (ConsoleLog (str "Logged in as "
                      ++ default (str "undefined") (user_tag <$> clientUser))) >>
  emit (ConsoleLog (str "Monitoring "
                      ++ showZ (Z.of_nat (length (MONITORED_CHANNEL_IDS env)))
                      ++ str " channel(s) for restocks")) >>
  emit (ConsoleLog (str "Auto-respond mode: "
                      ++ if AUTO_RESPOND env then str "ON" else str "OFF")) >>
  emit (ConsoleLog (str "Command prefix: " ++ COMMAND_PREFIX env)) >>
  emit (ConsoleLog (str "Loading TCGplayer product data...")) >>
  tryCatch
    (service (initialize (host_dateParse host) (host_getFullYear host)
                (host_setFullYear host)
                catalog false) >>
     emit (ConsoleLog (str "TCGplayer data loaded successfully!")))
    (λ error, emit (ConsoleError (str "Error loading TCGplayer data:") error)).
End Bot.

(** ** handleChannelMessage: the names that find a product *)

(** The search for the cleaned name returns a result. *)
Definition hasMatch (host : Host) (s : TCGPlayerService) (info : ProductInfo) : bool :=
  match completion (searchCleanedName (host_fuseScore host) (info_name info) s) with
  | Return (_ :: _) => true
  | _ => false
  end.

Definition matching (host : Host) (s : TCGPlayerService)
    (infos : list ProductInfo) : list ProductInfo :=
  filter (λ info, hasMatch host s info) infos.

(** ** More of the sample catalog *)
Module Outage.

(** The remote catalog is down: the group list answers 503. *)
Definition catalogDown : Environment :=
  {| dateNow := Sample.now + 3600000; filterClock := λ _, Sample.now + 3600000;
     remoteGroups := HttpStatus 503;
     remoteProducts := Sample.catalogProducts;
     remotePrices := Sample.catalogPrices |}.

(** A group list of which nothing is loaded: one group is too old, the
    fetch of the other fails. *)
Definition barrenGroups : list TCGGroup :=
  [Sample.threeYearsAgoGroup; Sample.summerGroup].

End Outage.

(** ** A host to run the bot on

    Lower-casing of Latin-1 text, a toy scorer, exact decimal arithmetic
    on finite numbers, a builder that accepts every call and a gateway
    that delivers every reply; with the calendar and [toFixed(2)] of
    [UTCHost] they instantiate [Host] in the examples. *)
Module PlainHost.

Definition toLowerCase (s : jsstring) : jsstring := latin1Lower <$> s.

Definition firstWord (s : jsstring) : jsstring := default [] (head (split space s)).

(** 0 for a name equal to the pattern up to case, 1/4 for a name that
    contains the pattern, 1/2 for a name that contains its first word, no
    match otherwise. *)
Definition fuseScore (pattern : jsstring) (doc : ProductWithPrice) : option Q :=
  let name := toLowerCase (product_name (pwp_product doc)) in
  let pat := toLowerCase pattern in
  if bool_decide (name = pat) then Some 0%Q
  else if includes name pat then Some (1 # 4)%Q
  else if includes name (firstWord pat) then Some (1 # 2)%Q
  else None.

Definition isDigit (c : N) : bool := ((48 <=? c) && (c <=? 57))%N.

Fixpoint leadingDigits (s : jsstring) : jsstring :=
  match s with
  | c :: r => if isDigit c then c :: leadingDigits r else []
  | [] => []
  end.

Definition valueOf (digits : jsstring) : Z :=
  foldl (λ acc c, acc * 10 + (Z.of_N c - 48)) 0 digits.

(** [parseFloat] on a text of digits and full stops: the decimal number
    at its start, exactly. *)
Definition parseFloat (s : jsstring) : JSNumber :=
  let whole := leadingDigits s in
  let fraction :=
    match drop (length whole) s with
    | c :: r => if (c =? fullStop)%N then leadingDigits r else []
    | [] => []
    end in
  match whole, fraction with
  | [], [] => NaN
  | _, _ =>
      Finite (inject_Z (valueOf whole)
              + inject_Z (valueOf fraction)
                / inject_Z (10 ^ Z.of_nat (length fraction)))%Q
  end.

Definition subtract (a b : JSNumber) : JSNumber :=
  match a, b with
  | Finite x, Finite y => Finite (x - y)%Q
  | _, _ => NaN
  end.

Definition multiply (a b : JSNumber) : JSNumber :=
  match a, b with
  | Finite x, Finite y => Finite (x * y)%Q
  | _, _ => NaN
  end.

Definition divide (a b : JSNumber) : JSNumber :=
  match a, b with
  | Finite x, Finite y =>
      if Qeq_bool y 0 then
        (if Qeq_bool x 0 then NaN
         else if Qle_bool 0 x then PlusInfinity else MinusInfinity)
      else Finite (x / y)%Q
  | _, _ => NaN
  end.

(** [x.toFixed(digits)]: the nearest multiple of [10^-digits], the larger
    one on a tie, with the sign in front. *)
Definition toFixed (digits : nat) (n : JSNumber) : jsstring :=
  match n with
  | Finite x =>
      let scale := 10 ^ Z.of_nat digits in
      let m := Qfloor (Qabs x * inject_Z scale + (1 # 2))%Q in
      let decimals := showZ (m mod scale) in
      (if Qle_bool 0 x then [] else str "-")
        ++ showZ (m / scale)
        ++ match digits with
           | O => []
           | _ => str "." ++ replicate (digits - length decimals) 48%N ++ decimals
           end
  | PlusInfinity => str "Infinity"
  | MinusInfinity => str "-Infinity"
  | NaN => str "NaN"
  end.

Definition host : Host :=
  {| host_toLowerCase := toLowerCase;
     host_dateParse := UTCHost.dateParse;
     host_getFullYear := UTCHost.getFullYear;
     host_setFullYear := UTCHost.setFullYear;
     host_fuseScore := fuseScore;
     host_toFixed2 := UTCHost.toFixed2;
     host_parseFloat := parseFloat;
     host_subtract := subtract;
     host_divide := divide;
     host_multiply := multiply;
     host_toFixed := toFixed;
     host_rejects := λ _ _, None;
     host_replyError := λ _, None |}.

End PlainHost.

(** ** Sample messages *)
Module Scene.

(** Two monitored channels, the default prefix, auto-respond on. *)
Definition settings : ProcessEnv :=
  {| env_MONITORED_CHANNEL_IDS := Some (str "100, 200");
     env_COMMAND_PREFIX := None;
     env_AUTO_RESPOND := None |}.

Definition bot : ClientUser :=
  {| user_id := str "1"; user_tag := str "PriceBot#0001" |}.

Definition plain (content : string) : Message :=
  {| msg_content := str content; msg_embeds := [];
     msg_authorId := str "42"; msg_authorUsername := str "Restock Alerts";
     msg_channelId := str "100" |}.

(** A plain message of two lines, the second of them a product. *)
Definition twoLines : Message :=
  {| msg_content := str "  Restock!  " ++ [lineFeed]
                      ++ str "  Pokemon Scarlet booster box   ";
     msg_embeds := [];
     msg_authorId := str "42"; msg_authorUsername := str "Restock Alerts";
     msg_channelId := str "100" |}.

Definition field (name value : string) : EmbedField :=
  {| field_name := str name; field_value := str value; field_inline := true |}.

(** A restock alert with two price fields. *)
Definition restockEmbed : Embed :=
  {| embed_title := Some (str "Pokemon TCG: Surging Sparks ETB");
     embed_description := None;
     embed_fields := [field "Price" "$49.99"; field "Stock" "3";
                      field "price" "$39.99"];
     embed_authorName := Some (str "Target Restocks");
     embed_footerText := None |}.

Definition restock : Message :=
  {| msg_content := str ""; msg_embeds := [restockEmbed];
     msg_authorId := str "42"; msg_authorUsername := str "Captain Hook";
     msg_channelId := str "100" |}.

Definition restockRecord : ParsedRestockMessage :=
  {| parsed_productName := str "Pokemon TCG: Surging Sparks ETB";
     parsed_retailer := str "Target Restocks";
     parsed_price := Some (str "$39.99");
     parsed_type := None;
     parsed_stock := Some (str "3");
     parsed_tcin := None;
     parsed_rawTitle := str "Pokemon TCG: Surging Sparks ETB" |}.

(** The catalog of [Sample] with the price list of every group empty. *)
Definition pricelessCatalog : Environment :=
  {| dateNow := Sample.now; filterClock := λ _, Sample.now;
     remoteGroups := Body Sample.outageGroups;
     remoteProducts := Sample.catalogProducts;
     remotePrices := λ _, Body [] |}.

Definition pricelessService : TCGPlayerService :=
  finalState (initialize UTCHost.dateParse UTCHost.getFullYear UTCHost.setFullYear
                pricelessCatalog false newService).

Definition priceless (product : TCGProduct) (name : string) : ProductWithPrice :=
  {| pwp_product := product; prices := []; groupName := str name |}.

(** The embed of the product "Surging Sparks Elite Trainer Box". *)
Definition sparksEmbed : list BuilderCall :=
  [ SetColor pokemonYellow;
    SetTitle (str "Surging Sparks Elite Trainer Box");
    SetURL (str "https://www.tcgplayer.com/product/101");
    AddFields (str "TCGplayer Prices")
      (str "**Market:** $55.12" ++ [lineFeed] ++ str "**Low:** $49.99"
         ++ [lineFeed] ++ str "**High:** $70.00")
      true;
    AddFields (str "Set") (str "Surging Sparks") true;
    SetFooter (str "Data from TCGplayer via tcgcsv.com");
    SetTimestamp ].

(** The embed for the results of a search for "trainer". *)
Definition trainerEmbed : list BuilderCall :=
  [ SetColor pokemonYellow;
    SetTitle (str "Search Results: " ++ [quote] ++ str "trainer" ++ [quote]);
    SetDescription (str "Found 2 matching product(s):");
    AddFields (str "1. Surging Sparks Elite Trainer Box")
      (str "Market: $55.12" ++ [lineFeed]
         ++ str "[View on TCGplayer](https://www.tcgplayer.com/product/101)")
      false;
    AddFields (str "2. Journey Together Elite Trainer Box")
      (str "No price data" ++ [lineFeed]
         ++ str "[View on TCGplayer](https://www.tcgplayer.com/product/401)")
      false;
    SetFooter (str "Data from TCGplayer via tcgcsv.com");
    SetTimestamp ].

End Scene.
(** * Properties *)

(** ** formatPrice *)

Section FormatPriceFacts.
Variable toFixed2 : Q → jsstring.

Lemma isNormal_tagged r : isNormal r = true ↔ taggedNormal r.
Proof. unfold isNormal, taggedNormal. apply bool_decide_eq_true. Qed.

Lemma find_isNormal_skip before r after :
  Forall (λ x, ¬ taggedNormal x) before →
  List.find isNormal (before ++ r :: after) = List.find isNormal (r :: after).
Proof.
  induction 1 as [|x before Hx _ IH]; [done|].
  simpl. destruct (isNormal x) eqn:E; [|done].
  apply isNormal_tagged in E. contradiction.
Qed.

Lemma find_isNormal_none records :
  Forall (λ x, ¬ taggedNormal x) records → List.find isNormal records = None.
Proof.
  induction 1 as [|x l Hx _ IH]; [done|].
  simpl. destruct (isNormal x) eqn:E; [|done].
  apply isNormal_tagged in E. contradiction.
Qed.

(** What [prices.find(...) || prices[0]] selects is the primary price. *)
Lemma mainPrice_selected first rest main :
  isPrimaryPrice (first :: rest) main →
  default first (List.find isNormal (first :: rest)) = main.
Proof.
  intros [(before & after & Heq & Hn & Hb) | [Hall Hhd]].
  - rewrite Heq, find_isNormal_skip by done. simpl.
    apply isNormal_tagged in Hn. by rewrite Hn.
  - rewrite find_isNormal_none by done. simpl in *. congruence.
Qed.

Lemma isPrimaryPrice_exists first rest :
  ∃ main, isPrimaryPrice (first :: rest) main.
Proof.
  assert (H : ∀ records : list TCGPrice,
    Forall (λ r, ¬ taggedNormal r) records
    ∨ ∃ before main after, records = before ++ main :: after
        ∧ taggedNormal main ∧ Forall (λ r, ¬ taggedNormal r) before).
  { induction records as [|x l IH]; [by left|].
    destruct (decide (taggedNormal x)) as [Hx|Hx].
    - right. exists [], x, l. done.
    - destruct IH as [IH|(b & m & a & -> & Hm & Hb)].
      + left. by constructor.
      + right. exists (x :: b), m, a. split_and!; [done|done|by constructor]. }
  destruct (H (first :: rest)) as [Hall|(b & m & a & Heq & Hm & Hb)].
  - exists first. right. done.
  - exists m. left. eauto.
Qed.

Lemma isPrimaryPrice_nil main : ¬ isPrimaryPrice [] main.
Proof.
  intros [(before & after & Heq & _) | [_ Hhd]]; [|done].
  by apply app_cons_not_nil in Heq.
Qed.

Lemma formatPrice_of_primary p main :
  isPrimaryPrice (prices p) main →
  formatPrice toFixed2 p = joinWith (str " | ") (renderedValues toFixed2 main).
Proof.
  intros Hmain. unfold formatPrice.
  destruct (prices p) as [|first rest] eqn:Hp.
  - by apply isPrimaryPrice_nil in Hmain.
  - rewrite (mainPrice_selected _ _ _ Hmain).
    unfold renderedValues, pushLine.
    by destruct (marketPrice main), (lowPrice main), (midPrice main),
                (highPrice main).
Qed.

(** A summary of a product with price records is empty or starts with the
    label of a line, never with the "N" of the no-data string. *)
Lemma formatPrice_noData_only_empty p :
  formatPrice toFixed2 p = noPriceData → prices p = [].
Proof.
  unfold formatPrice. destruct (prices p) as [|first rest]; [done|].
  set (main := default first _). unfold pushLine.
  destruct (marketPrice main), (lowPrice main), (midPrice main),
           (highPrice main); simpl; intros H; try discriminate H;
    vm_compute in H; discriminate H.
Qed.

(** C8. For every product: with zero price records [formatPrice] returns
    the fixed string "No price data available"; otherwise there is a
    primary price (the first record tagged "Normal", or the first record
    when none is tagged), and the output is exactly the non-null values
    among its market, low, mid and high price, rendered in that order and
    joined by " | ". *)
Theorem formatPrice_primary_summary (p : ProductWithPrice) :
  (prices p = [] → formatPrice toFixed2 p = noPriceData)
  ∧ (prices p ≠ [] → ∃ main, isPrimaryPrice (prices p) main)
  ∧ (∀ main, isPrimaryPrice (prices p) main →
       formatPrice toFixed2 p
       = joinWith (str " | ") (renderedValues toFixed2 main)).
Proof.
  split_and!.
  - intros Hp. unfold formatPrice. by rewrite Hp.
  - destruct (prices p) as [|first rest]; [done|].
    intros _. apply isPrimaryPrice_exists.
  - apply formatPrice_of_primary.
Qed.

(** C10. A product that has price records, but whose primary record has
    market, low, mid and high price all null, is summarised by the empty
    string; the string "No price data available" is returned for products
    with zero price records only. *)
Theorem formatPrice_all_null_empty (p : ProductWithPrice) (main : TCGPrice) :
  prices p ≠ [] →
  isPrimaryPrice (prices p) main →
  marketPrice main = None → lowPrice main = None →
  midPrice main = None → highPrice main = None →
  formatPrice toFixed2 p = []
  ∧ formatPrice toFixed2 p ≠ noPriceData
  ∧ (∀ q, formatPrice toFixed2 q = noPriceData → prices q = []).
Proof.
  intros Hne Hmain Hm Hl Hmid Hh.
  assert (E : formatPrice toFixed2 p = []).
  { rewrite (formatPrice_of_primary _ _ Hmain).
    unfold renderedValues. by rewrite Hm, Hl, Hmid, Hh. }
  split_and!; [done| |apply formatPrice_noData_only_empty].
  rewrite E. discriminate.
Qed.
End FormatPriceFacts.

(** ** The query cleanup of searchProducts and the normalizer *)

Lemma dropWhile_suffix {A} (f : A → bool) (l : list A) : dropWhile f l `suffix_of` l.
Proof.
  induction l as [|x l IH]; simpl; [done|].
  destruct (f x); [by apply suffix_cons_r|done].
Qed.

Lemma matchPrefixCI_suffix pat s rest :
  matchPrefixCI pat s = Some rest → rest `suffix_of` s.
Proof.
  revert s. induction pat as [|p pat IH]; intros s; simpl.
  - by intros [= ->].
  - destruct s as [|c s]; [done|].
    destruct (charEqCI p c); [|done].
    intros H. apply suffix_cons_r. by apply IH.
Qed.

Lemma stripPrefix_suffix pat s : stripPrefix pat s `suffix_of` s.
Proof.
  unfold stripPrefix. destruct (matchPrefixCI pat s) as [rest|] eqn:E; [|done].
  etrans; [apply dropWhile_suffix|by eapply matchPrefixCI_suffix].
Qed.

Lemma Forall_suffix {A} (P : A → Prop) (l k : list A) :
  l `suffix_of` k → Forall P k → Forall P l.
Proof. intros [pre ->] H. by apply Forall_app in H as [_ H]. Qed.

Lemma stripPrefix_Forall (P : N → Prop) pat s :
  Forall P s → Forall P (stripPrefix pat s).
Proof. apply Forall_suffix, stripPrefix_suffix. Qed.

Lemma canonicalize_ascii c : isAscii c → isAscii (canonicalize c).
Proof.
  unfold isAscii, canonicalize. intros H.
  repeat case_match; lia.
Qed.

Lemma charEqCI_nonascii_ascii p c :
  canonicalize p = p → ¬ isAscii p → isAscii c → charEqCI p c = false.
Proof.
  intros Hp Hn Hc. unfold charEqCI. rewrite Hp. apply N.eqb_neq.
  intros ->. by apply Hn, canonicalize_ascii.
Qed.

Lemma matchPrefixCI_blocked pre x post s :
  (∀ c, isAscii c → charEqCI x c = false) →
  Forall isAscii s → matchPrefixCI (pre ++ x :: post) s = None.
Proof.
  intros Hx. revert s. induction pre as [|p pre IH]; intros [|c s] Hs; simpl; try done.
  - apply Forall_cons_1 in Hs as [Hc _]. by rewrite Hx.
  - apply Forall_cons_1 in Hs as [_ Hs]. destruct (charEqCI p c); [by apply IH|done].
Qed.

(** On ASCII text the pattern with the accented letter and the two
    mis-encoded patterns of [searchProducts] find nothing. *)
Lemma stripPrefix_accent_ascii s :
  Forall isAscii s → stripPrefix prefixPokemonAccentTCGame s = s.
Proof.
  intros H. unfold stripPrefix, prefixPokemonAccentTCGame. cbn [app].
  rewrite (matchPrefixCI_blocked (str "Pok") eAcute); [done| |done].
  intros c Hc. unfold charEqCI. apply N.eqb_neq. intros E.
  apply canonicalize_ascii in Hc. rewrite <- E in Hc. by vm_compute in Hc.
Qed.

Lemma stripPrefix_mojibake_ascii s :
  Forall isAscii s → stripPrefix mojibakePrefixPokemonTCGame s = s.
Proof.
  intros H. unfold stripPrefix, mojibakePrefixPokemonTCGame. cbn [app].
  rewrite (matchPrefixCI_blocked (str "Pok") boxVertRight); [done| |done].
  intros c Hc. by apply charEqCI_nonascii_ascii.
Qed.

Lemma replaceLiteral_mojibakeDash_ascii rep s :
  Forall isAscii s → replaceLiteral mojibakeDash rep s = s.
Proof.
  unfold replaceLiteral. induction 1 as [|c s Hc _ IH]; [done|].
  cbn [replaceLiteralFrom]. unfold mojibakeDash at 1. cbn [isPrefixOf].
  replace (capGamma =? c)%N with false; [by rewrite IH|].
  symmetry. apply N.eqb_neq. intros <-. by vm_compute in Hc.
Qed.

(** The one-character replacement is the literal replacement for a pattern
    of one character. *)
Lemma replaceLiteral_single x y s : replaceLiteral [x] [y] s = replaceChar x y s.
Proof.
  unfold replaceLiteral, replaceChar. induction s as [|c s IH]; [done|].
  cbn [replaceLiteralFrom isPrefixOf length]. rewrite fmap_cons, <- IH.
  rewrite andb_true_r, (N.eqb_sym x c). by destruct (c =? x)%N.
Qed.

Lemma replaceChar_emDash_ascii s :
  Forall isAscii s → replaceChar emDash hyphen s = s.
Proof.
  unfold replaceChar. induction 1 as [|c s Hc _ IH]; [done|].
  rewrite fmap_cons, IH.
  replace (c =? emDash)%N with false; [done|].
  symmetry. apply N.eqb_neq. intros ->. by vm_compute in Hc.
Qed.

(** C2, refuted as stated: on ["Pokemon TCG: a  b"] (two spaces) the
    cleanup of [searchProducts] changes nothing, while the raw-cleanup pass
    strips the prefix and collapses the run of spaces. *)
Lemma cleanQuery_differs_from_rawCleanup :
  cleanQuery (str "Pokemon TCG: a  b") = str "Pokemon TCG: a  b"
  ∧ rawCleanup (str "Pokemon TCG: a  b") = str "a b"
  ∧ ¬ cleanQueryIsRawCleanup.
Proof.
  split_and!; [by vm_compute|by vm_compute|].
  intros H. specialize (H (str "Pokemon TCG: a  b")). by vm_compute in H.
Qed.

(** C2, amended. For every ASCII query, the cleanup [searchProducts] makes
    before the fuzzy match is: strip "Pokemon Trading Card Game:" and then
    "PTCG:" (ignoring case, at the start, with the white space after), and
    trim.  The raw-cleanup pass of the normalizer does, on the same query,
    the same and two things more: it also strips "Pokemon TCG:" and it
    collapses runs of white space. *)
Theorem cleanQuery_ascii (q : jsstring) :
  Forall isAscii q →
  cleanQuery q
  = trim (stripPrefix prefixPTCG (stripPrefix prefixPokemonTCGame q))
  ∧ rawCleanup q
    = trim (collapseWhiteSpace
              (stripPrefix prefixPTCG
                 (stripPrefix prefixPokemonTCG
                    (stripPrefix prefixPokemonTCGame q)))).
Proof.
  intros Hq. split.
  - unfold cleanQuery. rewrite stripPrefix_mojibake_ascii by done.
    by rewrite replaceLiteral_mojibakeDash_ascii by by do 2 apply stripPrefix_Forall.
  - unfold rawCleanup, stripKnownPrefixes. rewrite stripPrefix_accent_ascii by done.
    by rewrite replaceChar_emDash_ascii by by do 3 apply stripPrefix_Forall.
Qed.

(** An ASCII query with a prefix, runs of spaces and a trailing space. *)
Lemma cleanQuery_ascii_witness :
  cleanQuery (str "ptcg:   Paldea  Evolved ")
  = trim (stripPrefix prefixPTCG
            (stripPrefix prefixPokemonTCGame (str "ptcg:   Paldea  Evolved ")))
  ∧ rawCleanup (str "ptcg:   Paldea  Evolved ")
    = trim (collapseWhiteSpace
              (stripPrefix prefixPTCG
                 (stripPrefix prefixPokemonTCG
                    (stripPrefix prefixPokemonTCGame
                       (str "ptcg:   Paldea  Evolved "))))).
Proof.
  apply (cleanQuery_ascii (str "ptcg:   Paldea  Evolved ")).
  unfold isAscii. repeat constructor.
Defined.

Example cleanQuery_ascii_values :
  cleanQuery (str "ptcg:   Paldea  Evolved ") = str "Paldea  Evolved"
  ∧ rawCleanup (str "ptcg:   Paldea  Evolved ") = str "Paldea Evolved".
Proof. by vm_compute. Qed.

(** ** The end-to-end scenario of the normalizer *)

Example cleanProductName_whole_words_only :
  cleanProductName (str "BBQ bb  Upc-etb etbx")
  = str "BBQ Booster Box Ultra Premium Collection-Elite Trainer Box etbx".
Proof. by vm_compute. Qed.

(** C4, refuted as stated: the normalizer does not capitalise, so the
    result is not the string of the specification. *)
Lemma cleanProductName_scenario_not_capitalised :
  cleanProductName scenarioQuery ≠ str "Scarlet & Violet-151 Elite Trainer Box".
Proof. by vm_compute. Qed.

(** C4, amended. [cleanProductName] applied to
    ["pokemon tcg: scarlet & violet—151 etb"] returns exactly
    ["scarlet & violet-151 Elite Trainer Box"] (prefix stripped, em-dash
    replaced by a hyphen, "etb" expanded, letters left in their case), and
    this very string is what the lookup of [handleChannelMessage] hands to
    the matcher: the cleanup of [searchProducts] leaves it as it is. *)
Theorem cleanProductName_scenario :
  cleanProductName scenarioQuery = str "scarlet & violet-151 Elite Trainer Box"
  ∧ cleanQuery (cleanProductName scenarioQuery)
    = str "scarlet & violet-151 Elite Trainer Box"
  ∧ ∀ fuseScore s f,
      fuse s = Some f →
      completion (searchCleanedName fuseScore scenarioQuery s)
      = Return (item <$> fuseSearch fuseScore f
                  (str "scarlet & violet-151 Elite Trainer Box") 1).
Proof.
  assert (Hclean : cleanProductName scenarioQuery
                   = str "scarlet & violet-151 Elite Trainer Box") by by vm_compute.
  assert (Hquery : cleanQuery (str "scarlet & violet-151 Elite Trainer Box")
                   = str "scarlet & violet-151 Elite Trainer Box") by by vm_compute.
  split_and!; [done|by rewrite Hclean|].
  intros fuseScore s f Hf. unfold searchCleanedName, searchProducts.
  by rewrite Hf, Hclean, Hquery.
Qed.

(** ** Array.prototype.sort *)

Section SortFacts.
Context {A : Type} (cmp : A → A → Z).

Lemma insertSorted_perm x l : insertSorted cmp x l ≡ₚ x :: l.
Proof.
  induction l as [|y r IH]; simpl; [done|].
  destruct (cmp x y <=? 0); [done|].
  rewrite IH. apply Permutation_swap.
Qed.

Lemma sortBy_perm l : sortBy cmp l ≡ₚ l.
Proof.
  induction l as [|x l IH]; simpl; [done|].
  by rewrite insertSorted_perm, IH.
Qed.

Lemma sortBy_Forall (P : A → Prop) l : Forall P l → Forall P (sortBy cmp l).
Proof. intros H. by rewrite sortBy_perm. Qed.

(** The result is in order for every relation the comparator decides on the
    elements sorted. *)
Section Order.
Context (P : A → Prop) (R : relation A).
Hypothesis R_trans : ∀ a b c, R a b → R b c → R a c.
Hypothesis cmp_le : ∀ a b, P a → P b → cmp a b ≤ 0 → R a b.
Hypothesis cmp_gt : ∀ a b, P a → P b → 0 < cmp a b → R b a.

Lemma insertSorted_sorted x l :
  P x → Forall P l → StronglySorted R l → StronglySorted R (insertSorted cmp x l).
Proof.
  intros Hx. induction l as [|y r IH]; intros HP Hs; simpl.
  - repeat constructor.
  - apply Forall_cons_1 in HP as [Hy HP].
    apply StronglySorted_cons in Hs as [Hyr Hs].
    destruct (Z.leb_spec (cmp x y) 0) as [Hle|Hgt].
    + apply StronglySorted_cons. split; [|by apply StronglySorted_cons].
      constructor; [by apply cmp_le|].
      eapply Forall_impl; [exact Hyr|]. intros z Hz.
      eapply R_trans; [|exact Hz]. by apply cmp_le.
    + apply StronglySorted_cons. split; [|by apply IH].
      rewrite insertSorted_perm. constructor; [by apply cmp_gt|done].
Qed.

Lemma sortBy_sorted l : Forall P l → StronglySorted R (sortBy cmp l).
Proof.
  induction 1 as [|x l Hx Hl IH]; simpl; [constructor|].
  apply insertSorted_sorted; [done|by apply sortBy_Forall|done].
Qed.
End Order.

(** The sort is stable: elements that compare equal keep their order. *)
Section Stable.
Context {K : Type} `{EqDecision K} (key : A → K).
Hypothesis cmp_key : ∀ a b, key a = key b → cmp a b ≤ 0.

Lemma insertSorted_filter_key k x l :
  filter (λ a, key a = k) (insertSorted cmp x l) = filter (λ a, key a = k) (x :: l).
Proof.
  induction l as [|y r IH]; simpl; [done|].
  destruct (Z.leb_spec (cmp x y) 0) as [Hle|Hgt]; [done|].
  rewrite (filter_cons _ y), IH, !(filter_cons _ x), !(filter_cons _ y).
  destruct (decide (key x = k)) as [Hx|Hx], (decide (key y = k)) as [Hy|Hy]; try done.
  assert (cmp x y ≤ 0) by (apply cmp_key; congruence). lia.
Qed.

Lemma sortBy_filter_key k l :
  filter (λ a, key a = k) (sortBy cmp l) = filter (λ a, key a = k) l.
Proof.
  induction l as [|x l IH]; simpl; [done|].
  by rewrite insertSorted_filter_key, !filter_cons, IH.
Qed.
End Stable.
End SortFacts.

(** ** The rebuild *)

Section RebuildFacts.
Variable dateParse : jsstring → option Z.
Variable getFullYear : Z → Z.
Variable setFullYear : Z → Z → Z.

Local Abbreviation initialize := (initialize dateParse getFullYear setFullYear).
Local Abbreviation recentGroupsOf := (recentGroupsOf dateParse getFullYear setFullYear).

(** The price map holds, for each product id, the prices of that id in the
    order of the fetched list. *)
Lemma addPrice_fold_lookup (m : gmap Z (list TCGPrice)) prices pid :
  default [] (foldl addPrice m prices !! pid)
  = default [] (m !! pid) ++ filter (λ price, price_productId price = pid) prices.
Proof.
  revert m. induction prices as [|price prices IH]; intros m; simpl.
  - by rewrite app_nil_r.
  - rewrite IH, filter_cons. unfold addPrice.
    destruct (decide (price_productId price = pid)) as [->|Hne].
    + rewrite lookup_insert_eq. simpl. by rewrite <- app_assoc.
    + by rewrite lookup_insert_ne.
Qed.

Lemma withPrices_entriesOf group products prices :
  withPrices group (buildPriceMap prices) <$> products
  = entriesOf group products prices.
Proof.
  unfold entriesOf. apply list_fmap_ext. intros _ product _.
  unfold withPrices, buildPriceMap, pricesOf. f_equal.
  by rewrite addPrice_fold_lookup, lookup_empty.
Qed.

(** One turn of the loop adds the group's contribution and leaves the
    index, the build time and the validity window alone. *)
Lemma processGroup_state env s tr group s' tr' :
  processGroup env (s, tr) group = (s', tr') →
  allProductsWithPrices s' = allProductsWithPrices s ++ contribution env group
  ∧ fuse s' = fuse s ∧ lastFetchTime s' = lastFetchTime s
  ∧ cacheValidityMs s' = cacheValidityMs s ∧ groupsCache s' = groupsCache s.
Proof.
  unfold processGroup, fetchProducts, fetchPrices, fetchResult, contribution.
  destruct (remoteProducts env (group_groupId group)) as [e|st|products];
    [intros [= <- <-]; by rewrite app_nil_r..|].
  destruct (remotePrices env (group_groupId group)) as [e|st|prices];
    [intros [= <- <-]; by rewrite app_nil_r..|].
  intros [= <- <-]. simpl. by rewrite withPrices_entriesOf.
Qed.

Lemma processGroups_state env groups s tr s' tr' :
  foldl (processGroup env) (s, tr) groups = (s', tr') →
  allProductsWithPrices s'
  = allProductsWithPrices s ++ concat (contribution env <$> groups)
  ∧ fuse s' = fuse s ∧ lastFetchTime s' = lastFetchTime s
  ∧ cacheValidityMs s' = cacheValidityMs s ∧ groupsCache s' = groupsCache s.
Proof.
  revert s tr. induction groups as [|g groups IH]; intros s tr; cbn [foldl].
  - intros [= <- <-]. by rewrite app_nil_r.
  - destruct (processGroup env (s, tr) g) as [s1 tr1] eqn:E1.
    intros E. apply IH in E as (Ha & Hf & Hl & Hc & Hg).
    apply processGroup_state in E1 as (Ha1 & Hf1 & Hl1 & Hc1 & Hg1).
    rewrite Ha, Ha1, fmap_cons, <- app_assoc. cbn [concat]. split_and!; congruence.
Qed.

Lemma processGroups_events env groups s tr s' tr' :
  foldl (processGroup env) (s, tr) groups = (s', tr') → tr `prefix_of` tr'.
Proof.
  revert s tr. induction groups as [|g groups IH]; intros s tr; cbn [foldl].
  - by intros [= <- <-].
  - destruct (processGroup env (s, tr) g) as [s1 tr1] eqn:E1.
    intros E. apply IH in E. etrans; [|exact E].
    revert E1. unfold processGroup.
    destruct (fetchProducts env _); [destruct (fetchPrices env _)|];
      intros [= <- <-]; try rewrite <- app_assoc; by apply prefix_app_r.
Qed.

(** A failed fetch changes no field and is logged. *)
Lemma processGroup_failure env s tr group :
  fetchFails env group →
  ∃ tr', processGroup env (s, tr) group = (s, tr') ∧ errorLogged tr' group.
Proof.
  intros Hfail. unfold processGroup, fetchProducts, fetchPrices, fetchResult.
  assert (Hlog : ∀ (pre : list Event) error,
            errorLogged
              (pre ++ [ConsoleError
                         (str "Error fetching group " ++ group_name group ++ str ":")
                         error]) group).
  { intros pre error. exists error. apply elem_of_app. right. left. }
  destruct Hfail as [Hf|Hf].
  - destruct (remoteProducts env (group_groupId group)) as [e|st|products];
      [by eexists..|by destruct (Hf products)].
  - destruct (remoteProducts env (group_groupId group)) as [e|st|products];
      [by eexists..|].
    destruct (remotePrices env (group_groupId group)) as [e|st|prices];
      [by eexists..|by destruct (Hf prices)].
Qed.

Lemma processGroups_failure_logged env groups group s tr s' tr' :
  group ∈ groups → fetchFails env group →
  foldl (processGroup env) (s, tr) groups = (s', tr') →
  errorLogged tr' group.
Proof.
  intros Hin Hfail. revert s tr.
  induction groups as [|g groups IH]; intros s tr; [by apply elem_of_nil in Hin|].
  cbn [foldl]. apply elem_of_cons in Hin as [<-|Hin].
  - destruct (processGroup_failure env s tr group Hfail) as (tr1 & -> & error & Hlog).
    intros Hrest%processGroups_events. exists error.
    by eapply elem_of_prefix.
  - destruct (processGroup env (s, tr) g) as [s1 tr1]. by apply IH.
Qed.

(** The test at the head of [initialize]. *)
Lemma initialize_cached env s :
  hasSnapshot s → dateNow env < lastFetchTime s + cacheValidityMs s →
  initialize env false s
  = (Return (), s, [ConsoleLog (str "Using cached product data")]).
Proof.
  intros Hs Ht. unfold initialize.
  replace (0 <? Z.of_nat (length (allProductsWithPrices s))) with true.
  2:{ symmetry. apply Z.ltb_lt. unfold hasSnapshot in Hs.
      destruct (allProductsWithPrices s); simpl; [done|lia]. }
  replace (dateNow env - lastFetchTime s <? cacheValidityMs s) with true; [done|].
  symmetry. apply Z.ltb_lt. lia.
Qed.

Lemma rebuildDue_test env forceRefresh s :
  rebuildDue env forceRefresh s →
  negb forceRefresh
    && (0 <? Z.of_nat (length (allProductsWithPrices s)))
    && (dateNow env - lastFetchTime s <? cacheValidityMs s) = false.
Proof.
  intros [->|[->|H]]; [done|by rewrite andb_false_r|].
  replace (dateNow env - lastFetchTime s <? cacheValidityMs s) with false;
    [by rewrite andb_false_r|].
  symmetry. apply Z.ltb_ge. lia.
Qed.

(** A rebuild whose group fetch fails throws and changes no field. *)
Lemma initialize_groups_fail env forceRefresh s :
  rebuildDue env forceRefresh s →
  (∀ groups, remoteGroups env ≠ Body groups) →
  ∃ error, completion (initialize env forceRefresh s) = Throw error
           ∧ finalState (initialize env forceRefresh s) = s.
Proof.
  intros Hdue Hfail. unfold initialize. rewrite rebuildDue_test by done.
  unfold fetchGroups, fetchResult.
  destruct (remoteGroups env) as [e|st|groups]; [by eexists..|].
  by destruct (Hfail groups).
Qed.

(** A rebuild whose group fetch succeeds returns; the collection is the
    contributions of the recent groups in the order they are processed, the
    index is built over that collection, and the build time is the time of
    the call. *)
Lemma initialize_rebuild env forceRefresh s groups :
  rebuildDue env forceRefresh s →
  remoteGroups env = Body groups →
  ∃ s' tr,
    initialize env forceRefresh s = (Return (), s', tr)
    ∧ allProductsWithPrices s'
      = concat (contribution env <$> recentGroupsOf env groups)
    ∧ fuse s' = Some {| fuse_docs := allProductsWithPrices s' |}
    ∧ lastFetchTime s' = dateNow env
    ∧ cacheValidityMs s' = cacheValidityMs s
    ∧ groupsCache s' = groups
    ∧ rebuildStarted tr
    ∧ ∀ group, group ∈ recentGroupsOf env groups → fetchFails env group →
               errorLogged tr group.
Proof.
  intros Hdue Hgroups. unfold initialize. rewrite rebuildDue_test by done.
  unfold fetchGroups, fetchResult. rewrite Hgroups.
  match goal with |- context [foldl ?f ?a ?l] => destruct (foldl f a l) as [s1 tr1] eqn:E end.
  eexists _, _. split; [reflexivity|].
  pose proof (processGroups_events _ _ _ _ _ _ E) as Hpre.
  pose proof (λ group Hin Hfail,
                processGroups_failure_logged _ _ group _ _ _ _ Hin Hfail E) as Hlog.
  apply processGroups_state in E as (Ha & Hf & Hl & Hc & Hg). simpl in *.
  split_and!; try done.
  - unfold rebuildStarted. apply elem_of_app. left.
    eapply elem_of_prefix; [|exact Hpre]. set_solver.
  - intros group Hin Hfail. destruct (Hlog group Hin Hfail) as [error Herr].
    exists error. apply elem_of_app. by left.
Qed.
End RebuildFacts.

(** ** Queries and the cache *)

Section QueryFacts.
Variable dateParse : jsstring → option Z.
Variable getFullYear : Z → Z.
Variable setFullYear : Z → Z → Z.
Variable fuseScore : jsstring → ProductWithPrice → option Q.

Local Abbreviation initialize := (initialize dateParse getFullYear setFullYear).
Local Abbreviation searchProducts := (searchProducts fuseScore).

(** [searchProducts] reads the fields and writes none; it sends nothing. *)
Lemma searchProducts_state query limit s :
  finalState (searchProducts query limit s) = s.
Proof. unfold searchProducts. by destruct (fuse s). Qed.

Lemma searchProducts_no_rebuild query limit s :
  ¬ rebuildStarted (events (searchProducts query limit s)).
Proof.
  unfold rebuildStarted, searchProducts.
  destruct (fuse s); simpl; [by intros ?%elem_of_nil|].
  intros [=]%list_elem_of_singleton.
Qed.

Lemma initialize_due_starts env forceRefresh s :
  rebuildDue env forceRefresh s →
  rebuildStarted (events (initialize env forceRefresh s)).
Proof.
  intros Hdue. destruct (remoteGroups env) as [e|st|groups] eqn:E.
  3:{ destruct (initialize_rebuild dateParse getFullYear setFullYear _ _ _ _ Hdue E)
        as (s' & tr & -> & _ & _ & _ & _ & _ & H & _). exact H. }
  all: unfold initialize; rewrite rebuildDue_test by done;
    unfold fetchGroups, fetchResult; rewrite E; unfold rebuildStarted; simpl;
    set_solver.
Qed.

Lemma notYetBuilt_new s :
  NotYetBuilt dateParse getFullYear setFullYear fuseScore s → s = newService.
Proof.
  induction 1 as [|env force s _ IH Hfail|query limit s _ IH]; [done|..].
  - subst s.
    destruct (initialize_groups_fail dateParse getFullYear setFullYear env force newService)
      as (e & _ & ->); [|done..]. right. by left.
  - by rewrite searchProducts_state.
Qed.

(** C9. Before any successful rebuild the fuzzy index is not built, and a
    query on a service whose index is not built returns the empty list and
    logs the warning "Product data not initialized"; it does not throw and
    changes no field. *)
Theorem searchProducts_not_initialized (s : TCGPlayerService) (query : jsstring)
    (limit : Z) :
  (NotYetBuilt dateParse getFullYear setFullYear fuseScore s → fuse s = None)
  ∧ (fuse s = None →
       searchProducts query limit s
       = (Return [], s, [ConsoleWarn (str "Product data not initialized")])).
Proof.
  split.
  - by intros ->%notYetBuilt_new.
  - intros H. unfold searchProducts. by rewrite H.
Qed.

(** C1, amended. For every service state with a non-empty snapshot: a
    query, at whatever time it arrives, triggers no rebuild and leaves
    snapshot, index and build time unchanged, because [searchProducts] does
    not look at the clock.  The freshness test is the one [initialize]
    makes: called without force at a time [t < lastFetchTime +
    cacheValidityMs] (6 hours in a new service) it rebuilds nothing and
    changes no field; called at [t >= lastFetchTime + cacheValidityMs] it
    starts a rebuild. *)
Theorem freshness_is_tested_by_initialize (env : Environment)
    (s : TCGPlayerService) (query : jsstring) (limit : Z) :
  hasSnapshot s →
  (finalState (searchProducts query limit s) = s
   ∧ ¬ rebuildStarted (events (searchProducts query limit s)))
  ∧ (dateNow env < lastFetchTime s + cacheValidityMs s →
       finalState (initialize env false s) = s
       ∧ ¬ rebuildStarted (events (initialize env false s)))
  ∧ (lastFetchTime s + cacheValidityMs s ≤ dateNow env →
       rebuildStarted (events (initialize env false s)))
  ∧ cacheValidityMs newService = 6 * 60 * 60 * 1000.
Proof.
  intros Hs. split_and!.
  - apply searchProducts_state.
  - apply searchProducts_no_rebuild.
  - intros Ht. rewrite initialize_cached by done. split; [done|].
    unfold rebuildStarted. simpl. intros [=]%list_elem_of_singleton.
  - intros Ht. apply initialize_due_starts. right. by right.
  - done.
Qed.

(** C5. In every rebuild in which the fetch of products or prices fails for
    one retained group [G] and succeeds for every other retained group,
    [initialize] returns without throwing, and the snapshot it leaves is
    the entries of the retained groups other than [G], in the order the
    groups are processed; the index is built over that snapshot, and the
    failure of [G] is logged. *)
Theorem rebuild_skips_failed_group (env : Environment) (forceRefresh : bool)
    (s : TCGPlayerService) (groups before after : list TCGGroup) (G : TCGGroup) :
  rebuildDue env forceRefresh s →
  remoteGroups env = Body groups →
  recentGroupsOf dateParse getFullYear setFullYear env groups = before ++ G :: after →
  fetchFails env G →
  Forall (λ g, ∃ entries, fetchedEntries env g entries) (before ++ after) →
  ∃ s' tr entries,
    initialize env forceRefresh s = (Return (), s', tr)
    ∧ Forall2 (fetchedEntries env) (before ++ after) entries
    ∧ allProductsWithPrices s' = concat entries
    ∧ fuse s' = Some {| fuse_docs := allProductsWithPrices s' |}
    ∧ errorLogged tr G.
Proof.
  intros Hdue Hgroups Hrecent Hfail Hothers.
  destruct (initialize_rebuild dateParse getFullYear setFullYear _ _ _ _ Hdue Hgroups)
    as (s' & tr & Hinit & Hall & Hfuse & _ & _ & _ & _ & Hlog).
  exists s', tr, (contribution env <$> (before ++ after)).
  split_and!; [done| | |done|].
  3:{ apply Hlog; [|done]. rewrite Hrecent. set_solver. }
  - apply Forall2_fmap_r, Forall_Forall2_diag.
    eapply Forall_impl; [exact Hothers|].
    intros g (entries & products & prices & Hp & Hpr & ->).
    exists products, prices. unfold contribution. by rewrite Hp, Hpr.
  - rewrite Hall, Hrecent, !fmap_app, fmap_cons, !concat_app. cbn [concat].
    replace (contribution env G) with (@nil ProductWithPrice); [done|].
    unfold contribution.
    destruct Hfail as [Hf|Hf].
    + destruct (remoteProducts env _) as [| |products]; [done..|by destruct (Hf products)].
    + destruct (remoteProducts env _); [done..|].
      destruct (remotePrices env _) as [| |prices]; [done..|by destruct (Hf prices)].
Qed.
End QueryFacts.

(** ** The recency filter and the order of the rebuild *)

Section RecentGroups.
Variable dateParse : jsstring → option Z.
Variable getFullYear : Z → Z.
Variable setFullYear : Z → Z → Z.

Local Abbreviation isRecent := (isRecent dateParse getFullYear setFullYear).
Local Abbreviation filterRecent := (filterRecent dateParse getFullYear setFullYear).
Local Abbreviation comparePublished := (comparePublished dateParse).

Lemma isRecent_cutoff today g :
  isRecent today g = true ↔ publishedAfterCutoff dateParse getFullYear setFullYear today g.
Proof.
  unfold isRecent, publishedAfterCutoff, publishedAt.
  destruct (dateParse (group_publishedOn g)) as [t|].
  - rewrite Z.ltb_lt. split; [by exists t|]. by intros (t' & [= <-] & H).
  - split; [done|]. by intros (t' & [=] & _).
Qed.

Lemma elem_of_filterRecent clock i groups g :
  g ∈ filterRecent clock i groups
  ↔ ∃ j, groups !! j = Some g ∧ isRecent (clock (i + j)%nat) g = true.
Proof.
  revert i. induction groups as [|x groups IH]; intros i; simpl.
  - rewrite elem_of_nil. split; [done|]. by intros (j & [=] & _).
  - assert (Hshift : (∃ j, groups !! j = Some g ∧ isRecent (clock (S i + j)%nat) g = true)
                     ↔ ∃ j, (x :: groups) !! S j = Some g
                            ∧ isRecent (clock (i + S j)%nat) g = true).
    { split; intros (j & H1 & H2); exists j;
        (split; [done|]); by replace (i + S j)%nat with (S i + j)%nat in * by lia. }
    destruct (isRecent (clock i) x) eqn:E.
    + rewrite elem_of_cons, IH, Hshift. split.
      * intros [->|(j & H1 & H2)]; [|by exists (S j)].
        exists 0%nat. by rewrite Nat.add_0_r.
      * intros ([|j] & H1 & H2); [left; by injection H1|right; by exists j].
    + rewrite IH, Hshift. split.
      * intros (j & H1 & H2). by exists (S j).
      * intros ([|j] & H1 & H2); [|by exists j].
        injection H1 as ->. rewrite Nat.add_0_r in H2. congruence.
Qed.

Lemma filterRecent_sublist clock i groups :
  filterRecent clock i groups `sublist_of` groups.
Proof.
  revert i. induction groups as [|x groups IH]; intros i; simpl; [done|].
  destruct (isRecent (clock i) x); [by apply sublist_skip|by apply sublist_cons].
Qed.

Lemma filterRecent_dated clock i groups :
  Forall (λ g, ∃ t, publishedAt dateParse g t) (filterRecent clock i groups).
Proof.
  apply Forall_forall. intros g (j & _ & H)%elem_of_filterRecent.
  apply isRecent_cutoff in H as (t & Ht & _). by exists t.
Qed.

Lemma notOlderThan_trans a b c :
  notOlderThan dateParse a b → notOlderThan dateParse b c →
  notOlderThan dateParse a c.
Proof.
  unfold notOlderThan, publishedAt.
  intros (ta & tb & Ha & Hb & Hab) (tb' & tc & Hb' & Hc & Hbc).
  exists ta, tc. split_and!; [done..|]. assert (tb = tb') by congruence. lia.
Qed.

Lemma comparePublished_le a b :
  (∃ t, publishedAt dateParse a t) → (∃ t, publishedAt dateParse b t) →
  comparePublished a b ≤ 0 → notOlderThan dateParse a b.
Proof.
  unfold comparePublished, notOlderThan, publishedAt.
  intros [ta Ha] [tb Hb]. rewrite Ha, Hb. intros H.
  exists ta, tb. split_and!; [done..|lia].
Qed.

Lemma comparePublished_gt a b :
  (∃ t, publishedAt dateParse a t) → (∃ t, publishedAt dateParse b t) →
  0 < comparePublished a b → notOlderThan dateParse b a.
Proof.
  unfold comparePublished, notOlderThan, publishedAt.
  intros [ta Ha] [tb Hb]. rewrite Ha, Hb. intros H.
  exists tb, ta. split_and!; [done..|lia].
Qed.

Lemma comparePublished_same_date a b :
  dateParse (group_publishedOn a) = dateParse (group_publishedOn b) →
  comparePublished a b ≤ 0.
Proof.
  unfold comparePublished. intros ->.
  destruct (dateParse (group_publishedOn b)); lia.
Qed.

(** C6, amended. For every fetched group list, the rebuild retains exactly
    the groups whose [publishedOn] is a valid date later than the instant
    two calendar years before the moment its test is made, that is, later
    than the date of that moment with its year lowered by 2 (dates in the
    future included, invalid dates dropped), and processes them sorted most
    recently published first, groups of equal date in the order of the
    fetched list.  On a host in UTC: of the two groups published last month
    and three years ago, only the first is retained; a group published two
    years before the test to the second is dropped, one published a second
    later is retained. *)
Theorem recentGroups_filtered_and_sorted (env : Environment)
    (groups : list TCGGroup) :
  let retained := filterRecent (filterClock env) 0 groups in
  let recent := recentGroupsOf dateParse getFullYear setFullYear env groups in
  (∀ g, g ∈ retained
        ↔ ∃ i published,
            groups !! i = Some g
            ∧ dateParse (group_publishedOn g) = Some published
            ∧ setFullYear (filterClock env i) (getFullYear (filterClock env i) - 2)
              < published)
  ∧ retained `sublist_of` groups
  ∧ recent ≡ₚ retained
  ∧ StronglySorted (notOlderThan dateParse) recent
  ∧ (∀ t, filter (λ g, dateParse (group_publishedOn g) = Some t) recent
          = filter (λ g, dateParse (group_publishedOn g) = Some t) retained)
  ∧ recentGroupsOf UTCHost.dateParse UTCHost.getFullYear UTCHost.setFullYear
      (Sample.environment Sample.scenarioGroups) Sample.scenarioGroups
    = [Sample.lastMonthGroup]
  ∧ UTCHost.dateParse (group_publishedOn Sample.cutoffGroup)
    = Some (UTCHost.setFullYear Sample.now (UTCHost.getFullYear Sample.now - 2))
  ∧ recentGroupsOf UTCHost.dateParse UTCHost.getFullYear UTCHost.setFullYear
      (Sample.environment [Sample.cutoffGroup; Sample.afterCutoffGroup])
      [Sample.cutoffGroup; Sample.afterCutoffGroup]
    = [Sample.afterCutoffGroup].
Proof.
  intros retained recent. split_and!.
  - intros g. unfold retained. rewrite elem_of_filterRecent.
    setoid_rewrite isRecent_cutoff.
    unfold publishedAfterCutoff, publishedAt, twoYearsBefore.
    split; [intros (i & Hi & t & Ht & Hlt)|intros (i & t & Hi & Ht & Hlt)]; eauto 10.
  - apply filterRecent_sublist.
  - apply sortBy_perm.
  - apply (sortBy_sorted _ (λ g, ∃ t, publishedAt dateParse g t)).
    + apply notOlderThan_trans.
    + apply comparePublished_le.
    + apply comparePublished_gt.
    + apply filterRecent_dated.
  - intros t. apply (sortBy_filter_key _ (λ g, dateParse (group_publishedOn g))).
    apply comparePublished_same_date.
  - by vm_compute.
  - by vm_compute.
  - by vm_compute.
Qed.
End RecentGroups.

(** C6, refuted as stated: a group whose [publishedOn] is next month is
    retained, although that date does not lie within the last 2 years. *)
Lemma future_group_is_retained :
  recentGroupsOf UTCHost.dateParse UTCHost.getFullYear UTCHost.setFullYear
    (Sample.environment [Sample.nextMonthGroup]) [Sample.nextMonthGroup]
  = [Sample.nextMonthGroup]
  ∧ ¬ publishedWithinLastTwoYears UTCHost.dateParse UTCHost.getFullYear UTCHost.setFullYear
        Sample.now Sample.nextMonthGroup
  ∧ ¬ retainsExactlyLastTwoYears UTCHost.dateParse UTCHost.getFullYear UTCHost.setFullYear
        (Sample.environment [Sample.nextMonthGroup]) [Sample.nextMonthGroup].
Proof.
  assert (Hnot : ¬ publishedWithinLastTwoYears UTCHost.dateParse
                     UTCHost.getFullYear UTCHost.setFullYear Sample.now Sample.nextMonthGroup).
  { intros (t & Ht & _ & Hle). vm_compute in Ht. injection Ht as <-.
    by vm_compute in Hle. }
  split_and!; [by vm_compute|done|].
  intros H. apply Hnot.
  apply (H Sample.nextMonthGroup). vm_compute. left.
Qed.

(** ** The fuzzy search *)

Section SearchFacts.
Variable dateParse : jsstring → option Z.
Variable getFullYear : Z → Z.
Variable setFullYear : Z → Z → Z.
Variable fuseScore : jsstring → ProductWithPrice → option Q.

Lemma fuseMatches_results pattern idx docs :
  Forall (resultOf fuseScore pattern docs) (fuseMatches fuseScore pattern idx docs).
Proof.
  revert idx. induction docs as [|doc docs IH]; intros idx; simpl; [constructor|].
  assert (Hweak : ∀ i, Forall (resultOf fuseScore pattern (doc :: docs))
                         (fuseMatches fuseScore pattern i docs)).
  { intros i. eapply Forall_impl; [apply IH|].
    intros r [Hin Hs]. split; [by apply list_elem_of_further|done]. }
  destruct (fuseScore pattern doc) as [sc|] eqn:E; [|apply Hweak].
  constructor; [|apply Hweak]. split; [apply list_elem_of_here|done].
Qed.

Lemma fuseSortFn_le a b : fuseSortFn a b ≤ 0 → (score a <= score b)%Q.
Proof.
  unfold fuseSortFn. destruct (score a ?= score b)%Q eqn:E.
  - intros _. apply Qeq_alt in E. rewrite E. apply Qle_refl.
  - intros _. apply Qlt_alt in E. by apply Qlt_le_weak.
  - lia.
Qed.

Lemma fuseSortFn_gt a b : 0 < fuseSortFn a b → (score b <= score a)%Q.
Proof.
  unfold fuseSortFn. destruct (score a ?= score b)%Q eqn:E.
  - intros _. apply Qeq_alt in E. rewrite E. apply Qle_refl.
  - lia.
  - intros _. apply Qgt_alt in E. by apply Qlt_le_weak.
Qed.

Lemma fuseSearch_results f pattern limit :
  Forall (resultOf fuseScore pattern (fuse_docs f)) (fuseSearch fuseScore f pattern limit)
  ∧ StronglySorted (λ a b, (score a <= score b)%Q)
      (fuseSearch fuseScore f pattern limit)
  ∧ (0 ≤ limit →
       Z.of_nat (length (fuseSearch fuseScore f pattern limit)) ≤ limit).
Proof.
  unfold fuseSearch.
  set (matches := fuseMatches fuseScore pattern 0 (fuse_docs f)).
  assert (Hall : Forall (resultOf fuseScore pattern (fuse_docs f)) (sortBy fuseSortFn matches))
    by apply sortBy_Forall, fuseMatches_results.
  assert (Hsorted : StronglySorted (λ a b, (score a <= score b)%Q)
                      (sortBy fuseSortFn matches)).
  { apply (sortBy_sorted _ (λ _, True)); [|auto using fuseSortFn_le..| ].
    - intros a b c. apply Qle_trans.
    - auto using fuseSortFn_gt.
    - by apply Forall_true. }
  destruct (Z.ltb_spec (-1) limit) as [Hlim|Hlim].
  - split_and!.
    + by apply Forall_take.
    + rewrite <- (take_drop (Z.to_nat limit) (sortBy fuseSortFn matches)) in Hsorted.
      by apply StronglySorted_app_1_l in Hsorted.
    + intros _. rewrite length_take. lia.
  - split_and!; [done..|lia].
Qed.

Lemma item_sorted pattern docs results :
  Forall (resultOf fuseScore pattern docs) results →
  StronglySorted (λ a b, (score a <= score b)%Q) results →
  StronglySorted (scoredNotAbove fuseScore pattern) (item <$> results).
Proof.
  induction 1 as [|r results [_ Hr] Hall IH]; intros Hs; [constructor|].
  apply StronglySorted_cons in Hs as [Hle Hs].
  rewrite fmap_cons. apply StronglySorted_cons. split; [|by apply IH].
  apply Forall_fmap, Forall_forall. intros r' Hin. simpl.
  exists (score r), (score r'). split_and!; [done| |].
  - rewrite Forall_forall in Hall. by destruct (Hall r' Hin).
  - rewrite Forall_forall in Hle. by apply Hle.
Qed.

Lemma initialize_indexCurrent env forceRefresh s :
  indexCurrent s →
  indexCurrent (finalState (initialize dateParse getFullYear setFullYear env forceRefresh s)).
Proof.
  intros Hs. unfold initialize.
  destruct (negb forceRefresh && _ && _); [done|].
  destruct (fetchGroups env) as [groups|e]; [|done].
  match goal with |- context [foldl ?g ?a ?l] => destruct (foldl g a l) as [s1 tr1] end.
  unfold finalState, indexCurrent. simpl. by intros f [= <-].
Qed.

Lemma reachable_indexCurrent s :
  Reachable dateParse getFullYear setFullYear fuseScore s → indexCurrent s.
Proof.
  induction 1 as [|env force s _ IH|query limit s _ IH].
  - by intros f.
  - by apply initialize_indexCurrent.
  - unfold searchProducts. by destruct (fuse s).
Qed.

(** The items of the matches are the matching documents, in the order of
    the collection. *)
Lemma fuseMatches_items pattern idx docs :
  item <$> fuseMatches fuseScore pattern idx docs
  = filter (λ doc, is_Some (fuseScore pattern doc)) docs.
Proof.
  revert idx. induction docs as [|doc docs IH]; intros idx; simpl; [done|].
  rewrite filter_cons. destruct (fuseScore pattern doc) as [sc|] eqn:E.
  - rewrite decide_True by done. rewrite fmap_cons. simpl. by rewrite IH.
  - rewrite decide_False by (by intros [? ?]). apply IH.
Qed.

Lemma StronglySorted_app_cross {A} (R : A → A → Prop) (l k : list A) a b :
  StronglySorted R (l ++ k) → a ∈ l → b ∈ k → R a b.
Proof.
  induction l as [|x l IH]; [by intros _ ?%elem_of_nil|].
  cbn [app]. intros [Hx Hs]%StronglySorted_cons [->|Ha]%elem_of_cons Hb.
  - rewrite Forall_forall in Hx. apply Hx, elem_of_app. by right.
  - by apply IH.
Qed.

(** An unlimited search, and a search cut to [n] results. *)
Lemma fuseSearch_take f pattern (n : nat) :
  fuseSearch fuseScore f pattern (Z.of_nat n)
  = take n (fuseSearch fuseScore f pattern (-1)).
Proof.
  unfold fuseSearch. destruct (Z.ltb_spec (-1) (Z.of_nat n)); [|lia].
  by rewrite Nat2Z.id.
Qed.

Lemma fuseSearch_all_items f pattern :
  item <$> fuseSearch fuseScore f pattern (-1)
  ≡ₚ filter (λ doc, is_Some (fuseScore pattern doc)) (fuse_docs f).
Proof.
  unfold fuseSearch. cbn [Z.ltb Z.compare].
  rewrite <- (fuseMatches_items pattern 0 (fuse_docs f)).
  apply fmap_Permutation, sortBy_perm.
Qed.

(** C7. For every built snapshot, every query and every limit [n] (a count
    of items), [searchProducts] returns the [n] best matches, best match
    first: at most [n] items, all of them elements of the snapshot's
    collection, with scores for the cleaned query that do not decrease
    along the list; together with the matches left out they are all the
    matching products of the collection; no match left out has a better
    score than a returned one; and a match is left out only when [n] items
    are returned. *)
Theorem searchProducts_limit_order_members (s : TCGPlayerService)
    (query : jsstring) (n : nat) :
  Reachable dateParse getFullYear setFullYear fuseScore s →
  fuse s ≠ None →
  ∃ results leftOut,
    searchProducts fuseScore query (Z.of_nat n) s = (Return results, s, [])
    ∧ (length results ≤ n)%nat
    ∧ StronglySorted (scoredNotAbove fuseScore (cleanQuery query)) results
    ∧ (∀ p, p ∈ results → p ∈ allProductsWithPrices s)
    ∧ results ++ leftOut
      ≡ₚ filter (λ doc, is_Some (fuseScore (cleanQuery query) doc))
           (allProductsWithPrices s)
    ∧ (∀ a b, a ∈ results → b ∈ leftOut →
              scoredNotAbove fuseScore (cleanQuery query) a b)
    ∧ (leftOut ≠ [] → length results = n).
Proof.
  intros Hreach Hbuilt. apply reachable_indexCurrent in Hreach.
  unfold searchProducts. destruct (fuse s) as [f|] eqn:Hf; [|done].
  specialize (Hreach f Hf).
  destruct (fuseSearch_results f (cleanQuery query) (-1)) as (Hall & Hsorted & _).
  pose proof (fuseSearch_all_items f (cleanQuery query)) as Hperm.
  rewrite fuseSearch_take.
  set (ranked := fuseSearch fuseScore f (cleanQuery query) (-1)) in *.
  rewrite <- (take_drop n ranked) in Hall, Hsorted, Hperm.
  apply Forall_app in Hall as [Htake Hdrop].
  exists (item <$> take n ranked), (item <$> drop n ranked).
  split_and!; [done| | | | | |].
  - rewrite length_fmap, length_take. lia.
  - eapply item_sorted; [done|]. by apply StronglySorted_app_1_l in Hsorted.
  - intros p (r & -> & Hr)%list_elem_of_fmap. rewrite <- Hreach.
    rewrite Forall_forall in Htake. by destruct (Htake r Hr).
  - by rewrite <- Hreach, <- fmap_app.
  - intros a b (ra & -> & Ha)%list_elem_of_fmap (rb & -> & Hb)%list_elem_of_fmap.
    rewrite Forall_forall in Htake, Hdrop.
    destruct (Htake ra Ha) as [_ Hsa]. destruct (Hdrop rb Hb) as [_ Hsb].
    exists (score ra), (score rb). split_and!; [done..|].
    by apply (StronglySorted_app_cross _ _ _ ra rb Hsorted).
  - intros Hleft. rewrite length_fmap, length_take.
    destruct (decide (n < length ranked)%nat) as [?|Hge]; [lia|].
    rewrite drop_ge in Hleft by lia. done.
Qed.
End SearchFacts.

(** ** The properties on the sample catalog *)

(** A product of the sample catalog whose only price record has no value. *)
Lemma formatPrice_all_null_empty_witness :
  formatPrice UTCHost.toFixed2 Sample.journeyETBEntry = []
  ∧ formatPrice UTCHost.toFixed2 Sample.journeyETBEntry ≠ noPriceData
  ∧ (∀ q, formatPrice UTCHost.toFixed2 q = noPriceData → prices q = []).
Proof.
  apply (formatPrice_all_null_empty UTCHost.toFixed2 Sample.journeyETBEntry
           (Sample.price 401 "Sealed" None None None None)).
  - discriminate.
  - right. split; [|reflexivity].
    constructor; [|constructor]. unfold taggedNormal. vm_compute. discriminate.
  - reflexivity.
  - reflexivity.
  - reflexivity.
  - reflexivity.
Defined.

Example formatPrice_normal_preferred :
  formatPrice UTCHost.toFixed2 Sample.sparksETBEntry
  = str "Market: $55.12 | Low: $49.99 | High: $70.00".
Proof. by vm_compute. Qed.

(** A query on the service before its start-up call. *)
Lemma searchProducts_not_initialized_witness :
  fuse newService = None
  ∧ searchProducts UTCHost.fuseScore (str "etb") 5 newService
    = (Return [], newService, [ConsoleWarn (str "Product data not initialized")]).
Proof.
  split; [reflexivity|].
  apply (searchProducts_not_initialized UTCHost.dateParse UTCHost.getFullYear UTCHost.setFullYear
           UTCHost.fuseScore newService (str "etb") 5).
  reflexivity.
Defined.

Lemma startedService_hasSnapshot : hasSnapshot Sample.startedService.
Proof. unfold hasSnapshot. vm_compute. discriminate. Defined.

(** C1, refuted as stated: six hours after the build a query on the
    started service leaves the service as it is and requests nothing. *)
Lemma query_after_window_starts_no_rebuild :
  hasSnapshot Sample.startedService
  ∧ lastFetchTime Sample.startedService + cacheValidityMs Sample.startedService
    ≤ Sample.now + 21600000
  ∧ events (searchProducts UTCHost.fuseScore (str "surging sparks") 5
              Sample.startedService) = []
  ∧ ¬ queryRebuildsWhenStale UTCHost.fuseScore Sample.startedService
        (Sample.now + 21600000) (str "surging sparks") 5.
Proof.
  split_and!.
  - apply startedService_hasSnapshot.
  - by vm_compute.
  - by vm_compute.
  - intros [_ H]. apply searchProducts_no_rebuild in H; [done|]. by vm_compute.
Qed.

(** The started service, one hour after its build. *)
Lemma freshness_is_tested_by_initialize_witness :
  (finalState (searchProducts UTCHost.fuseScore (str "surging sparks") 5
                 Sample.startedService) = Sample.startedService
   ∧ ¬ rebuildStarted (events (searchProducts UTCHost.fuseScore
                                 (str "surging sparks") 5 Sample.startedService)))
  ∧ (dateNow Sample.oneHourLater
     < lastFetchTime Sample.startedService + cacheValidityMs Sample.startedService →
       finalState (initialize UTCHost.dateParse UTCHost.getFullYear UTCHost.setFullYear
                     Sample.oneHourLater false Sample.startedService)
       = Sample.startedService
       ∧ ¬ rebuildStarted
             (events (initialize UTCHost.dateParse UTCHost.getFullYear UTCHost.setFullYear
                        Sample.oneHourLater false Sample.startedService)))
  ∧ (lastFetchTime Sample.startedService + cacheValidityMs Sample.startedService
     ≤ dateNow Sample.oneHourLater →
       rebuildStarted
         (events (initialize UTCHost.dateParse UTCHost.getFullYear UTCHost.setFullYear
                    Sample.oneHourLater false Sample.startedService)))
  ∧ cacheValidityMs newService = 6 * 60 * 60 * 1000.
Proof.
  apply (freshness_is_tested_by_initialize UTCHost.dateParse UTCHost.getFullYear UTCHost.setFullYear
           UTCHost.fuseScore Sample.oneHourLater Sample.startedService
           (str "surging sparks") 5).
  unfold hasSnapshot. vm_compute. discriminate.
Defined.

(** The start-up call on the catalog with one failing group. *)
Lemma rebuild_skips_failed_group_witness :
  ∃ s' tr entries,
    initialize UTCHost.dateParse UTCHost.getFullYear UTCHost.setFullYear
      (Sample.environment Sample.outageGroups) false newService
    = (Return (), s', tr)
    ∧ Forall2 (fetchedEntries (Sample.environment Sample.outageGroups))
        ([Sample.lastMonthGroup] ++ [Sample.springGroup]) entries
    ∧ allProductsWithPrices s' = concat entries
    ∧ fuse s' = Some {| fuse_docs := allProductsWithPrices s' |}
    ∧ errorLogged tr Sample.summerGroup.
Proof.
  apply (rebuild_skips_failed_group UTCHost.dateParse UTCHost.getFullYear UTCHost.setFullYear
           (Sample.environment Sample.outageGroups) false newService
           Sample.outageGroups [Sample.lastMonthGroup] [Sample.springGroup]
           Sample.summerGroup).
  - right. left. reflexivity.
  - reflexivity.
  - vm_compute. reflexivity.
  - left. intros products. vm_compute. discriminate.
  - constructor; [|constructor; [|constructor]].
    + eexists _, _, _. split; [reflexivity|]. split; reflexivity.
    + eexists _, _, _. split; [reflexivity|]. split; reflexivity.
Defined.

(** A query with limit 1 on the started service: two products match, the
    better one is returned. *)
Lemma searchProducts_limit_order_members_witness :
  ∃ results leftOut,
    searchProducts UTCHost.fuseScore (str "PTCG: surging sparks") (Z.of_nat 1)
      Sample.startedService
    = (Return results, Sample.startedService, [])
    ∧ (length results ≤ 1)%nat
    ∧ StronglySorted
        (scoredNotAbove UTCHost.fuseScore (cleanQuery (str "PTCG: surging sparks")))
        results
    ∧ (∀ p, p ∈ results → p ∈ allProductsWithPrices Sample.startedService)
    ∧ results ++ leftOut
      ≡ₚ filter (λ doc, is_Some (UTCHost.fuseScore
                                   (cleanQuery (str "PTCG: surging sparks")) doc))
           (allProductsWithPrices Sample.startedService)
    ∧ (∀ a b, a ∈ results → b ∈ leftOut →
              scoredNotAbove UTCHost.fuseScore
                (cleanQuery (str "PTCG: surging sparks")) a b)
    ∧ (leftOut ≠ [] → length results = 1%nat).
Proof.
  apply (searchProducts_limit_order_members UTCHost.dateParse UTCHost.getFullYear
           UTCHost.setFullYear UTCHost.fuseScore Sample.startedService
           (str "PTCG: surging sparks") 1).
  - apply (reach_initialize _ _ _ _ (Sample.environment Sample.outageGroups)
             false newService).
    apply reach_new.
  - vm_compute. discriminate.
Defined.

Example searchProducts_started_values :
  completion (searchProducts UTCHost.fuseScore (str "PTCG: surging sparks") 1
                Sample.startedService)
  = Return [Sample.sparksETBEntry]
  ∧ allProductsWithPrices Sample.startedService
    = [Sample.sparksETBEntry;
       {| pwp_product := Sample.sparksBox;
          prices := [Sample.price 102 "Normal" (Some (13999 # 100))
                       (Some (150 # 1)) (Some (200 # 1)) (Some (14550 # 100))];
          groupName := str "Surging Sparks" |};
       Sample.journeyETBEntry].
Proof. split; by vm_compute. Qed.

(** ** The normalizer applied twice *)

(** C3, refuted as stated: of two stacked prefixes one pass strips only the
    first, the second pass strips the other. *)
Lemma cleanProductName_not_idempotent :
  cleanProductName (str "PTCG: PTCG: x") = str "PTCG: x"
  ∧ cleanProductName (cleanProductName (str "PTCG: PTCG: x")) = str "x"
  ∧ ¬ cleanProductNameIdempotent.
Proof.
  split_and!; [by vm_compute..|].
  intros H. specialize (H (str "PTCG: PTCG: x")). by vm_compute in H.
Qed.

(** The tests on characters are comparisons of code units: turned into
    propositions, linear arithmetic settles them. *)
Ltac char_tests :=
  rewrite ?orb_true_iff, ?andb_true_iff, ?andb_false_iff, ?negb_true_iff,
    ?negb_false_iff, ?N.leb_le, ?N.leb_gt, ?N.eqb_eq, ?N.eqb_neq in *;
  lia.

Lemma wordChar_not_whiteSpace c : isWordChar c = true → isWhiteSpace c = false.
Proof.
  unfold isWordChar, isWhiteSpace. intros H. apply not_true_is_false.
  char_tests.
Qed.


(** *** The whole-word replacement, word by word *)

Lemma charEqCI_wordChar p c :
  charEqCI p c = true → isWordChar p = true → isWordChar c = true.
Proof.
  unfold charEqCI, canonicalize, isWordChar. intros H Hp.
  apply N.eqb_eq in H. repeat case_match; char_tests.
Qed.

Lemma eqCI_length pat s : eqCI pat s = true → length pat = length s.
Proof.
  revert s. induction pat as [|p pat IH]; intros [|c s]; simpl; try done.
  intros [_ H]%andb_prop. f_equal. by apply IH.
Qed.

Lemma span_word s :
  ∃ u rest, s = u ++ rest ∧ wordy u ∧ atWordEnd rest.
Proof.
  induction s as [|c s (u & rest & -> & Hu & Hrest)].
  - exists [], []. split_and!; [done|constructor|done].
  - destruct (isWordChar c) eqn:E.
    + exists (c :: u), rest. split_and!; [done|by constructor|done].
    + exists [], (c :: u ++ rest). split_and!; [done|constructor|].
      unfold atWordEnd. simpl. exact E.
Qed.

Section WholeWord.
Variables abbrev full : jsstring.
Hypothesis abbrev_nonempty : abbrev ≠ [].
Hypothesis abbrev_wordy : wordy abbrev.

(** After a word character has been matched, the rest of the pattern
    matches up to the closing boundary exactly when it spells the rest of
    the word. *)
Lemma matchesToBoundary_word pat prev u rest :
  wordy pat → wordy u → atWordEnd rest → isWordAt prev = true →
  matchesToBoundary pat prev (u ++ rest) = eqCI pat u.
Proof.
  intros Hpat Hu Hrest. revert prev u Hu.
  induction Hpat as [|p pat Hp _ IH]; intros prev u Hu Hprev; simpl.
  - unfold wordBoundary. rewrite Hprev.
    destruct Hu as [|c u Hc _]; simpl; [by rewrite Hrest|by rewrite Hc].
  - destruct Hu as [|c u Hc Hu]; simpl.
    + destruct rest as [|d rest]; [done|].
      destruct (charEqCI p d) eqn:E; [|done].
      apply charEqCI_wordChar in E; [|done].
      unfold atWordEnd in Hrest. simpl in Hrest. congruence.
    + by rewrite IH.
Qed.

Lemma matchesWholeWord_start prev u rest :
  isWordAt prev = false → u ≠ [] → wordy u → atWordEnd rest →
  matchesWholeWord abbrev prev (u ++ rest) = eqCI abbrev u.
Proof.
  intros Hprev Hne Hu Hrest. unfold matchesWholeWord, wordBoundary.
  destruct Hu as [|c u Hc Hu]; [done|]. rewrite Hprev. simpl. rewrite Hc. simpl.
  destruct abbrev_wordy as [|p pat Hp Hpat]; [done|]. simpl.
  by rewrite (matchesToBoundary_word pat (Some c) u rest).
Qed.

Lemma matchesWholeWord_inside prev c r :
  isWordAt prev = true → isWordChar c = true →
  matchesWholeWord abbrev prev (c :: r) = false.
Proof.
  intros Hprev Hc. unfold matchesWholeWord, wordBoundary. simpl.
  by rewrite Hprev, Hc.
Qed.

Lemma matchesWholeWord_nonword prev d r :
  isWordChar d = false → matchesWholeWord abbrev prev (d :: r) = false.
Proof.
  intros Hd. unfold matchesWholeWord.
  destruct abbrev_wordy as [|p pat Hp Hpat]; [done|]. simpl.
  destruct (charEqCI p d) eqn:E; [|by rewrite andb_false_r].
  apply charEqCI_wordChar in E; [congruence|done].
Qed.

Lemma lastOr_cons prev c v : lastOr prev (c :: v) = lastOr (Some c) v.
Proof.
  unfold lastOr. rewrite last_cons. by destruct (last v).
Qed.

Lemma replaceWholeWordFrom_skip prev v t :
  replaceWholeWordFrom abbrev full prev (length v) (v ++ t)
  = replaceWholeWordFrom abbrev full (lastOr prev v) 0 t.
Proof.
  revert prev. induction v as [|c v IH]; intros prev; [done|].
  simpl. by rewrite IH, lastOr_cons.
Qed.

Lemma replaceWholeWordFrom_inside prev v t :
  isWordAt prev = true → wordy v →
  replaceWholeWordFrom abbrev full prev 0 (v ++ t)
  = v ++ replaceWholeWordFrom abbrev full (lastOr prev v) 0 t.
Proof.
  intros Hprev Hv. revert prev Hprev.
  induction Hv as [|c v Hc _ IH]; intros prev Hprev; [done|].
  cbn [app replaceWholeWordFrom].
  rewrite matchesWholeWord_inside by done. rewrite IH by done.
  by rewrite lastOr_cons.
Qed.

Lemma replaceWholeWordFrom_nonword prev d r :
  isWordChar d = false →
  replaceWholeWordFrom abbrev full prev 0 (d :: r)
  = d :: replaceWholeWordFrom abbrev full (Some d) 0 r.
Proof.
  intros Hd. cbn [replaceWholeWordFrom].
  by rewrite matchesWholeWord_nonword.
Qed.

Lemma replaceWordFrom_word w u rest :
  wordy u →
  replaceWordFrom abbrev full w (u ++ rest)
  = replaceWordFrom abbrev full (w ++ u) rest.
Proof.
  intros Hu. revert w. induction Hu as [|c u Hc _ IH]; intros w; simpl.
  - by rewrite app_nil_r.
  - by rewrite Hc, IH, <- app_assoc.
Qed.

(** The scan of the regular expression and the word-by-word reading give
    the same text. *)
Lemma replaceWholeWordFrom_runs s prev :
  isWordAt prev = false →
  replaceWholeWordFrom abbrev full prev 0 s = replaceWordFrom abbrev full [] s.
Proof.
  remember (length s) as n eqn:Hn. revert s prev Hn.
  induction n as [n IH] using lt_wf_ind. intros s prev Hn Hprev.
  destruct s as [|c s]; [simpl; unfold expandWord; by destruct abbrev|].
  destruct (isWordChar c) eqn:Hc.
  - destruct (span_word s) as (u & rest & -> & Hu & Hrest).
    assert (Hcu : wordy (c :: u)) by by constructor.
    assert (Hlast : isWordAt (lastOr (Some c) u) = true).
    { unfold lastOr. destruct (last u) as [d|] eqn:Hl; simpl; [|done].
      apply last_Some_elem_of in Hl. unfold wordy in Hu.
      rewrite Forall_forall in Hu. by apply Hu. }
    assert (Hrun : replaceWordFrom abbrev full [] (c :: u ++ rest)
                   = expandWord abbrev full (c :: u)
                       ++ match rest with
                          | [] => []
                          | d :: r => d :: replaceWordFrom abbrev full [] r
                          end).
    { change (c :: u ++ rest) with ((c :: u) ++ rest).
      rewrite (replaceWordFrom_word [] (c :: u) rest) by done. simpl.
      destruct rest as [|d r]; simpl; [by rewrite app_nil_r|].
      unfold atWordEnd in Hrest. simpl in Hrest. by rewrite Hrest. }
    assert (Hrest' : replaceWholeWordFrom abbrev full (lastOr (Some c) u) 0 rest
                     = match rest with
                       | [] => []
                       | d :: r => d :: replaceWordFrom abbrev full [] r
                       end).
    { destruct rest as [|d r]; [done|].
      unfold atWordEnd in Hrest. simpl in Hrest.
      rewrite replaceWholeWordFrom_nonword by done. f_equal.
      apply (IH (length r)); [|done|done].
      subst n. simpl. rewrite length_app. simpl. lia. }
    rewrite Hrun. cbn [replaceWholeWordFrom].
    change (c :: u ++ rest) with ((c :: u) ++ rest).
    rewrite (matchesWholeWord_start prev (c :: u) rest) by done.
    unfold expandWord. destruct (eqCI abbrev (c :: u)) eqn:E.
    + apply eqCI_length in E. rewrite E. simpl. rewrite Nat.sub_0_r.
      by rewrite replaceWholeWordFrom_skip, Hrest'.
    + rewrite replaceWholeWordFrom_inside by done. by rewrite Hrest'.
  - rewrite replaceWholeWordFrom_nonword by done. simpl. rewrite Hc.
    unfold expandWord at 1. destruct abbrev; [done|]. simpl. f_equal.
    apply (IH (length s)); [subst n; simpl; lia|done|done].
Qed.

Lemma replaceWholeWord_runs s :
  replaceWholeWord abbrev full s = replaceWord abbrev full s.
Proof. by apply replaceWholeWordFrom_runs. Qed.
End WholeWord.

Section Chunks.
Variables abbrev full : jsstring.
Hypothesis abbrev_nonempty : abbrev ≠ [].

Lemma expandWord_nil : expandWord abbrev full [] = [].
Proof. unfold expandWord. by destruct abbrev. Qed.

Lemma flushWord_text w : concat (chunkText <$> flushWord w) = w.
Proof. destruct w; simpl; [done|]. by rewrite app_nil_r. Qed.

Lemma flushWord_expand w :
  concat (expandChunk abbrev full <$> flushWord w) = expandWord abbrev full w.
Proof.
  destruct w; simpl; [by rewrite expandWord_nil|]. by rewrite app_nil_r.
Qed.

Lemma chunksFrom_text w s : concat (chunkText <$> chunksFrom w s) = w ++ s.
Proof.
  revert w. induction s as [|c r IH]; intros w; simpl.
  - by rewrite flushWord_text, app_nil_r.
  - destruct (isWordChar c).
    + by rewrite IH, <- app_assoc.
    + rewrite fmap_app, concat_app, flushWord_text, fmap_cons. simpl.
      by rewrite IH.
Qed.

Lemma chunks_text s : concat (chunkText <$> chunks s) = s.
Proof. apply (chunksFrom_text []). Qed.

Lemma flushWord_ok w :
  Forall (λ c, isWordChar c = true) w → Forall chunkOK (flushWord w).
Proof.
  intros H. destruct w as [|c w]; simpl; [constructor|].
  apply Forall_cons_2; [by split|apply Forall_nil_2].
Qed.

Lemma chunksFrom_ok w s :
  Forall (λ c, isWordChar c = true) w → Forall chunkOK (chunksFrom w s).
Proof.
  revert w. induction s as [|c r IH]; intros w Hw; simpl.
  - by apply flushWord_ok.
  - destruct (isWordChar c) eqn:E.
    + apply IH, Forall_app. split; [done|by repeat constructor].
    + apply Forall_app. split; [by apply flushWord_ok|].
      constructor; [done|]. by apply IH.
Qed.

Lemma chunks_ok s : Forall chunkOK (chunks s).
Proof. by apply chunksFrom_ok. Qed.

(** The scan of [replaceWord] writes the chunks of its input, each word
    expanded. *)
Lemma replaceWordFrom_chunks w s :
  replaceWordFrom abbrev full w s
  = concat (expandChunk abbrev full <$> chunksFrom w s).
Proof.
  revert w. induction s as [|c r IH]; intros w; simpl.
  - by rewrite flushWord_expand.
  - destruct (isWordChar c); [apply IH|].
    rewrite fmap_app, concat_app, flushWord_expand, fmap_cons. simpl.
    by rewrite IH.
Qed.

Lemma replaceWord_chunks s :
  replaceWord abbrev full s = concat (expandChunk abbrev full <$> chunks s).
Proof. apply replaceWordFrom_chunks. Qed.

(** A string without a word equal to [abbrev] is left as it is. *)
Lemma replaceWord_notAbbrev s :
  Forall (notAbbrev abbrev) (chunks s) → replaceWord abbrev full s = s.
Proof.
  intros H. rewrite replaceWord_chunks. rewrite <- (chunks_text s) at 2.
  f_equal. apply Forall_fmap_ext_1. eapply Forall_impl; [exact H|].
  intros [w|c]; simpl; [|done]. unfold expandWord. by intros ->.
Qed.

(** The chunks of a text cut at a separator. *)
Lemma chunksFrom_sep acc u c v :
  isWordChar c = false →
  chunksFrom acc (u ++ c :: v) = chunksFrom acc u ++ Sep c :: chunks v.
Proof.
  intros Hc. revert acc. induction u as [|d u IH]; intros acc; simpl.
  - by rewrite Hc.
  - destruct (isWordChar d); [apply IH|].
    by rewrite IH, <- app_assoc.
Qed.

Lemma chunksFrom_word acc w :
  Forall (λ c, isWordChar c = true) w → chunksFrom acc w = flushWord (acc ++ w).
Proof.
  intros H. revert acc. induction H as [|c w Hc _ IH]; intros acc; simpl.
  - by rewrite app_nil_r.
  - by rewrite Hc, IH, <- app_assoc.
Qed.

Lemma chunks_word w :
  w ≠ [] → Forall (λ c, isWordChar c = true) w → chunks w = [Word w].
Proof.
  intros Hne H. unfold chunks. rewrite chunksFrom_word by done.
  by destruct w.
Qed.

(** The chunks of the output, from the chunks of the input. *)
Lemma chunks_replaceWordFrom w s :
  chunks (replaceWordFrom abbrev full w s)
  = concat ((λ ch, chunks (expandChunk abbrev full ch)) <$> chunksFrom w s).
Proof.
  assert (Hflush : ∀ w, concat ((λ ch, chunks (expandChunk abbrev full ch))
                                  <$> flushWord w)
                        = chunks (expandWord abbrev full w)).
  { intros [|c v]; simpl; [by rewrite expandWord_nil|]. by rewrite app_nil_r. }
  revert w. induction s as [|c r IH]; intros w; simpl.
  - by rewrite Hflush.
  - destruct (isWordChar c) eqn:E; [apply IH|].
    unfold chunks at 1. rewrite chunksFrom_sep by done.
    rewrite fmap_app, concat_app, Hflush, fmap_cons. simpl.
    rewrite IH. unfold chunks at 3. simpl. by rewrite E.
Qed.

Lemma chunks_replaceWord s :
  chunks (replaceWord abbrev full s)
  = concat ((λ ch, chunks (expandChunk abbrev full ch)) <$> chunks s).
Proof. apply chunks_replaceWordFrom. Qed.

Lemma replaceWord_Forall (P : N → Prop) s :
  Forall P full → Forall P s → Forall P (replaceWord abbrev full s).
Proof.
  intros Hfull Hs. rewrite replaceWord_chunks.
  rewrite <- (chunks_text s) in Hs.
  induction (chunks s) as [|ch cs IH]; simpl in *; [done|].
  apply Forall_app in Hs as [Hch Hs]. apply Forall_app. split; [|by apply IH].
  destruct ch as [w|c]; simpl in *; [|done].
  unfold expandWord. by destruct (eqCI abbrev w).
Qed.
End Chunks.

(** *** White space in normal form *)

Lemma tidyFrom_collapse b s : tidyFrom b s = true → collapseFrom b s = s.
Proof.
  revert b. induction s as [|c r IH]; intros b; simpl; [done|].
  destruct (isWhiteSpace c).
  - destruct b; simpl; [done|].
    intros [Hc Hr]%andb_prop. apply N.eqb_eq in Hc as ->. by rewrite IH.
  - intros H. by rewrite IH.
Qed.

Lemma tidyFrom_weaken b s : tidyFrom b s = true → tidyFrom false s = true.
Proof.
  destruct s as [|c r]; simpl; [done|].
  destruct (isWhiteSpace c); [|done]. by destruct b.
Qed.

Lemma collapseFrom_tidy b s : tidyFrom b (collapseFrom b s) = true.
Proof.
  revert b. induction s as [|c r IH]; intros b; simpl; [done|].
  destruct (isWhiteSpace c) eqn:E.
  - destruct b; [apply IH|]. simpl. apply IH.
  - simpl. rewrite E. apply IH.
Qed.

Lemma dropWhile_tidy s : tidyFrom true s = true → dropWhile isWhiteSpace s = s.
Proof. destruct s as [|c r]; simpl; [done|]. by destruct (isWhiteSpace c). Qed.

Lemma trimStart_tidy s : tidyFrom false s = true → tidyFrom true (trimStart s) = true.
Proof.
  unfold trimStart. destruct s as [|c r]; simpl; [done|].
  destruct (isWhiteSpace c) eqn:E; simpl.
  - intros [_ Hr]%andb_prop. by rewrite dropWhile_tidy.
  - by rewrite E.
Qed.

Lemma tidyFrom_prefix b p q : tidyFrom b (p ++ q) = true → tidyFrom b p = true.
Proof.
  revert b. induction p as [|c p IH]; intros b; simpl; [done|].
  destruct (isWhiteSpace c); [|apply IH].
  intros [H Hr]%andb_prop. rewrite H. simpl. by eapply IH.
Qed.

Lemma dropWhile_head {A} (f : A → bool) l :
  match dropWhile f l with x :: _ => f x = false | [] => True end.
Proof.
  induction l as [|x l IH]; simpl; [done|].
  by destruct (f x) eqn:E; [|simpl].
Qed.

Lemma trimEnd_prefix s : trimEnd s `prefix_of` s.
Proof.
  unfold trimEnd, trimStart.
  destruct (dropWhile_suffix isWhiteSpace (reverse s)) as [k Hk].
  exists (reverse k). apply (inj reverse).
  by rewrite reverse_app, !reverse_involutive.
Qed.

Lemma trimEnd_endsClean s : endsClean (trimEnd s).
Proof.
  unfold endsClean, trimEnd, trimStart. rewrite reverse_involutive.
  apply dropWhile_head.
Qed.

(** The raw cleanup leaves white space in normal form, and text in normal
    form is a fixed point of the collapse and of [trim]. *)
Lemma trim_collapse_tidy s : tidy (trim (collapseWhiteSpace s)).
Proof.
  unfold trim, collapseWhiteSpace. split; [|apply trimEnd_endsClean].
  destruct (trimEnd_prefix (trimStart (collapseFrom false s))) as [k Hk].
  eapply tidyFrom_prefix. rewrite <- Hk.
  apply trimStart_tidy, collapseFrom_tidy.
Qed.

Lemma tidy_collapse s : tidy s → collapseWhiteSpace s = s.
Proof.
  intros [H _]. by apply tidyFrom_collapse, (tidyFrom_weaken true).
Qed.

Lemma tidy_trim s : tidy s → trim s = s.
Proof.
  intros [H He]. unfold trim, trimStart. rewrite dropWhile_tidy by done.
  unfold trimEnd, trimStart. unfold endsClean in He.
  destruct (reverse s) as [|c r] eqn:E.
  - simpl. apply (inj reverse). by rewrite reverse_involutive.
  - simpl. rewrite He, <- E. apply reverse_involutive.
Qed.

Lemma endsClean_app u p : p ≠ [] → endsClean (u ++ p) ↔ endsClean p.
Proof.
  intros Hp. unfold endsClean. rewrite reverse_app.
  destruct (reverse p) as [|c r] eqn:E; [|done].
  destruct Hp. apply (inj reverse). by rewrite E.
Qed.

Lemma solid_word w :
  w ≠ [] → Forall (λ c, isWordChar c = true) w → solid w.
Proof.
  intros Hne Hw. split_and!; [done| |].
  - unfold endsClean. destruct (reverse w) as [|c r] eqn:E; [done|].
    apply wordChar_not_whiteSpace.
    assert (Hin : c ∈ w) by (apply elem_of_reverse; rewrite E; left).
    rewrite Forall_forall in Hw. by apply Hw.
  - intros b r. revert b. induction Hw as [|c w Hc Hw IH]; intros b; [done|].
    simpl. rewrite (wordChar_not_whiteSpace _ Hc).
    destruct w as [|d w]; [done|]. by apply IH.
Qed.

Lemma solid_full_upc : solid (str "Ultra Premium Collection").
Proof. split_and!; [done|by vm_compute|]. intros b r. by cbv. Qed.

Lemma solid_full_etb : solid (str "Elite Trainer Box").
Proof. split_and!; [done|by vm_compute|]. intros b r. by cbv. Qed.

Lemma solid_full_bb : solid (str "Booster Box").
Proof. split_and!; [done|by vm_compute|]. intros b r. by cbv. Qed.

Section ExpansionKeepsNormalForm.
Variables abbrev full : jsstring.
Hypothesis abbrev_nonempty : abbrev ≠ [].
Hypothesis full_solid : solid full.

Lemma expandWord_solid w :
  w ≠ [] → Forall (λ c, isWordChar c = true) w → solid (expandWord abbrev full w).
Proof.
  intros Hne Hw. unfold expandWord.
  destruct (eqCI abbrev w); [done|by apply solid_word].
Qed.

Lemma expand_tidyFrom cs b :
  Forall chunkOK cs →
  tidyFrom b (concat (chunkText <$> cs)) = true →
  tidyFrom b (concat (expandChunk abbrev full <$> cs)) = true.
Proof.
  intros Hok. revert b. induction Hok as [|ch cs Hch _ IH]; intros b; [done|].
  rewrite !fmap_cons. cbn [concat]. destruct ch as [w|c]; simpl.
  - destruct Hch as [Hne Hw].
    destruct (solid_word w Hne Hw) as (_ & _ & ->).
    destruct (expandWord_solid w Hne Hw) as (_ & _ & ->). apply IH.
  - destruct (isWhiteSpace c); [|apply IH].
    intros [H Hr]%andb_prop. rewrite H. simpl. by apply IH.
Qed.

Lemma expand_endsClean cs :
  Forall chunkOK cs →
  endsClean (concat (chunkText <$> cs)) →
  endsClean (concat (expandChunk abbrev full <$> cs)).
Proof.
  induction cs as [|ch cs _] using rev_ind; [done|].
  intros [Hcs Hch]%Forall_app. apply Forall_cons_1 in Hch as [Hch _].
  rewrite !fmap_app, !concat_app. simpl. rewrite !app_nil_r.
  destruct ch as [w|c]; simpl in *.
  - destruct Hch as [Hne Hw].
    destruct (expandWord_solid w Hne Hw) as (Hne' & Hends & _).
    intros _. by apply endsClean_app.
  - rewrite !endsClean_app by done. done.
Qed.

Lemma replaceWord_tidy s : tidy s → tidy (replaceWord abbrev full s).
Proof.
  intros [Ht He]. rewrite replaceWord_chunks by done.
  rewrite <- (chunks_text s) in Ht, He.
  split; [apply expand_tidyFrom|apply expand_endsClean]; auto using chunks_ok.
Qed.
End ExpansionKeepsNormalForm.

(** *** The three passes together *)

Lemma abbreviations_wordy :
  Forall (λ entry : jsstring * jsstring, entry.1 ≠ [] ∧ wordy entry.1) ABBREVIATIONS.
Proof.
  unfold ABBREVIATIONS, wordy.
  repeat (apply Forall_cons_2 || apply Forall_nil_2); simpl;
    (split; [done|]); vm_compute; repeat constructor.
Qed.

Lemma expandAbbreviations_unfold s :
  expandAbbreviations s
  = replaceWord (str "bb") (str "Booster Box")
      (replaceWord (str "etb") (str "Elite Trainer Box")
         (replaceWord (str "upc") (str "Ultra Premium Collection") s)).
Proof.
  pose proof abbreviations_wordy as H. unfold ABBREVIATIONS in H.
  apply Forall_cons_1 in H as [[? ?] H2].
  apply Forall_cons_1 in H2 as [[? ?] H3].
  apply Forall_cons_1 in H3 as [[? ?] _].
  unfold expandAbbreviations, ABBREVIATIONS. cbn [foldl].
  by rewrite !replaceWholeWord_runs.
Qed.

Lemma expandAbbreviations_tidy s : tidy s → tidy (expandAbbreviations s).
Proof.
  intros H. rewrite expandAbbreviations_unfold.
  apply replaceWord_tidy; [done|apply solid_full_bb|].
  apply replaceWord_tidy; [done|apply solid_full_etb|].
  by apply replaceWord_tidy; [done|apply solid_full_upc|].
Qed.

Lemma expandAbbreviations_Forall (P : N → Prop) s :
  (∀ c, isAscii c → P c) → Forall P s → Forall P (expandAbbreviations s).
Proof.
  intros HP H. rewrite expandAbbreviations_unfold.
  assert (Hfull : ∀ t : string, Forall isAscii (str t) → Forall P (str t))
    by (intros t Ht; eapply Forall_impl; [exact Ht|exact HP]).
  repeat (apply replaceWord_Forall; [done| |]); try done;
    apply Hfull; unfold isAscii; vm_compute; repeat constructor.
Qed.

Lemma Forall_concat_fmap {A B} (P : B → Prop) (g : A → list B) (l : list A) :
  Forall (λ x, Forall P (g x)) l → Forall P (concat (g <$> l)).
Proof.
  induction 1 as [|x l Hx _ IH]; [constructor|].
  rewrite fmap_cons. cbn [concat]. by apply Forall_app.
Qed.

Lemma chunkClean_sep c : chunkClean (Sep c).
Proof. unfold chunkClean. by repeat constructor. Qed.

Lemma rechunk_sep abbrev full c :
  isWordChar c = false → rechunk abbrev full (Sep c) = [Sep c].
Proof. intros H. unfold rechunk, chunks. simpl. by rewrite H. Qed.

Lemma rechunk_word abbrev full w :
  w ≠ [] → Forall (λ c, isWordChar c = true) w →
  rechunk abbrev full (Word w)
  = if eqCI abbrev w then chunks full else [Word w].
Proof.
  intros Hne Hw. unfold rechunk. simpl. unfold expandWord.
  destruct (eqCI abbrev w); [done|by apply chunks_word].
Qed.

(** After the three passes no word is an abbreviation. *)
Lemma rechunk_all_clean ch :
  chunkOK ch →
  Forall (λ ch1,
    Forall (λ ch2,
      Forall chunkClean (rechunk (str "bb") (str "Booster Box") ch2))
      (rechunk (str "etb") (str "Elite Trainer Box") ch1))
    (rechunk (str "upc") (str "Ultra Premium Collection") ch).
Proof.
  destruct ch as [w|c]; simpl.
  - intros [Hne Hw]. rewrite rechunk_word by done.
    destruct (eqCI (str "upc") w) eqn:Eupc.
    { vm_compute chunks. repeat constructor. }
    repeat constructor. rewrite rechunk_word by done.
    destruct (eqCI (str "etb") w) eqn:Eetb.
    { vm_compute chunks. repeat constructor. }
    repeat constructor. rewrite rechunk_word by done.
    destruct (eqCI (str "bb") w) eqn:Ebb.
    { vm_compute chunks. repeat constructor. }
    repeat constructor; simpl; done.
  - intros Hc. rewrite rechunk_sep by done. repeat constructor.
    rewrite rechunk_sep by done. repeat constructor.
    rewrite rechunk_sep by done. repeat constructor.
Qed.

Lemma chunks_expandAbbreviations_clean s :
  Forall chunkClean (chunks (expandAbbreviations s)).
Proof.
  rewrite expandAbbreviations_unfold, !chunks_replaceWord by done.
  apply Forall_concat_fmap, Forall_concat_fmap, Forall_concat_fmap.
  eapply Forall_impl; [apply chunks_ok|]. apply rechunk_all_clean.
Qed.

Lemma expandAbbreviations_clean s :
  Forall chunkClean (chunks s) → expandAbbreviations s = s.
Proof.
  intros H. rewrite expandAbbreviations_unfold.
  assert (Hall : Forall (λ ch, notAbbrev (str "upc") ch
                               ∧ notAbbrev (str "etb") ch
                               ∧ notAbbrev (str "bb") ch) (chunks s)).
  { eapply Forall_impl; [exact H|]. intros ch Hch.
    unfold chunkClean, ABBREVIATIONS in Hch.
    apply Forall_cons_1 in Hch as [H1 Hch].
    apply Forall_cons_1 in Hch as [H2 Hch].
    apply Forall_cons_1 in Hch as [H3 _]. done. }
  rewrite (replaceWord_notAbbrev (str "upc")); [|done|].
  2:{ eapply Forall_impl; [exact Hall|]. by intros ch (? & ? & ?). }
  rewrite (replaceWord_notAbbrev (str "etb")); [|done|].
  2:{ eapply Forall_impl; [exact Hall|]. by intros ch (? & ? & ?). }
  rewrite (replaceWord_notAbbrev (str "bb")); [done|done|].
  eapply Forall_impl; [exact Hall|]. by intros ch (? & ? & ?).
Qed.

Lemma replaceChar_noDash s :
  Forall (λ c, c ≠ emDash) (replaceChar emDash hyphen s).
Proof.
  unfold replaceChar. apply Forall_fmap, Forall_forall. intros c _. simpl.
  destruct (N.eqb_spec c emDash); [done|done].
Qed.

Lemma replaceChar_absent s :
  Forall (λ c, c ≠ emDash) s → replaceChar emDash hyphen s = s.
Proof.
  unfold replaceChar. induction 1 as [|c s Hc _ IH]; [done|].
  rewrite fmap_cons, IH. by destruct (N.eqb_spec c emDash).
Qed.

Lemma collapseFrom_Forall (P : N → Prop) b s :
  P space → Forall P s → Forall P (collapseFrom b s).
Proof.
  intros Hsp H. revert b. induction H as [|c s Hc _ IH]; intros b; simpl; [done|].
  destruct (isWhiteSpace c); [destruct b|]; auto.
Qed.

Lemma trim_Forall (P : N → Prop) s : Forall P s → Forall P (trim s).
Proof.
  intros H. unfold trim.
  destruct (trimEnd_prefix (trimStart s)) as [k Hk].
  assert (Hs : Forall P (trimStart s))
    by (eapply Forall_suffix; [apply dropWhile_suffix|done]).
  rewrite Hk in Hs. by apply Forall_app in Hs as [? _].
Qed.

Lemma rawCleanup_noDash x : Forall (λ c, c ≠ emDash) (rawCleanup x).
Proof.
  unfold rawCleanup, collapseWhiteSpace.
  apply trim_Forall, collapseFrom_Forall; [done|apply replaceChar_noDash].
Qed.

(** C3, amended. For every input [x] whose cleaned name does not itself
    begin with one of the known prefixes (the prefix replacements leave
    [cleanProductName x] as it is),
    [cleanProductName (cleanProductName x) = cleanProductName x]. *)
Theorem cleanProductName_idempotent_without_prefix (x : jsstring) :
  stripKnownPrefixes (cleanProductName x) = cleanProductName x →
  cleanProductName (cleanProductName x) = cleanProductName x.
Proof.
  intros Hprefix. unfold cleanProductName at 1. unfold rawCleanup at 1.
  rewrite Hprefix. unfold cleanProductName.
  assert (HnoDash : Forall (λ c, c ≠ emDash) (expandAbbreviations (rawCleanup x))).
  { apply expandAbbreviations_Forall; [|apply rawCleanup_noDash].
    intros c Hc ->. by vm_compute in Hc. }
  assert (Htidy : tidy (expandAbbreviations (rawCleanup x)))
    by apply expandAbbreviations_tidy, trim_collapse_tidy.
  rewrite replaceChar_absent, tidy_collapse, tidy_trim by done.
  apply expandAbbreviations_clean, chunks_expandAbbreviations_clean.
Qed.

(** The query of the end-to-end scenario. *)
Lemma cleanProductName_idempotent_without_prefix_witness :
  cleanProductName (cleanProductName scenarioQuery) = cleanProductName scenarioQuery.
Proof.
  apply (cleanProductName_idempotent_without_prefix scenarioQuery).
  vm_compute. reflexivity.
Defined.

(** * Further properties *)

(** ** The rebuild: failure, caching, schedule, join *)

Section RebuildMore.
Variable dateParse : jsstring → option Z.
Variable getFullYear : Z → Z.
Variable setFullYear : Z → Z → Z.
Variable fuseScore : jsstring → ProductWithPrice → option Q.

Local Abbreviation initialize := (initialize dateParse getFullYear setFullYear).
Local Abbreviation searchProducts := (searchProducts fuseScore).

Lemma concat_fmap_nil {A B} (f : A → list B) (l : list A) :
  Forall (λ x, f x = []) l → concat (f <$> l) = [].
Proof.
  induction 1 as [|x l Hx _ IH]; [done|].
  rewrite fmap_cons. cbn [concat]. by rewrite Hx, IH.
Qed.

(** X1. A rebuild whose request for the group list fails throws, after the
    one request, and changes no field: the snapshot and index of before
    stay in use.  For a status that is not ok the error is
    "Failed to fetch groups: " followed by the status. *)
Theorem initialize_groups_failure (env : Environment) (forceRefresh : bool)
    (s : TCGPlayerService) :
  rebuildDue env forceRefresh s →
  (∀ groups, remoteGroups env ≠ Body groups) →
  ∃ error,
    initialize env forceRefresh s
    = (Throw error, s,
       [ConsoleLog (str "Fetching Pokemon TCG data from tcgcsv.com...");
        HttpGet groupsUrl])
    ∧ (∀ status, remoteGroups env = HttpStatus status →
         error = str "Failed to fetch groups: " ++ showZ status)
    ∧ ∀ query limit,
        searchProducts query limit (finalState (initialize env forceRefresh s))
        = searchProducts query limit s.
Proof.
  intros Hdue Hfail. unfold initialize. rewrite rebuildDue_test by done.
  unfold fetchGroups, fetchResult.
  destruct (remoteGroups env) as [e|st|groups] eqn:E;
    [| |by destruct (Hfail groups)].
  - exists e. split_and!; [done|by intros status [=]|done].
  - eexists. split_and!; [done| |done]. by intros status [= <-].
Qed.

(** X2. A rebuild that ends with an empty collection still builds the
    index, so queries return the empty list without the warning; and the
    empty snapshot is never served from the cache: every later call of
    [initialize], however soon, rebuilds again. *)
Theorem empty_rebuild_is_never_cached (env : Environment) (forceRefresh : bool)
    (s : TCGPlayerService) (groups : list TCGGroup) :
  rebuildDue env forceRefresh s →
  remoteGroups env = Body groups →
  Forall (λ g, contribution env g = [])
    (recentGroupsOf dateParse getFullYear setFullYear env groups) →
  let s' := finalState (initialize env forceRefresh s) in
  allProductsWithPrices s' = []
  ∧ (∀ query limit, searchProducts query limit s' = (Return [], s', []))
  ∧ ∀ env', rebuildStarted (events (initialize env' false s')).
Proof.
  intros Hdue Hgroups Hempty s'.
  destruct (initialize_rebuild dateParse getFullYear setFullYear _ _ _ _ Hdue Hgroups)
    as (s1 & tr & Hinit & Hall & Hfuse & _).
  assert (Hs' : s' = s1) by (unfold s'; by rewrite Hinit). rewrite Hs'. clear s' Hs'.
  assert (Hnil : allProductsWithPrices s1 = []).
  { rewrite Hall. by apply concat_fmap_nil. }
  split_and!; [done| |].
  - intros query limit. unfold searchProducts. rewrite Hfuse, Hnil.
    unfold fuseSearch. simpl. destruct (-1 <? limit); [|done].
    by destruct (Z.to_nat limit).
  - intros env'. apply (initialize_due_starts dateParse getFullYear setFullYear fuseScore).
    unfold rebuildDue. auto.
Qed.

(** X3. After a rebuild that left a non-empty collection, a call of
    [initialize] without force made less than [cacheValidityMs] after the
    time the rebuild was entered does nothing but log "Using cached product
    data"; the window counts from the start of the rebuild, not from its
    end. *)
Theorem rebuild_then_cached (env env' : Environment) (forceRefresh : bool)
    (s : TCGPlayerService) (groups : list TCGGroup) :
  rebuildDue env forceRefresh s →
  remoteGroups env = Body groups →
  let s' := finalState (initialize env forceRefresh s) in
  hasSnapshot s' →
  dateNow env' < dateNow env + cacheValidityMs s →
  lastFetchTime s' = dateNow env
  ∧ initialize env' false s'
    = (Return (), s', [ConsoleLog (str "Using cached product data")]).
Proof.
  intros Hdue Hgroups s' Hsnap Hnow.
  destruct (initialize_rebuild dateParse getFullYear setFullYear _ _ _ _ Hdue Hgroups)
    as (s1 & tr & Hinit & _ & _ & Hlast & Hvalid & _).
  assert (Hs' : s' = s1) by (unfold s'; by rewrite Hinit).
  rewrite Hs' in *. split; [done|].
  apply initialize_cached; [done|]. rewrite Hlast, Hvalid. done.
Qed.

(** X4. A rebuild replaces the snapshot wholesale: the collection, the
    index and the build time it leaves depend on the clock and the remote
    catalog only, not on the fields before. *)
Theorem rebuild_forgets_previous_snapshot (env : Environment)
    (force1 force2 : bool) (s1 s2 : TCGPlayerService) (groups : list TCGGroup) :
  rebuildDue env force1 s1 → rebuildDue env force2 s2 →
  remoteGroups env = Body groups →
  let s1' := finalState (initialize env force1 s1) in
  let s2' := finalState (initialize env force2 s2) in
  allProductsWithPrices s1' = allProductsWithPrices s2'
  ∧ fuse s1' = fuse s2'
  ∧ lastFetchTime s1' = lastFetchTime s2'
  ∧ groupsCache s1' = groupsCache s2'.
Proof.
  intros Hdue1 Hdue2 Hgroups s1' s2'.
  destruct (initialize_rebuild dateParse getFullYear setFullYear _ _ _ _ Hdue1 Hgroups)
    as (t1 & tr1 & Hinit1 & Hall1 & Hfuse1 & Hlast1 & _ & Hg1 & _).
  destruct (initialize_rebuild dateParse getFullYear setFullYear _ _ _ _ Hdue2 Hgroups)
    as (t2 & tr2 & Hinit2 & Hall2 & Hfuse2 & Hlast2 & _ & Hg2 & _).
  unfold s1', s2'. rewrite Hinit1, Hinit2. unfold finalState. simpl.
  rewrite Hfuse1, Hfuse2, Hall1, Hall2, Hlast1, Hlast2, Hg1, Hg2. done.
Qed.
End RebuildMore.

Section RebuildTrace.
Variable dateParse : jsstring → option Z.
Variable getFullYear : Z → Z.
Variable setFullYear : Z → Z → Z.

Lemma processGroup_network env s tr group s' tr' :
  processGroup env (s, tr) group = (s', tr') →
  filter isNetworkEvent tr' = filter isNetworkEvent tr ++ groupRequests group.
Proof.
  unfold processGroup.
  destruct (fetchProducts env _); [destruct (fetchPrices env _)|];
    intros [= <- <-]; rewrite ?filter_app; simpl; by rewrite ?app_nil_r.
Qed.

Lemma processGroups_network env groups s tr s' tr' :
  foldl (processGroup env) (s, tr) groups = (s', tr') →
  filter isNetworkEvent tr'
  = filter isNetworkEvent tr ++ concat (groupRequests <$> groups).
Proof.
  revert s tr. induction groups as [|g groups IH]; intros s tr; cbn [foldl].
  - intros [= <- <-]. by rewrite app_nil_r.
  - destruct (processGroup env (s, tr) g) as [s1 tr1] eqn:E1.
    intros E. apply IH in E. apply processGroup_network in E1.
    rewrite E, E1, fmap_cons, <- app_assoc. done.
Qed.

(** X5. A rebuild sends one request for the group list and then, for each
    retained group in the order of processing, a delay of 100 ms followed
    by the request for its products and the request for its prices,
    whether or not the fetch of a group fails: 1 + 2n requests and n delays
    for n retained groups, and nothing else. *)
Theorem rebuild_request_schedule (env : Environment) (forceRefresh : bool)
    (s : TCGPlayerService) (groups : list TCGGroup) :
  rebuildDue env forceRefresh s →
  remoteGroups env = Body groups →
  filter isNetworkEvent
    (events (initialize dateParse getFullYear setFullYear env forceRefresh s))
  = HttpGet groupsUrl
      :: concat (groupRequests <$> recentGroupsOf dateParse getFullYear setFullYear env groups).
Proof.
  intros Hdue Hgroups. unfold initialize. rewrite rebuildDue_test by done.
  unfold fetchGroups, fetchResult. rewrite Hgroups.
  match goal with |- context [foldl ?f ?a ?l] => destruct (foldl f a l) as [s1 tr1] eqn:E end.
  apply processGroups_network in E. unfold events. cbn [snd].
  rewrite filter_app, E. simpl. by rewrite app_nil_r.
Qed.

(** X6. The join of a group whose two fetches succeed: one entry per
    fetched product, in the order of the product list, holding the product,
    the group's name, and exactly the fetched price records of the
    product's id, in the order of the price list.  A product without price
    record gets the empty list; a price record of no fetched product
    appears in no entry. *)
Theorem processGroup_joins_by_product_id (env : Environment)
    (s : TCGPlayerService) (tr : list Event) (group : TCGGroup)
    (products : list TCGProduct) (priceRows : list TCGPrice) :
  fetchedLists env group products priceRows →
  ∃ s' tr' added,
    processGroup env (s, tr) group = (s', tr')
    ∧ allProductsWithPrices s' = allProductsWithPrices s ++ added
    ∧ Forall2 (λ product entry,
                 pwp_product entry = product
                 ∧ groupName entry = group_name group
                 ∧ prices entry
                   = filter (λ price, price_productId price
                                      = product_productId product) priceRows)
        products added
    ∧ ∀ price entry, entry ∈ added → price ∈ prices entry →
        price ∈ priceRows
        ∧ price_productId price = product_productId (pwp_product entry).
Proof.
  intros [Hproducts Hprices].
  destruct (processGroup env (s, tr) group) as [s' tr'] eqn:E.
  exists s', tr', (entriesOf group products priceRows).
  apply processGroup_state in E as (Hall & _).
  unfold contribution in Hall. rewrite Hproducts, Hprices in Hall.
  split_and!; [done|done| |].
  - unfold entriesOf. apply Forall2_fmap_r, Forall_Forall2_diag, Forall_forall.
    by intros product _.
  - intros price entry (product & -> & _)%list_elem_of_fmap. simpl.
    unfold pricesOf. rewrite list_elem_of_filter. tauto.
Qed.

Lemma processGroup_cache_kept env s tr group s' tr' k products prices :
  remoteProducts env k = Body products →
  remotePrices env k = Body prices →
  processGroup env (s, tr) group = (s', tr') →
  group_groupId group = k
  ∨ (productsCache s !! k = Some products ∧ pricesCache s !! k = Some prices) →
  productsCache s' !! k = Some products ∧ pricesCache s' !! k = Some prices.
Proof.
  intros Hp Hpr. unfold processGroup, fetchProducts, fetchPrices, fetchResult.
  destruct (decide (group_groupId group = k)) as [->|Hne].
  - rewrite Hp, Hpr. intros [= <- <-] _. simpl. by rewrite !lookup_insert_eq.
  - intros E [?|Hinv]; [done|]. revert E.
    destruct (remoteProducts env (group_groupId group));
      [by intros [= <- <-]..|].
    destruct (remotePrices env (group_groupId group));
      [by intros [= <- <-]..|].
    intros [= <- <-]. simpl. by rewrite !lookup_insert_ne.
Qed.

Lemma processGroups_cache_filled env groups s tr s' tr' k products prices :
  remoteProducts env k = Body products →
  remotePrices env k = Body prices →
  foldl (processGroup env) (s, tr) groups = (s', tr') →
  (∃ group, group ∈ groups ∧ group_groupId group = k)
  ∨ (productsCache s !! k = Some products ∧ pricesCache s !! k = Some prices) →
  productsCache s' !! k = Some products ∧ pricesCache s' !! k = Some prices.
Proof.
  intros Hp Hpr. revert s tr.
  induction groups as [|g groups IH]; intros s tr; cbn [foldl].
  - intros [= <- <-] [(group & Hin & _)|Hinv]; [by apply elem_of_nil in Hin|done].
  - destruct (processGroup env (s, tr) g) as [s1 tr1] eqn:E1.
    intros E Hcase. apply (IH _ _ E).
    destruct Hcase as [(group & Hin & Hk)|Hinv].
    + apply elem_of_cons in Hin as [->|Hin]; [|left; eauto].
      right. eapply processGroup_cache_kept; eauto.
    + right. eapply processGroup_cache_kept; eauto.
Qed.

Lemma processGroup_cache_untouched env s tr group s' tr' k :
  processGroup env (s, tr) group = (s', tr') →
  (group_groupId group = k → fetchFails env group) →
  productsCache s' !! k = productsCache s !! k
  ∧ pricesCache s' !! k = pricesCache s !! k.
Proof.
  intros E Hk. destruct (decide (group_groupId group = k)) as [Heq|Hne].
  - destruct (processGroup_failure env s tr group (Hk Heq)) as (tr1 & E1 & _).
    rewrite E1 in E. by injection E as <- <-.
  - revert E. unfold processGroup, fetchProducts, fetchPrices, fetchResult.
    destruct (remoteProducts env (group_groupId group));
      [by intros [= <- <-]..|].
    destruct (remotePrices env (group_groupId group));
      [by intros [= <- <-]..|].
    intros [= <- <-]. simpl. by rewrite !lookup_insert_ne.
Qed.

Lemma processGroups_cache_untouched env groups s tr s' tr' k :
  foldl (processGroup env) (s, tr) groups = (s', tr') →
  (∀ group, group ∈ groups → group_groupId group = k → fetchFails env group) →
  productsCache s' !! k = productsCache s !! k
  ∧ pricesCache s' !! k = pricesCache s !! k.
Proof.
  revert s tr. induction groups as [|g groups IH]; intros s tr; cbn [foldl].
  - by intros [= <- <-].
  - destruct (processGroup env (s, tr) g) as [s1 tr1] eqn:E1.
    intros E Hk.
    apply processGroup_cache_untouched with (k := k) in E1 as [<- <-];
      [|intros; apply Hk; [left|done]].
    apply (IH _ _ E). intros group Hin. apply Hk. by right.
Qed.

(** X7. The two per-group caches after a rebuild: for every retained group
    whose two fetches succeeded they hold the fetched lists (for a group
    id that occurs twice, the lists the catalog gives for that id); every
    other key keeps the entry it had before the rebuild, so the entries
    of groups that failed this time or are no longer retained are never
    removed. *)
Theorem rebuild_caches (env : Environment) (forceRefresh : bool)
    (s : TCGPlayerService) (groups : list TCGGroup) :
  rebuildDue env forceRefresh s →
  remoteGroups env = Body groups →
  let s' := finalState (initialize dateParse getFullYear setFullYear env forceRefresh s) in
  (∀ group products prices,
     group ∈ recentGroupsOf dateParse getFullYear setFullYear env groups →
     fetchedLists env group products prices →
     productsCache s' !! group_groupId group = Some products
     ∧ pricesCache s' !! group_groupId group = Some prices)
  ∧ ∀ groupId,
      (∀ group, group ∈ recentGroupsOf dateParse getFullYear setFullYear env groups →
                group_groupId group = groupId → fetchFails env group) →
      productsCache s' !! groupId = productsCache s !! groupId
      ∧ pricesCache s' !! groupId = pricesCache s !! groupId.
Proof.
  intros Hdue Hgroups. unfold initialize. rewrite rebuildDue_test by done.
  unfold fetchGroups, fetchResult. rewrite Hgroups.
  match goal with |- context [foldl ?f ?a ?l] => destruct (foldl f a l) as [s1 tr1] eqn:E end.
  unfold finalState. simpl. split.
  - intros group products prices Hin [Hp Hpr].
    eapply processGroups_cache_filled; eauto.
  - intros groupId Hk.
    by destruct (processGroups_cache_untouched _ _ _ _ _ _ groupId E Hk).
Qed.
End RebuildTrace.

(** ** getProductUrl *)

Lemma str_inj a b : str a = str b → a = b.
Proof.
  unfold str. intros H.
  assert (Hl : list_ascii_of_string a = list_ascii_of_string b).
  { revert H. generalize (list_ascii_of_string a) (list_ascii_of_string b).
    induction l as [|x l IH]; intros [|y k]; try done.
    rewrite !fmap_cons. intros [= Hxy Hlk]. f_equal; [|by apply IH].
    rewrite <- (ascii_N_embedding x), <- (ascii_N_embedding y). by rewrite Hxy. }
  rewrite <- (string_of_list_ascii_of_string a),
          <- (string_of_list_ascii_of_string b). by rewrite Hl.
Qed.

Lemma showZ_inj a b : showZ a = showZ b → a = b.
Proof.
  unfold showZ. intros H%str_inj.
  assert (Hnil : ∀ z, Z.to_int z ≠ Decimal.Pos Decimal.Nil
                      ∧ Z.to_int z ≠ Decimal.Neg Decimal.Nil).
  { intros [|p|p]; simpl; split; try done;
      intros [= Hp]; by apply DecimalPos.Unsigned.to_uint_nonnil in Hp. }
  apply DecimalZ.to_int_inj.
  pose proof (DecimalString.NilZero.isi _ (proj1 (Hnil a)) (proj2 (Hnil a))) as Ha.
  pose proof (DecimalString.NilZero.isi _ (proj1 (Hnil b)) (proj2 (Hnil b))) as Hb.
  rewrite H in Ha. congruence.
Qed.

(** X8. [getProductUrl] never returns the empty string: it is the
    product's own [url] when that is not empty, and otherwise the link
    "https://www.tcgplayer.com/product/" followed by the product id in
    decimal; two products without [url] get the same link only when they
    have the same id. *)
Theorem getProductUrl_link (p q : ProductWithPrice) :
  getProductUrl p ≠ []
  ∧ (product_url (pwp_product p) ≠ [] →
     getProductUrl p = product_url (pwp_product p))
  ∧ (product_url (pwp_product p) = [] →
     getProductUrl p
     = str "https://www.tcgplayer.com/product/"
         ++ showZ (product_productId (pwp_product p)))
  ∧ (product_url (pwp_product p) = [] → product_url (pwp_product q) = [] →
     getProductUrl p = getProductUrl q →
     product_productId (pwp_product p) = product_productId (pwp_product q))
  ∧ getProductUrl {| pwp_product := Sample.sparksETB; prices := [];
                     groupName := [] |}
    = str "https://www.tcgplayer.com/product/101".
Proof.
  unfold getProductUrl. split_and!.
  - by destruct (product_url (pwp_product p)).
  - by destruct (product_url (pwp_product p)).
  - by intros ->.
  - intros -> ->. intros H. by apply app_inv_head, showZ_inj in H.
  - by vm_compute.
Qed.

(** ** cleanProductName: the expansion loop and the normal form *)

Lemma concat_fmap_concat {A B C} (f : B → list C) (g : A → list B) (l : list A) :
  concat (f <$> concat (g <$> l)) = concat ((λ x, concat (f <$> g x)) <$> l).
Proof.
  induction l as [|x l IH]; [done|].
  rewrite !fmap_cons. cbn [concat]. by rewrite fmap_app, concat_app, IH.
Qed.

Lemma expandKnown_three_passes ch :
  chunkOK ch →
  concat (expandChunk (str "bb") (str "Booster Box")
            <$> concat (rechunk (str "etb") (str "Elite Trainer Box")
                          <$> rechunk (str "upc") (str "Ultra Premium Collection") ch))
  = expandKnown ch.
Proof.
  destruct ch as [w|c]; simpl.
  - intros [Hne Hw]. unfold expansionOf, ABBREVIATIONS. cbn [List.find fst].
    rewrite rechunk_word by done.
    destruct (eqCI (str "upc") w) eqn:Eupc; [by vm_compute|].
    rewrite fmap_cons. cbn [fmap list_fmap concat]. rewrite app_nil_r.
    rewrite rechunk_word by done.
    destruct (eqCI (str "etb") w) eqn:Eetb; [by vm_compute|].
    cbn [fmap list_fmap concat expandChunk]. rewrite app_nil_r.
    unfold expandWord. by destruct (eqCI (str "bb") w).
  - intros Hc. rewrite rechunk_sep by done.
    cbn [fmap list_fmap concat]. rewrite app_nil_r.
    by rewrite rechunk_sep by done.
Qed.

(** X9. The three replacement passes of the expansion loop amount to one
    pass over the words of the text: every maximal run of word characters
    that is [upc], [etb] or [bb] up to case is replaced by its expansion,
    and every other word and every character between words is kept.  An
    abbreviation inside a longer word is not expanded, and no expansion is
    expanded again by a later pass. *)
Theorem expandAbbreviations_single_pass (s : jsstring) :
  expandAbbreviations s = concat (expandKnown <$> chunks s).
Proof.
  rewrite expandAbbreviations_unfold.
  rewrite replaceWord_chunks, !chunks_replaceWord by done.
  change (λ ch, chunks (expandChunk ?a ?f ch)) with (rechunk a f).
  rewrite (concat_fmap_concat (rechunk _ _) (rechunk _ _) (chunks s)).
  rewrite (concat_fmap_concat (expandChunk _ _) _ (chunks s)). f_equal.
  apply Forall_fmap_ext_1. eapply Forall_impl; [apply chunks_ok|].
  intros ch Hch. by rewrite <- (expandKnown_three_passes ch Hch).
Qed.

Lemma cleanProductName_tidy x : tidy (cleanProductName x).
Proof. apply expandAbbreviations_tidy, trim_collapse_tidy. Qed.

(** X10. The cleaned name is in normal form, for every input: the
    em-dash replacement, the white-space collapse, [trim] and the
    expansion loop all leave it as it is.  (Only the prefix replacements
    can still change it.) *)
Theorem cleanProductName_normal_form (x : jsstring) :
  replaceChar emDash hyphen (cleanProductName x) = cleanProductName x
  ∧ collapseWhiteSpace (cleanProductName x) = cleanProductName x
  ∧ trim (cleanProductName x) = cleanProductName x
  ∧ expandAbbreviations (cleanProductName x) = cleanProductName x.
Proof.
  pose proof (cleanProductName_tidy x) as Htidy. unfold cleanProductName in *.
  split_and!.
  - apply replaceChar_absent, expandAbbreviations_Forall; [|apply rawCleanup_noDash].
    intros c Hc ->. by vm_compute in Hc.
  - by apply tidy_collapse.
  - by apply tidy_trim.
  - apply expandAbbreviations_clean, chunks_expandAbbreviations_clean.
Qed.

(** *** The cleaned name and the cleanup of searchProducts *)

Lemma suffix_length_eq {A} (l k : list A) :
  l `suffix_of` k → (length k ≤ length l)%nat → l = k.
Proof.
  intros [pre ->] Hlen. rewrite length_app in Hlen.
  destruct pre; [done|simpl in Hlen; lia].
Qed.

Lemma stripKnownPrefixes_fixed s :
  stripKnownPrefixes s = s →
  stripPrefix prefixPokemonTCGame s = s ∧ stripPrefix prefixPTCG s = s.
Proof.
  unfold stripKnownPrefixes. intros H.
  set (s1 := stripPrefix prefixPokemonAccentTCGame s) in *.
  set (s2 := stripPrefix prefixPokemonTCGame s1) in *.
  set (s3 := stripPrefix prefixPokemonTCG s2) in *.
  assert (H1 : s1 `suffix_of` s) by apply stripPrefix_suffix.
  assert (H2 : s2 `suffix_of` s1) by apply stripPrefix_suffix.
  assert (H3 : s3 `suffix_of` s2) by apply stripPrefix_suffix.
  assert (H4 : stripPrefix prefixPTCG s3 `suffix_of` s3) by apply stripPrefix_suffix.
  rewrite H in H4.
  pose proof (suffix_length _ _ H1). pose proof (suffix_length _ _ H2).
  pose proof (suffix_length _ _ H3). pose proof (suffix_length _ _ H4).
  assert (E1 : s1 = s) by (apply suffix_length_eq; [done|lia]).
  assert (E2 : s2 = s1) by (apply suffix_length_eq; [done|lia]).
  assert (E3 : s3 = s2) by (apply suffix_length_eq; [done|lia]).
  split.
  - fold s1 in E2. unfold s2 in E2. by rewrite E1 in E2.
  - rewrite <- H at 2. by rewrite E3, E2, E1.
Qed.

Lemma charEqCI_outside p c :
  (255 < p)%N → c ≠ p → charEqCI p c = false.
Proof.
  unfold charEqCI, canonicalize. intros Hp Hc. apply N.eqb_neq.
  repeat case_match; char_tests; lia.
Qed.

Lemma matchPrefixCI_absent pre x post s :
  (255 < x)%N → Forall (λ c, c ≠ x) s →
  matchPrefixCI (pre ++ x :: post) s = None.
Proof.
  intros Hx. revert s. induction pre as [|p pre IH]; intros [|c s] Hs; simpl; try done.
  - apply Forall_cons_1 in Hs as [Hc _]. by rewrite charEqCI_outside.
  - apply Forall_cons_1 in Hs as [_ Hs]. destruct (charEqCI p c); [by apply IH|done].
Qed.

Lemma stripPrefix_mojibake_absent s :
  Forall (λ c, c ≠ boxVertRight) s → stripPrefix mojibakePrefixPokemonTCGame s = s.
Proof.
  intros H. unfold stripPrefix, mojibakePrefixPokemonTCGame. cbn [app].
  by rewrite (matchPrefixCI_absent (str "Pok") boxVertRight).
Qed.

Lemma replaceLiteral_mojibakeDash_absent rep s :
  Forall (λ c, c ≠ capGamma) s → replaceLiteral mojibakeDash rep s = s.
Proof.
  unfold replaceLiteral. induction 1 as [|c s Hc _ IH]; [done|].
  cbn [replaceLiteralFrom]. unfold mojibakeDash at 1. cbn [isPrefixOf].
  replace (capGamma =? c)%N with false; [by rewrite IH|].
  symmetry. by apply N.eqb_neq.
Qed.

Lemma rawCleanup_Forall (P : N → Prop) x :
  P space → P hyphen → Forall P x → Forall P (rawCleanup x).
Proof.
  intros Hsp Hhy Hx. unfold rawCleanup, collapseWhiteSpace.
  apply trim_Forall, collapseFrom_Forall; [done|].
  unfold replaceChar. apply Forall_fmap.
  assert (Hs : Forall P (stripKnownPrefixes x))
    by (unfold stripKnownPrefixes; by do 4 apply stripPrefix_Forall).
  eapply Forall_impl; [exact Hs|]. intros c Hc. simpl.
  by destruct (c =? emDash)%N.
Qed.

(** X11. What the lookup of [handleChannelMessage] hands to the matcher.
    For a name without the two characters U+251C and U+0393 (the first
    characters of the mis-encoded patterns of [searchProducts]) whose
    cleaned name does not itself begin with a known prefix, the cleanup
    of [searchProducts] leaves the cleaned name as it is: the pattern
    searched is exactly [cleanProductName name]. *)
Theorem cleaned_name_is_the_pattern (name : jsstring) :
  Forall (λ c, c ≠ boxVertRight ∧ c ≠ capGamma) name →
  stripKnownPrefixes (cleanProductName name) = cleanProductName name →
  cleanQuery (cleanProductName name) = cleanProductName name
  ∧ ∀ fuseScore s f,
      fuse s = Some f →
      searchCleanedName fuseScore name s
      = (Return (item <$> fuseSearch fuseScore f (cleanProductName name) 1), s,
         [ConsoleLog (str "Searching for: " ++ cleanProductName name)]).
Proof.
  intros Hname Hprefix.
  assert (Hclean : Forall (λ c, c ≠ boxVertRight ∧ c ≠ capGamma)
                     (cleanProductName name)).
  { unfold cleanProductName. apply expandAbbreviations_Forall.
    - intros c Hc. unfold isAscii in Hc. unfold boxVertRight, capGamma. lia.
    - by apply rawCleanup_Forall. }
  assert (Hquery : cleanQuery (cleanProductName name) = cleanProductName name).
  { destruct (stripKnownPrefixes_fixed _ Hprefix) as [H1 H2].
    pose proof (tidy_trim _ (cleanProductName_tidy name)) as Htrim.
    unfold cleanQuery. rewrite stripPrefix_mojibake_absent.
    2:{ eapply Forall_impl; [exact Hclean|]. by intros c [? _]. }
    rewrite H1, H2, replaceLiteral_mojibakeDash_absent; [done|].
    eapply Forall_impl; [exact Hclean|]. by intros c [_ ?]. }
  split; [done|]. intros fuseScore s f Hf.
  unfold searchCleanedName, searchProducts. by rewrite Hf, Hquery.
Qed.

(** *** A known prefix is removed *)

Lemma charEqCI_trans a b c : charEqCI a c = true → charEqCI b c = true → charEqCI a b = true.
Proof. unfold charEqCI. rewrite !N.eqb_eq. congruence. Qed.

Lemma matchPrefixCI_eqCI pat p rest :
  eqCI pat p = true → matchPrefixCI pat (p ++ rest) = Some rest.
Proof.
  revert p. induction pat as [|a pat IH]; intros [|c p]; simpl; try done.
  intros [Hc Hp]%andb_prop. rewrite Hc. by apply IH.
Qed.

Lemma matchPrefixCI_clash other pat p rest :
  clash other pat = true → eqCI pat p = true →
  matchPrefixCI other (p ++ rest) = None.
Proof.
  revert pat p. induction other as [|a other IH]; intros [|b pat] [|c p]; simpl;
    try done.
  intros Hclash [Hc Hp]%andb_prop.
  destruct (charEqCI a c) eqn:Hac; [|done].
  rewrite (charEqCI_trans a b c Hac Hc) in Hclash. simpl in Hclash. by eapply IH.
Qed.

Lemma stripPrefix_eqCI pat p ws x :
  eqCI pat p = true → Forall (λ c, isWhiteSpace c = true) ws →
  stripPrefix pat (p ++ ws ++ x) = trimStart x.
Proof.
  intros Hp Hws. unfold stripPrefix. rewrite matchPrefixCI_eqCI by done.
  unfold trimStart. induction Hws as [|c ws Hc _ IH]; [done|].
  simpl. by rewrite Hc.
Qed.

Lemma stripPrefix_clash other pat p rest :
  clash other pat = true → eqCI pat p = true →
  stripPrefix other (p ++ rest) = p ++ rest.
Proof.
  intros Hclash Hp. unfold stripPrefix.
  by rewrite (matchPrefixCI_clash other pat p rest Hclash Hp).
Qed.

Lemma stripKnownPrefixes_all_fixed s :
  stripKnownPrefixes s = s →
  stripPrefix prefixPokemonAccentTCGame s = s
  ∧ stripPrefix prefixPokemonTCGame s = s
  ∧ stripPrefix prefixPokemonTCG s = s
  ∧ stripPrefix prefixPTCG s = s.
Proof.
  unfold stripKnownPrefixes. intros H.
  set (s1 := stripPrefix prefixPokemonAccentTCGame s) in *.
  set (s2 := stripPrefix prefixPokemonTCGame s1) in *.
  set (s3 := stripPrefix prefixPokemonTCG s2) in *.
  assert (H1 : s1 `suffix_of` s) by apply stripPrefix_suffix.
  assert (H2 : s2 `suffix_of` s1) by apply stripPrefix_suffix.
  assert (H3 : s3 `suffix_of` s2) by apply stripPrefix_suffix.
  assert (H4 : stripPrefix prefixPTCG s3 `suffix_of` s3) by apply stripPrefix_suffix.
  rewrite H in H4.
  pose proof (suffix_length _ _ H1). pose proof (suffix_length _ _ H2).
  pose proof (suffix_length _ _ H3). pose proof (suffix_length _ _ H4).
  assert (E1 : s1 = s) by (apply suffix_length_eq; [done|lia]).
  assert (E2 : s2 = s1) by (apply suffix_length_eq; [done|lia]).
  assert (E3 : s3 = s2) by (apply suffix_length_eq; [done|lia]).
  clear H1 H2 H3 H4. unfold s3, s2, s1 in *.
  rewrite E1 in E2. rewrite E1, E2 in E3. rewrite E1, E2, E3 in H. done.
Qed.

Lemma stripPrefix_after_space pat c s :
  isWhiteSpace c = true → (∃ a pat', pat = a :: pat' ∧ isWordChar a = true) →
  stripPrefix pat (c :: s) = c :: s.
Proof.
  intros Hc (a & pat' & -> & Ha). unfold stripPrefix. simpl.
  destruct (charEqCI a c) eqn:E; [|done].
  apply charEqCI_wordChar in E; [|done].
  apply wordChar_not_whiteSpace in E. congruence.
Qed.

Lemma stripKnownPrefixes_after_space c s :
  isWhiteSpace c = true → stripKnownPrefixes (c :: s) = c :: s.
Proof.
  intros Hc. unfold stripKnownPrefixes.
  rewrite !(stripPrefix_after_space _ c s Hc); [done|..];
    by eexists _, _; split; [reflexivity|].
Qed.

Lemma replaceChar_trimStart s :
  replaceChar emDash hyphen (trimStart s) = trimStart (replaceChar emDash hyphen s).
Proof.
  unfold replaceChar, trimStart. induction s as [|c s IH]; [done|].
  rewrite fmap_cons. cbn [dropWhile].
  destruct (N.eqb_spec c emDash) as [->|Hne].
  - by replace (isWhiteSpace emDash) with false by by vm_compute.
  - destruct (isWhiteSpace c); [done|]. rewrite fmap_cons.
    by destruct (N.eqb_spec c emDash).
Qed.

Lemma trimStart_collapse b s :
  trimStart (collapseFrom b s) = trimStart (collapseFrom false (trimStart s)).
Proof.
  unfold trimStart. revert b. induction s as [|c s IH]; intros b; [done|].
  cbn [collapseFrom dropWhile]. destruct (isWhiteSpace c) eqn:Hc.
  - destruct b; [apply IH|]. cbn [dropWhile].
    replace (isWhiteSpace space) with true by by vm_compute. apply IH.
  - do 3 (cbn [collapseFrom dropWhile]; rewrite ?Hc). done.
Qed.

Lemma rawCleanup_leading_space x :
  stripKnownPrefixes (trimStart x) = trimStart x →
  rawCleanup x = trim (collapseWhiteSpace (replaceChar emDash hyphen (trimStart x))).
Proof.
  intros H. unfold rawCleanup.
  assert (Hx : stripKnownPrefixes x = x).
  { destruct x as [|c s]; [done|]. unfold trimStart in H. cbn [dropWhile] in H.
    destruct (isWhiteSpace c) eqn:Hc; [by apply stripKnownPrefixes_after_space|done]. }
  rewrite Hx, replaceChar_trimStart. unfold trim, collapseWhiteSpace.
  by rewrite (trimStart_collapse false (replaceChar emDash hyphen x)).
Qed.

(** X12. A known prefix is removed.  For each of the four prefixes, in
    any casing, followed by any white space: if the rest of the name
    does not itself begin (after its leading white space) with a known
    prefix, the cleaned name is that of the rest alone. *)
Theorem cleanProductName_strips_prefix (pattern p ws x : jsstring) :
  pattern ∈ knownPrefixes →
  eqCI pattern p = true →
  Forall (λ c, isWhiteSpace c = true) ws →
  stripKnownPrefixes (trimStart x) = trimStart x →
  cleanProductName (p ++ ws ++ x) = cleanProductName x.
Proof.
  intros Hin Hp Hws Hx. unfold cleanProductName. f_equal.
  rewrite (rawCleanup_leading_space x Hx).
  destruct (stripKnownPrefixes_all_fixed _ Hx) as (F1 & F2 & F3 & F4).
  unfold rawCleanup. do 3 f_equal. unfold stripKnownPrefixes, knownPrefixes in *.
  repeat (apply elem_of_cons in Hin as [->|Hin]); [..|by apply elem_of_nil in Hin].
  - rewrite (stripPrefix_eqCI _ p ws x) by done. by rewrite F2, F3, F4.
  - rewrite (stripPrefix_clash _ prefixPokemonTCGame) by done.
    rewrite (stripPrefix_eqCI _ p ws x) by done. by rewrite F3, F4.
  - rewrite (stripPrefix_clash _ prefixPokemonTCG) by done.
    rewrite (stripPrefix_clash _ prefixPokemonTCG) by done.
    rewrite (stripPrefix_eqCI _ p ws x) by done. by rewrite F4.
  - rewrite (stripPrefix_clash _ prefixPTCG) by done.
    rewrite (stripPrefix_clash _ prefixPTCG) by done.
    rewrite (stripPrefix_clash _ prefixPTCG) by done.
    by rewrite (stripPrefix_eqCI _ p ws x) by done.
Qed.

(** ** searchProducts: the limit *)

Section LimitFacts.
Variable fuseScore : jsstring → ProductWithPrice → option Q.

(** X13. The limit of [searchProducts] at its edges, on a built index:
    with limit 0 nothing is returned; with a negative limit nothing is cut
    off, and the result holds every matching document of the index, each
    as often as it occurs there. *)
Theorem searchProducts_limit_edges (s : TCGPlayerService) (f : Fuse)
    (query : jsstring) :
  fuse s = Some f →
  searchProducts fuseScore query 0 s = (Return [], s, [])
  ∧ ∀ limit, limit < 0 →
      ∃ results,
        searchProducts fuseScore query limit s = (Return results, s, [])
        ∧ results ≡ₚ filter (λ doc, is_Some (fuseScore (cleanQuery query) doc))
                       (fuse_docs f).
Proof.
  intros Hf. unfold searchProducts, fuseSearch. rewrite Hf. split; [done|].
  intros limit Hlimit. destruct (Z.ltb_spec (-1) limit) as [?|_]; [lia|].
  eexists. split; [done|].
  rewrite <- (fuseMatches_items fuseScore _ 0%nat).
  apply fmap_Permutation, sortBy_perm.
Qed.
End LimitFacts.

(** ** The properties on the sample catalog *)

(** A forced refresh of the started service while the catalog is down. *)
Lemma initialize_groups_failure_witness :
  ∃ error,
    initialize UTCHost.dateParse UTCHost.getFullYear UTCHost.setFullYear Outage.catalogDown true
      Sample.startedService
    = (Throw error, Sample.startedService,
       [ConsoleLog (str "Fetching Pokemon TCG data from tcgcsv.com...");
        HttpGet groupsUrl])
    ∧ (∀ status, remoteGroups Outage.catalogDown = HttpStatus status →
         error = str "Failed to fetch groups: " ++ showZ status)
    ∧ ∀ query limit,
        searchProducts UTCHost.fuseScore query limit
          (finalState (initialize UTCHost.dateParse UTCHost.getFullYear UTCHost.setFullYear
                         Outage.catalogDown true Sample.startedService))
        = searchProducts UTCHost.fuseScore query limit Sample.startedService.
Proof.
  apply (initialize_groups_failure UTCHost.dateParse UTCHost.getFullYear UTCHost.setFullYear
           UTCHost.fuseScore Outage.catalogDown true Sample.startedService).
  - left. reflexivity.
  - intros groups. simpl. discriminate.
Defined.

(** The start-up call on a group list of which nothing is loaded. *)
Lemma empty_rebuild_is_never_cached_witness :
  let s' := finalState (initialize UTCHost.dateParse UTCHost.getFullYear UTCHost.setFullYear
                          (Sample.environment Outage.barrenGroups) false newService) in
  allProductsWithPrices s' = []
  ∧ (∀ query limit,
       searchProducts UTCHost.fuseScore query limit s' = (Return [], s', []))
  ∧ ∀ env', rebuildStarted
              (events (initialize UTCHost.dateParse UTCHost.getFullYear
                         UTCHost.setFullYear env' false s')).
Proof.
  apply (empty_rebuild_is_never_cached UTCHost.dateParse UTCHost.getFullYear UTCHost.setFullYear
           UTCHost.fuseScore (Sample.environment Outage.barrenGroups) false
           newService Outage.barrenGroups).
  - right. left. reflexivity.
  - reflexivity.
  - vm_compute. repeat constructor.
Defined.

(** The start-up call, and a second call one hour later. *)
Lemma rebuild_then_cached_witness :
  lastFetchTime Sample.startedService = Sample.now
  ∧ initialize UTCHost.dateParse UTCHost.getFullYear UTCHost.setFullYear Sample.oneHourLater false
      Sample.startedService
    = (Return (), Sample.startedService,
       [ConsoleLog (str "Using cached product data")]).
Proof.
  apply (rebuild_then_cached UTCHost.dateParse UTCHost.getFullYear UTCHost.setFullYear
           (Sample.environment Sample.outageGroups) Sample.oneHourLater false
           newService Sample.outageGroups).
  - right. left. reflexivity.
  - reflexivity.
  - unfold hasSnapshot. vm_compute. discriminate.
  - vm_compute. reflexivity.
Defined.

(** The start-up call and a forced refresh of the started service, on the
    same catalog at the same time. *)
Lemma rebuild_forgets_previous_snapshot_witness :
  let s1' := finalState (initialize UTCHost.dateParse UTCHost.getFullYear UTCHost.setFullYear
                           (Sample.environment Sample.outageGroups) false newService) in
  let s2' := finalState (initialize UTCHost.dateParse UTCHost.getFullYear UTCHost.setFullYear
                           (Sample.environment Sample.outageGroups) true
                           Sample.startedService) in
  allProductsWithPrices s1' = allProductsWithPrices s2'
  ∧ fuse s1' = fuse s2'
  ∧ lastFetchTime s1' = lastFetchTime s2'
  ∧ groupsCache s1' = groupsCache s2'.
Proof.
  apply (rebuild_forgets_previous_snapshot UTCHost.dateParse UTCHost.getFullYear UTCHost.setFullYear
           (Sample.environment Sample.outageGroups) false true newService
           Sample.startedService Sample.outageGroups).
  - right. left. reflexivity.
  - left. reflexivity.
  - reflexivity.
Defined.

(** The requests of the start-up call: three retained groups, newest
    first, the second of which fails. *)
Lemma rebuild_request_schedule_witness :
  filter isNetworkEvent
    (events (initialize UTCHost.dateParse UTCHost.getFullYear UTCHost.setFullYear
               (Sample.environment Sample.outageGroups) false newService))
  = HttpGet groupsUrl
      :: concat (groupRequests
                   <$> recentGroupsOf UTCHost.dateParse UTCHost.getFullYear UTCHost.setFullYear
                         (Sample.environment Sample.outageGroups) Sample.outageGroups).
Proof.
  apply (rebuild_request_schedule UTCHost.dateParse UTCHost.getFullYear UTCHost.setFullYear
           (Sample.environment Sample.outageGroups) false newService
           Sample.outageGroups).
  - right. left. reflexivity.
  - reflexivity.
Defined.

Example rebuild_request_schedule_values :
  recentGroupsOf UTCHost.dateParse UTCHost.getFullYear UTCHost.setFullYear
    (Sample.environment Sample.outageGroups) Sample.outageGroups
  = [Sample.lastMonthGroup; Sample.summerGroup; Sample.springGroup]
  ∧ groupRequests Sample.summerGroup
    = [Delay 100; HttpGet (str "https://tcgcsv.com/tcgplayer/3/3/products");
       HttpGet (str "https://tcgcsv.com/tcgplayer/3/3/prices")].
Proof. split; by vm_compute. Qed.

(** The join of the group "Surging Sparks". *)
Lemma processGroup_joins_by_product_id_witness :
  ∃ s' tr' added,
    processGroup (Sample.environment Sample.outageGroups) (newService, [])
      Sample.lastMonthGroup = (s', tr')
    ∧ allProductsWithPrices s' = allProductsWithPrices newService ++ added
    ∧ Forall2 (λ product entry,
                 pwp_product entry = product
                 ∧ groupName entry = group_name Sample.lastMonthGroup
                 ∧ prices entry
                   = filter (λ price, price_productId price
                                      = product_productId product)
                       Sample.sparksPrices)
        [Sample.sparksETB; Sample.sparksBox] added
    ∧ ∀ price entry, entry ∈ added → price ∈ prices entry →
        price ∈ Sample.sparksPrices
        ∧ price_productId price = product_productId (pwp_product entry).
Proof.
  apply (processGroup_joins_by_product_id (Sample.environment Sample.outageGroups)
           newService [] Sample.lastMonthGroup
           [Sample.sparksETB; Sample.sparksBox] Sample.sparksPrices).
  split; reflexivity.
Defined.

(** The caches after the start-up call. *)
Lemma rebuild_caches_witness :
  let s' := Sample.startedService in
  (∀ group products prices,
     group ∈ recentGroupsOf UTCHost.dateParse UTCHost.getFullYear UTCHost.setFullYear
               (Sample.environment Sample.outageGroups) Sample.outageGroups →
     fetchedLists (Sample.environment Sample.outageGroups) group products prices →
     productsCache s' !! group_groupId group = Some products
     ∧ pricesCache s' !! group_groupId group = Some prices)
  ∧ ∀ groupId,
      (∀ group, group ∈ recentGroupsOf UTCHost.dateParse UTCHost.getFullYear UTCHost.setFullYear
                          (Sample.environment Sample.outageGroups)
                          Sample.outageGroups →
                group_groupId group = groupId →
                fetchFails (Sample.environment Sample.outageGroups) group) →
      productsCache s' !! groupId = productsCache newService !! groupId
      ∧ pricesCache s' !! groupId = pricesCache newService !! groupId.
Proof.
  apply (rebuild_caches UTCHost.dateParse UTCHost.getFullYear UTCHost.setFullYear
           (Sample.environment Sample.outageGroups) false newService
           Sample.outageGroups).
  - right. left. reflexivity.
  - reflexivity.
Defined.

(** The name of the end-to-end scenario. *)
Lemma cleaned_name_is_the_pattern_witness :
  cleanQuery (cleanProductName scenarioQuery) = cleanProductName scenarioQuery
  ∧ ∀ fuseScore s f,
      fuse s = Some f →
      searchCleanedName fuseScore scenarioQuery s
      = (Return (item <$> fuseSearch fuseScore f (cleanProductName scenarioQuery) 1),
         s,
         [ConsoleLog (str "Searching for: " ++ cleanProductName scenarioQuery)]).
Proof.
  apply (cleaned_name_is_the_pattern scenarioQuery).
  - vm_compute. repeat (constructor; [split; discriminate|]). constructor.
  - vm_compute. reflexivity.
Defined.

(** The started service searched without limit. *)
Lemma searchProducts_limit_edges_witness :
  searchProducts UTCHost.fuseScore (str "surging sparks") 0 Sample.startedService
  = (Return [], Sample.startedService, [])
  ∧ ∀ limit, limit < 0 →
      ∃ results,
        searchProducts UTCHost.fuseScore (str "surging sparks") limit
          Sample.startedService
        = (Return results, Sample.startedService, [])
        ∧ results
          ≡ₚ filter (λ doc, is_Some (UTCHost.fuseScore
                                       (cleanQuery (str "surging sparks")) doc))
               (fuse_docs {| fuse_docs := allProductsWithPrices Sample.startedService |}).
Proof.
  apply (searchProducts_limit_edges UTCHost.fuseScore Sample.startedService
           {| fuse_docs := allProductsWithPrices Sample.startedService |}
           (str "surging sparks")).
  vm_compute. reflexivity.
Defined.

(** ** messageParser.ts: the classifiers *)

Lemma isPrefixOf_spec pat s :
  isPrefixOf pat s = true ↔ ∃ post, s = pat ++ post.
Proof.
  revert s. induction pat as [|p pat IH]; intros s; simpl.
  - split; [by exists s|done].
  - destruct s as [|c s]; [split; [done|by intros [post [=]]]|].
    rewrite andb_true_iff, N.eqb_eq, IH. split.
    + intros [-> [post ->]]. by exists post.
    + intros [post [= -> ->]]. split; [done|by exists post].
Qed.

Lemma includes_spec s pat :
  includes s pat = true ↔ ∃ pre post, s = pre ++ pat ++ post.
Proof.
  induction s as [|c r IH]; cbn [includes]; rewrite orb_true_iff, isPrefixOf_spec.
  - split.
    + intros [[post H]|[=]]. by exists [], post.
    + intros (pre & post & H). left.
      destruct pre; [by exists post|done].
  - rewrite IH. split.
    + intros [[post H]|(pre & post & ->)]; [by exists [], post|].
      by exists (c :: pre), post.
    + intros ([|d pre] & post & H); [left; by exists post|].
      injection H as <- ->. right. by exists pre, post.
Qed.

Lemma existsb_elem_of {A} (f : A → bool) (l : list A) :
  existsb f l = true ↔ ∃ x, x ∈ l ∧ f x = true.
Proof.
  rewrite existsb_exists. split; intros (x & Hin & Hx); exists x;
    (split; [by apply list_elem_of_In|done]).
Qed.

Section ClassifierFacts.
Variable toLowerCase : jsstring → jsstring.
Hypothesis toLowerCase_latin1 :
  ∀ s, Forall isLatin1 s → toLowerCase s = latin1Lower <$> s.

Lemma includes_lower text keyword :
  Forall isLatin1 text →
  includes (toLowerCase text) keyword = true ↔ occursIgnoringCase keyword text.
Proof.
  intros Htext. rewrite toLowerCase_latin1, includes_spec by done.
  unfold occursIgnoringCase. split.
  - intros (pre & post & H).
    apply fmap_app_inv in H as (before & rest & _ & H & ->). symmetry in H.
    apply fmap_app_inv in H as (found & after & Hfound & _ & ->).
    by exists before, found, after.
  - intros (before & found & after & -> & <-).
    exists (latin1Lower <$> before), (latin1Lower <$> after).
    by rewrite !fmap_app.
Qed.

Lemma latin1Lower_latin1 c : isLatin1 c → isLatin1 (latin1Lower c).
Proof. unfold isLatin1, latin1Lower. intros H. case_match; char_tests; lia. Qed.

(** X14. On a text of Latin-1 characters the two name tests are
    substring tests that ignore case: [shouldSkipSearch] holds exactly
    when "queue" occurs in the text in some casing, also inside a longer
    word, and [isRestockBot] exactly when one of the seven bot names
    does. *)
Theorem skip_and_bot_tests_ignore_case (text : jsstring) :
  Forall isLatin1 text →
  (shouldSkipSearch toLowerCase text = true
   ↔ occursIgnoringCase (str "queue") text)
  ∧ (isRestockBot toLowerCase text = true
     ↔ ∃ bot, bot ∈ RESTOCK_BOT_NAMES ∧ occursIgnoringCase bot text).
Proof.
  intros Htext. split.
  - unfold shouldSkipSearch, SKIP_WORDS. cbn [existsb].
    by rewrite orb_false_r, includes_lower.
  - unfold isRestockBot. rewrite existsb_elem_of.
    split; intros (bot & Hin & H); exists bot; (split; [done|]);
      by apply includes_lower.
Qed.

(** X15. On a text of Latin-1 characters [isPokemonProduct] holds exactly
    when one of the twenty ASCII keywords occurs in it in some casing.
    The first keyword of the list never matches such a text: it is
    written with U+251C U+2310 where an accented e was meant, so a text
    with the accented spelling of the name is recognised only through
    another keyword. *)
Theorem isPokemonProduct_latin1 (text : jsstring) :
  Forall isLatin1 text →
  (isPokemonProduct toLowerCase text = true
   ↔ ∃ keyword, keyword ∈ tail pokemonKeywords ∧ occursIgnoringCase keyword text)
  ∧ ∀ keyword, head pokemonKeywords = Some keyword →
               includes (toLowerCase text) keyword = false.
Proof.
  intros Htext.
  assert (Hdead : ∀ keyword, head pokemonKeywords = Some keyword →
                             includes (toLowerCase text) keyword = false).
  { intros keyword [= <-]. apply not_true_is_false.
    intros (before & found & after & -> & Hfound)%includes_lower; [|done].
    apply Forall_app in Htext as [_ Htext].
    apply Forall_app in Htext as [Hf _].
    assert (Hlow : Forall isLatin1 (latin1Lower <$> found)).
    { apply Forall_fmap. eapply Forall_impl; [exact Hf|].
      intros c. apply latin1Lower_latin1. }
    rewrite Hfound in Hlow. cbn in Hlow.
    do 3 apply Forall_cons_1 in Hlow as [_ Hlow].
    apply Forall_cons_1 in Hlow as [Hbad _]. by vm_compute in Hbad. }
  split; [|done].
  unfold isPokemonProduct. rewrite existsb_elem_of. split.
  - intros (keyword & Hin & H). exists keyword. split; [|by apply includes_lower].
    unfold pokemonKeywords in Hin |- *. apply elem_of_cons in Hin as [->|Hin]; [|done].
    by rewrite Hdead in H.
  - intros (keyword & Hin & H). exists keyword. split; [|by apply includes_lower].
    unfold pokemonKeywords in Hin |- *. cbn [tail] in Hin. by right.
Qed.
End ClassifierFacts.

(** ** messageParser.ts: parseRestockEmbed *)

Section ParseRestockFacts.
Variable toLowerCase : jsstring → jsstring.

Lemma lastNamed_snoc names fields field :
  lastNamed toLowerCase names (fields ++ [field])
  = if decide (toLowerCase (field_name field) ∈ names)
    then Some (field_value field) else lastNamed toLowerCase names fields.
Proof.
  unfold lastNamed. rewrite filter_app, filter_cons, filter_nil.
  destruct (decide (toLowerCase (field_name field) ∈ names)).
  - by rewrite last_snoc.
  - by rewrite app_nil_r.
Qed.

Ltac field_name_tests :=
  repeat first
    [ rewrite bool_decide_eq_true_2 by done
    | rewrite bool_decide_eq_false_2 by (done || by vm_compute)
    | rewrite decide_True by (rewrite ?elem_of_cons; auto)
    | rewrite decide_False
        by (rewrite ?elem_of_cons, elem_of_nil;
            intros H; repeat destruct H as [H|H]; try done;
            by vm_compute in H) ].

Lemma parseField_step acc field :
  let out := parseField toLowerCase acc field in
  let name := toLowerCase (field_name field) in
  rf_price out
  = (if decide (name ∈ [str "price"]) then Some (field_value field)
     else rf_price acc)
  ∧ rf_type out
    = (if decide (name ∈ [str "type"]) then Some (field_value field)
       else rf_type acc)
  ∧ rf_stock out
    = (if decide (name ∈ [str "total stock"; str "stock"])
       then Some (field_value field) else rf_stock acc)
  ∧ rf_tcin out
    = (if decide (name ∈ [str "tcin"]) then Some (field_value field)
       else rf_tcin acc).
Proof.
  cbn zeta. unfold parseField.
  generalize (toLowerCase (field_name field)). intros name.
  destruct (decide (name = str "price")) as [->|Hprice];
    [by field_name_tests|].
  destruct (decide (name = str "type")) as [->|Htype];
    [by field_name_tests|].
  destruct (decide (name = str "total stock")) as [->|Htotal];
    [by field_name_tests|].
  destruct (decide (name = str "stock")) as [->|Hstock];
    [by field_name_tests|].
  destruct (decide (name = str "tcin")) as [->|Htcin];
    [by field_name_tests|].
  by field_name_tests.
Qed.

Lemma parseField_fold fields :
  let out := foldl (parseField toLowerCase)
               {| rf_price := None; rf_type := None; rf_stock := None;
                  rf_tcin := None |} fields in
  rf_price out = lastNamed toLowerCase [str "price"] fields
  ∧ rf_type out = lastNamed toLowerCase [str "type"] fields
  ∧ rf_stock out = lastNamed toLowerCase [str "total stock"; str "stock"] fields
  ∧ rf_tcin out = lastNamed toLowerCase [str "tcin"] fields.
Proof.
  induction fields as [|field fields IH] using rev_ind; [done|].
  cbn zeta in *. rewrite foldl_app. cbn [foldl].
  destruct IH as (Hp & Ht & Hs & Hc). rewrite !lastNamed_snoc.
  destruct (parseField_step
              (foldl (parseField toLowerCase)
                 {| rf_price := None; rf_type := None; rf_stock := None;
                    rf_tcin := None |} fields) field) as (Ep & Et & Es & Ec).
  cbn zeta in *. rewrite Ep, Et, Es, Ec, Hp, Ht, Hs, Hc. done.
Qed.

(** X16. What [parseRestockEmbed] returns when it returns a record: the
    message has a first embed; the product name is not empty, passes
    [isPokemonProduct] and is also the raw title; and each of price,
    type, stock and tcin is the value of the last field of that embed
    with the lower-cased name in question (for stock: "total stock" or
    "stock"), or undefined when there is none. *)
Theorem parseRestockEmbed_record (message : Message) (record : ParsedRestockMessage) :
  parseRestockEmbed toLowerCase message = Some record →
  ∃ embed rest,
    msg_embeds message = embed :: rest
    ∧ parsed_productName record ≠ []
    ∧ isPokemonProduct toLowerCase (parsed_productName record) = true
    ∧ parsed_rawTitle record = parsed_productName record
    ∧ parsed_price record = lastNamed toLowerCase [str "price"] (embed_fields embed)
    ∧ parsed_type record = lastNamed toLowerCase [str "type"] (embed_fields embed)
    ∧ parsed_stock record
      = lastNamed toLowerCase [str "total stock"; str "stock"] (embed_fields embed)
    ∧ parsed_tcin record = lastNamed toLowerCase [str "tcin"] (embed_fields embed).
Proof.
  unfold parseRestockEmbed. destruct (msg_embeds message) as [|embed rest]; [done|].
  destruct (nonEmpty (restockProductName embed)) eqn:Hname; [|done].
  destruct (isPokemonProduct toLowerCase (restockProductName embed))
    eqn:Hpokemon; [|done].
  simpl. intros [= <-]. exists embed, rest. simpl.
  destruct (parseField_fold (embed_fields embed)) as (Hp & Ht & Hs & Hc).
  split_and!; try done.
  intros E. by rewrite E in Hname.
Qed.
End ParseRestockFacts.

(** ** String facts for the bot *)

Lemma trimEnd_clean s : endsClean s → trimEnd s = s.
Proof.
  unfold endsClean, trimEnd, trimStart. intros He.
  destruct (reverse s) as [|c r] eqn:E.
  - simpl. apply (inj reverse). by rewrite reverse_involutive.
  - simpl. rewrite He, <- E. apply reverse_involutive.
Qed.

Lemma trimStart_clean s :
  match s with c :: _ => isWhiteSpace c = false | [] => True end →
  trimStart s = s.
Proof. unfold trimStart. destruct s as [|c r]; simpl; [done|]. by intros ->. Qed.

Lemma trim_head s :
  match trim s with c :: _ => isWhiteSpace c = false | [] => True end.
Proof.
  unfold trim. destruct (trimEnd_prefix (trimStart s)) as [k Hk].
  pose proof (dropWhile_head isWhiteSpace s) as Hhead.
  unfold trimStart in *. rewrite Hk in Hhead.
  by destruct (trimEnd (dropWhile isWhiteSpace s)).
Qed.

Lemma trim_idempotent s : trim (trim s) = trim s.
Proof.
  unfold trim at 1. rewrite trimStart_clean by apply trim_head.
  apply trimEnd_clean. unfold trim. apply trimEnd_endsClean.
Qed.

Lemma trim_length s : (length (trim s) ≤ length s)%nat.
Proof.
  unfold trim, trimStart.
  pose proof (prefix_length _ _ (trimEnd_prefix (dropWhile isWhiteSpace s))).
  pose proof (suffix_length _ _ (dropWhile_suffix isWhiteSpace s)). lia.
Qed.

Lemma trim_blank s : Forall (λ c, isWhiteSpace c = true) s → trim s = [].
Proof.
  intros H. unfold trim, trimStart.
  replace (dropWhile isWhiteSpace s) with (@nil N); [done|].
  induction H as [|c r Hc _ IH]; simpl; [done|]. by rewrite Hc.
Qed.

Lemma splitFrom_length sep cur s piece :
  piece ∈ splitFrom sep cur s → (length piece ≤ length cur + length s)%nat.
Proof.
  revert cur. induction s as [|c r IH]; intros cur; simpl.
  - intros ->%list_elem_of_singleton. lia.
  - destruct (c =? sep)%N.
    + intros [->|Hin]%elem_of_cons; [lia|]. apply IH in Hin. simpl in Hin. lia.
    + intros Hin%IH. rewrite length_app in Hin. simpl in Hin. lia.
Qed.

Lemma split_length sep s piece :
  piece ∈ split sep s → (length piece ≤ length s)%nat.
Proof. intros H%splitFrom_length. simpl in H. lia. Qed.

(** ** extractProductNames *)

Section ExtractFacts.
Variable host : Host.

Lemma lineProducts_names lines info :
  info ∈ lineProducts host lines →
  ∃ line, line ∈ lines ∧ info_name info = trim line
          ∧ (10 < length (trim line))%nat ∧ info_retailPrice info = None.
Proof.
  unfold lineProducts. rewrite list_elem_of_In, in_flat_map.
  intros (line & Hin & Hinfo). exists line.
  apply list_elem_of_In in Hin.
  destruct (10 <? length (trim line))%nat eqn:Hlen; [|by destruct Hinfo].
  destruct (isPokemonProduct _ (trim line)); [|by destruct Hinfo].
  simpl in Hinfo. destruct Hinfo as [<-|[]]. simpl.
  apply Nat.ltb_lt in Hlen. done.
Qed.

(** X17. The names found in a message without embeds.  Something is
    extracted exactly when the content passes [isPokemonProduct] and is
    longer than 10 characters once trimmed; every name extracted is
    trimmed, longer than 10 characters, and carries no retail price. *)
Theorem extractProductNames_plain_text (message : Message) :
  msg_embeds message = [] →
  (extractProductNames host message ≠ []
   ↔ isPokemonProduct (host_toLowerCase host) (msg_content message) = true
     ∧ (10 < length (trim (msg_content message)))%nat)
  ∧ Forall (λ info, trim (info_name info) = info_name info
                    ∧ (10 < length (info_name info))%nat
                    ∧ info_retailPrice info = None)
      (extractProductNames host message).
Proof.
  intros Hembeds. unfold extractProductNames. rewrite Hembeds. cbn [flat_map app].
  set (content := trim (msg_content message)).
  set (found := lineProducts host (split lineFeed content)).
  assert (Hfound : Forall (λ info, trim (info_name info) = info_name info
                                   ∧ (10 < length (info_name info))%nat
                                   ∧ info_retailPrice info = None) found).
  { apply Forall_forall. intros info (line & _ & -> & Hlen & Hretail)%lineProducts_names.
    by rewrite trim_idempotent. }
  assert (Hlong : found ≠ [] → (10 < length content)%nat).
  { destruct found as [|info rest] eqn:E; [done|]. intros _.
    assert (Hin : info ∈ found) by (rewrite E; left).
    apply lineProducts_names in Hin as (line & Hline & _ & Hlen & _).
    apply split_length in Hline. pose proof (trim_length line). lia. }
  destruct (isPokemonProduct (host_toLowerCase host) (msg_content message)) eqn:Hp.
  2:{ rewrite andb_false_r. split; [|done]. split; [done|by intros [? _]]. }
  rewrite andb_true_r.
  destruct (nonEmpty (msg_content message)) eqn:Hne.
  2:{ split; [|done]. split; [done|]. intros [_ Hlen].
      destruct (msg_content message); [|done].
      vm_compute in Hlen. lia. }
  destruct (10 <? length content)%nat eqn:Hlen.
  - apply Nat.ltb_lt in Hlen. destruct found as [|info rest]; simpl.
    + split; [done|]. repeat constructor; [|done].
      subst content. apply trim_idempotent.
    + split; [done|]. done.
  - apply Nat.ltb_ge in Hlen. rewrite andb_false_r. split; [|done].
    split; [intros H%Hlong; lia|intros [_ ?]; lia].
Qed.
End ExtractFacts.

(** ** The embeds *)

Section EmbedFacts.
Variable host : Host.

Lemma call_return c embed calls :
  call host c embed = Return calls →
  ∃ before, embed = Return before ∧ calls = before ++ [c].
Proof.
  unfold call. destruct embed as [before|error]; [|done].
  destruct (host_rejects host before c); [done|].
  intros [= <-]. by exists before.
Qed.

Lemma mainPriceOf_none records : mainPriceOf records = None ↔ records = [].
Proof.
  unfold mainPriceOf. destruct records as [|first rest]; [done|].
  split; [|done]. by destruct (List.find isNormal (first :: rest)).
Qed.

Lemma addResultFields_throw i results error :
  addResultFields host i results (Throw error) = Throw error.
Proof.
  revert i. induction results as [|p rest IH]; intros i; cbn [addResultFields];
    [done|apply IH].
Qed.

Lemma addResultFields_return i results embed calls :
  addResultFields host i results embed = Return calls →
  ∃ before added,
    embed = Return before ∧ calls = before ++ added
    ∧ length added = length results
    ∧ Forall (λ c, isAddFields c = true) added
    ∧ Forall (λ p, prices p ≠ []) results.
Proof.
  revert i embed. induction results as [|p rest IH]; intros i embed;
    cbn [addResultFields].
  - intros ->. exists calls, []. by rewrite app_nil_r.
  - intros H. apply IH in H as (mid & added & Hmid & -> & Hlen & Hadd & Hrest).
    destruct embed as [before|error]; [|done].
    destruct (mainPriceOf (prices p)) as [mainPrice|] eqn:Hmain; [|done].
    assert (Hp : prices p ≠ []).
    { intros E. apply mainPriceOf_none in E. congruence. }
    unfold priceTextOf in Hmid.
    destruct (marketPrice mainPrice);
      apply call_return in Hmid as (before' & [= <-] & ->);
      (eexists before, (_ :: added); split_and!;
       [done|by rewrite <- app_assoc|by simpl; rewrite Hlen
       |by constructor|by constructor]).
Qed.

Lemma createSearchResultsEmbed_thrown query results product :
  product ∈ take 5 results → prices product = [] →
  ∃ error, createSearchResultsEmbed host query results = Throw error.
Proof.
  intros Hin Hprices. unfold createSearchResultsEmbed.
  set (start := call host (SetDescription _) _).
  destruct (addResultFields host 0 (take 5 results) start) as [calls|error] eqn:E.
  - apply addResultFields_return in E as (_ & _ & _ & _ & _ & _ & Hall).
    rewrite Forall_forall in Hall. by destruct (Hall product Hin).
  - by exists error.
Qed.

(** X18. [createSearchResultsEmbed] returns an embed only if every one
    of the first five results has a price record: for a result without
    price records the test [mainPrice?.marketPrice !== null] holds with
    [mainPrice] undefined, and reading [mainPrice.marketPrice] throws.
    When the builder accepts every call, the error thrown is that
    TypeError. *)
Theorem createSearchResultsEmbed_needs_prices (query : jsstring)
    (results : list ProductWithPrice) (product : ProductWithPrice) :
  product ∈ take 5 results →
  prices product = [] →
  ∃ error,
    createSearchResultsEmbed host query results = Throw error
    ∧ ((∀ calls c, host_rejects host calls c = None) →
       error = undefinedMainPrice).
Proof.
  intros Hin Hprices. unfold createSearchResultsEmbed.
  set (start := call host (SetDescription _) _).
  destruct (addResultFields host 0 (take 5 results) start) as [calls|error] eqn:E.
  { apply addResultFields_return in E as (_ & _ & _ & _ & _ & _ & Hall).
    rewrite Forall_forall in Hall. by destruct (Hall product Hin). }
  exists error. split; [done|]. intros Haccept.
  assert (Hstart : ∃ calls, start = Return calls).
  { unfold start, call. rewrite !Haccept. by eexists. }
  destruct Hstart as [calls Hstart]. rewrite Hstart in E. clear Hstart start.
  clear Hin. revert E. generalize (take 5 results). intros visited.
  generalize 0%nat. revert calls.
  induction visited as [|p rest IH]; intros calls i;
    cbn [addResultFields]; [done|].
  destruct (mainPriceOf (prices p)) as [mainPrice|]; unfold priceTextOf.
  - destruct (marketPrice mainPrice); unfold call; rewrite Haccept; apply IH.
  - rewrite addResultFields_throw. by intros [= <-].
Qed.

(** X19. When [createSearchResultsEmbed] returns, the embed is the
    colour, the title and the description, then one field for each of
    the first five results (fewer when there are fewer results), then the
    footer and the timestamp.  The description is "No matching products
    found." for an empty result list and otherwise announces the number
    of all results, "Found N matching product(s):", although at most
    five of them are shown. *)
Theorem createSearchResultsEmbed_shape (query : jsstring)
    (results : list ProductWithPrice) (calls : list BuilderCall) :
  createSearchResultsEmbed host query results = Return calls →
  ∃ fields,
    calls = [SetColor pokemonYellow;
             SetTitle (str "Search Results: " ++ [quote] ++ query ++ [quote]);
             SetDescription
               (match results with
                | [] => str "No matching products found."
                | _ => str "Found " ++ showZ (Z.of_nat (length results))
                         ++ str " matching product(s):"
                end)]
            ++ fields
            ++ [SetFooter (str "Data from TCGplayer via tcgcsv.com"); SetTimestamp]
    ∧ length fields = Nat.min (length results) 5
    ∧ Forall (λ c, isAddFields c = true) fields.
Proof.
  unfold createSearchResultsEmbed. intros H.
  apply call_return in H as (c1 & H & ->).
  apply call_return in H as (c2 & H & ->).
  apply addResultFields_return in H as (c3 & fields & H & -> & Hlen & Hfields & _).
  apply call_return in H as (c4 & H & ->).
  apply call_return in H as (c5 & H & ->).
  apply call_return in H as (c6 & [= <-] & ->).
  exists fields. split_and!; [|rewrite Hlen, length_take; lia|done].
  rewrite <- !app_assoc. by destruct results.
Qed.
Lemma callIf_return condition c embed calls :
  callIf host condition c embed = Return calls →
  ∃ before, embed = Return before
            ∧ calls = before ++ (if condition then [c] else []).
Proof.
  unfold callIf. destruct condition.
  - apply call_return.
  - intros ->. exists calls. by rewrite app_nil_r.
Qed.

Lemma valueComparison_return mainPrice retailPrice embed calls :
  valueComparison host mainPrice retailPrice embed = Return calls →
  ∃ before extra,
    embed = Return before ∧ calls = before ++ extra
    ∧ Forall (λ c, ∃ value, c = AddFields (str "Value Comparison") value false) extra.
Proof.
  unfold valueComparison.
  assert (Hskip : embed = Return calls →
    ∃ before extra,
      embed = Return before ∧ calls = before ++ extra
      ∧ Forall (λ c, ∃ value, c = AddFields (str "Value Comparison") value false)
          extra).
  { intros ->. exists calls, []. by rewrite app_nil_r. }
  destruct (truthyMarketPrice mainPrice) as [market|]; [|done].
  destruct (includes retailPrice [dollar]); [|done].
  destruct (negb (isNaN _)); [|done].
  intros (before & -> & ->)%call_return.
  eexists before, [_]. split_and!; [done..|]. repeat constructor. by eexists.
Qed.

Lemma joinWith_nil sep lines :
  Forall (λ line, line ≠ []) lines → joinWith sep lines = [] → lines = [].
Proof.
  destruct 1 as [|line rest Hline _]; [done|]. simpl.
  destruct rest; [done|]. by destruct line.
Qed.

Lemma priceFields_summary p :
  priceFieldsOf host (mainPriceOf (prices p)) ≠ []
  ↔ formatPrice (host_toFixed2 host) p ≠ []
    ∧ formatPrice (host_toFixed2 host) p ≠ noPriceData.
Proof.
  destruct (prices p) as [|first rest] eqn:Hp.
  { unfold formatPrice. rewrite Hp. split; [done|by intros [_ ?]]. }
  assert (Hdata : formatPrice (host_toFixed2 host) p ≠ noPriceData).
  { intros E%formatPrice_noData_only_empty. congruence. }
  assert (Hlines : priceFieldsOf host (mainPriceOf (first :: rest)) ≠ []
                   ↔ formatPrice (host_toFixed2 host) p ≠ []); [|tauto].
  unfold formatPrice, mainPriceOf, priceFieldsOf. rewrite Hp.
  set (found := List.find isNormal (first :: rest)).
  replace (match found with Some q => Some q | None => head (first :: rest) end)
    with (Some (default first found)) by by destruct found.
  set (main := default first found).
  unfold pushField, pushLine.
  destruct (marketPrice main), (lowPrice main), (midPrice main), (highPrice main);
    simpl; split; intros H; done.
Qed.

(** X20. The embed of [createPriceEmbed] and the summary of
    [formatPrice] agree on when there is something to show: a returned
    embed has the field "TCGplayer Prices" exactly when the summary of
    the product is neither empty nor "No price data available". *)
Theorem createPriceEmbed_price_field (product : ProductWithPrice)
    (retailPrice : option jsstring) (calls : list BuilderCall) :
  createPriceEmbed host product retailPrice = Return calls →
  (∃ value inline, AddFields (str "TCGplayer Prices") value inline ∈ calls)
  ↔ formatPrice (host_toFixed2 host) product ≠ []
    ∧ formatPrice (host_toFixed2 host) product ≠ noPriceData.
Proof.
  rewrite <- priceFields_summary. unfold createPriceEmbed.
  set (priceFields := priceFieldsOf host (mainPriceOf (prices product))).
  intros H.
  apply call_return in H as (c1 & H & ->).
  apply call_return in H as (c2 & H & ->).
  apply call_return in H as (c3 & H & ->).
  assert (Hretail : ∃ before extra,
    callIf host (0 <? length priceFields)%nat
      (AddFields (str "TCGplayer Prices") (joinWith [lineFeed] priceFields) true)
      (callIf host (nonEmpty (product_imageUrl (pwp_product product)))
         (SetThumbnail (product_imageUrl (pwp_product product)))
         (call host (SetURL (getProductUrl product))
            (call host (SetTitle (product_name (pwp_product product)))
               (call host (SetColor pokemonYellow) (Return [])))))
    = Return before
    ∧ c3 = before ++ extra
    ∧ Forall (λ c, ∀ value inline,
                c ≠ AddFields (str "TCGplayer Prices") value inline) extra).
  { destruct (truthy retailPrice && _).
    - apply valueComparison_return in H as (c4 & extra & H & -> & Hextra).
      apply call_return in H as (c5 & H & ->).
      exists c5, (AddFields (str "Retail Price") (default [] retailPrice) true :: extra).
      split_and!; [done|by rewrite <- app_assoc|].
      constructor; [by intros ? ? [=]|].
      eapply Forall_impl; [exact Hextra|]. by intros c [v ->] ? ? [=].
    - exists c3, []. by rewrite app_nil_r. }
  clear H. destruct Hretail as (c4 & extra & H & -> & Hextra).
  apply callIf_return in H as (c5 & H & ->).
  apply callIf_return in H as (c6 & H & ->).
  apply call_return in H as (c7 & H & ->).
  apply call_return in H as (c8 & H & ->).
  apply call_return in H as (c9 & [= <-] & ->).
  destruct priceFields as [|line rest]; cbn [length Nat.ltb Nat.leb].
  - split; [|done]. intros (value & inline & Hin).
    match type of Hin with
    | _ ∈ ?l =>
        assert (Hnone : Forall (λ c, ∀ value inline,
                                  c ≠ AddFields (str "TCGplayer Prices") value inline) l)
    end.
    { destruct (nonEmpty (product_imageUrl (pwp_product product)));
        rewrite !Forall_app; split_and!; try done;
        by repeat constructor. }
    rewrite Forall_forall in Hnone. by destruct (Hnone _ Hin value inline).
  - split; [done|]. intros _. eexists _, true.
    rewrite !elem_of_app. left. left. left. left. right.
    apply list_elem_of_singleton. done.
Qed.

Lemma call_accepted c calls :
  (∀ calls c, host_rejects host calls c = None) →
  call host c (Return calls) = Return (calls ++ [c]).
Proof. intros Haccept. unfold call. by rewrite Haccept. Qed.

Lemma callIf_accepted condition c calls :
  (∀ calls c, host_rejects host calls c = None) →
  callIf host condition c (Return calls)
  = Return (calls ++ if condition then [c] else []).
Proof.
  intros Haccept. unfold callIf. destruct condition.
  - by apply call_accepted.
  - by rewrite app_nil_r.
Qed.

Lemma valueComparison_accepted mainPrice retailPrice calls :
  (∀ calls c, host_rejects host calls c = None) →
  ∃ calls', valueComparison host mainPrice retailPrice (Return calls) = Return calls'.
Proof.
  intros Haccept. unfold valueComparison.
  destruct (truthyMarketPrice mainPrice); [|by eexists].
  destruct (includes retailPrice [dollar]); [|by eexists].
  destruct (negb (isNaN _)); [|by eexists].
  rewrite call_accepted by done. by eexists.
Qed.

Lemma createPriceEmbed_accepted product retailPrice :
  (∀ calls c, host_rejects host calls c = None) →
  ∃ calls, createPriceEmbed host product retailPrice = Return calls.
Proof.
  intros Haccept. unfold createPriceEmbed.
  rewrite !call_accepted, !callIf_accepted by done.
  destruct (truthy retailPrice && _).
  - rewrite call_accepted by done.
    match goal with |- context [valueComparison host ?m ?r (Return ?l)] =>
      destruct (valueComparison_accepted m r l Haccept) as [calls' ->] end.
    rewrite !call_accepted by done. by eexists.
  - rewrite !call_accepted by done. by eexists.
Qed.
End EmbedFacts.

(** ** The handlers *)

Section HandlerFacts.
Variable host : Host.

(** X21. A price command on a service whose index is not built: for
    every query that is not blank the handler logs the request, the
    service warns "Product data not initialized", and the one reply sent
    says that no products were found; the handler fails only if that
    reply is rejected. *)
Theorem handlePriceCommand_not_initialized (message : Message) (query : jsstring)
    (s : TCGPlayerService) :
  fuse s = None →
  trim query ≠ [] →
  handlePriceCommand host message query (startRun s)
  = (match host_replyError host 0 with
     | Some error => Throw error
     | None => Return ()
     end,
     {| run_service := s;
        run_actions :=
          [ Emit (ConsoleLog (str "Price search requested: " ++ query));
            Emit (ConsoleWarn (str "Product data not initialized"));
            Reply (Content (str "No products found matching " ++ [quote] ++ query
                              ++ [quote] ++ str ". Try a different search term.")) ];
        run_replies := 1 |}).
Proof.
  intros Hfuse Hquery. unfold handlePriceCommand.
  destruct (trim query) as [|c rest]; [done|]. cbn [nonEmpty negb].
  unfold bindH, emit, service, reply, startRun, searchProducts. cbn [run_service].
  by rewrite Hfuse.
Qed.

(** X22. A start-up whose request for the group list fails does not
    stop the bot: the listener of [ready] returns, the error is logged
    with "Error loading TCGplayer data:", nothing is replied, and the
    service is left as it was created, without index. *)
Theorem ready_survives_catalog_failure (env : ProcessEnv)
    (clientUser : option ClientUser) (catalog : Environment) :
  (∀ groups, remoteGroups catalog ≠ Body groups) →
  ∃ error actions,
    ready host env clientUser catalog (startRun newService)
    = (Return (),
       {| run_service := newService;
          run_actions :=
            actions
            ++ [ Emit (ConsoleLog (str "Fetching Pokemon TCG data from tcgcsv.com..."));
                 Emit (HttpGet groupsUrl);
                 Emit (ConsoleError (str "Error loading TCGplayer data:") error) ];
          run_replies := 0 |})
    ∧ Forall (λ a, ∃ msg, a = Emit (ConsoleLog msg)) actions.
Proof.
  intros Hfail. unfold ready, bindH, emit, tryCatch, service, startRun.
  cbn [run_service run_actions run_replies].
  assert (Hdue : rebuildDue catalog false newService) by (right; by left).
  unfold initialize. rewrite rebuildDue_test by done.
  unfold fetchGroups, fetchResult.
  destruct (remoteGroups catalog) as [e|st|groups] eqn:E;
    [| |by destruct (Hfail groups)].
  all: eexists _,
         [ Emit (ConsoleLog (str "Logged in as "
                               ++ default (str "undefined") (user_tag <$> clientUser)));
           Emit (ConsoleLog (str "Monitoring "
                               ++ showZ (Z.of_nat (length (MONITORED_CHANNEL_IDS env)))
                               ++ str " channel(s) for restocks"));
           Emit (ConsoleLog (str "Auto-respond mode: "
                               ++ if AUTO_RESPOND env then str "ON" else str "OFF"));
           Emit (ConsoleLog (str "Command prefix: " ++ COMMAND_PREFIX env));
           Emit (ConsoleLog (str "Loading TCGplayer product data...")) ].
  all: split; [reflexivity|by repeat constructor; eexists].
Qed.

(** X23. A command without query.  A message of another user whose
    content is the command prefix followed by nothing but white space
    gets the usage text as its only reply, in every channel and whatever
    the auto-respond setting and the state of the service; nothing is
    searched and nothing is logged. *)
Theorem blank_command_gets_usage (env : ProcessEnv) (clientUser : option ClientUser)
    (message : Message) (blank : jsstring) (s : TCGPlayerService) :
  Some (msg_authorId message) ≠ user_id <$> clientUser →
  msg_content message = COMMAND_PREFIX env ++ blank →
  Forall (λ c, isWhiteSpace c = true) blank →
  messageCreate host env clientUser message (startRun s)
  = (match host_replyError host 0 with
     | Some error => Throw error
     | None => Return ()
     end,
     {| run_service := s;
        run_actions := [Reply (Content usageText)];
        run_replies := 1 |}).
Proof.
  intros Hother Hcontent Hblank. unfold messageCreate.
  rewrite bool_decide_eq_false_2 by done.
  unfold startsWith. rewrite Hcontent.
  replace (isPrefixOf (COMMAND_PREFIX env) (COMMAND_PREFIX env ++ blank)) with true
    by (symmetry; apply isPrefixOf_spec; by exists blank).
  rewrite drop_app_length, (trim_blank blank) by done.
  unfold handlePriceCommand. by vm_compute (trim []).
Qed.

(** *** handleChannelMessage *)

Lemma joinWith_occurs sep lines line :
  line ∈ lines → ∃ before after, joinWith sep lines = before ++ line ++ after.
Proof.
  induction lines as [|first rest IH]; [by intros ?%elem_of_nil|].
  intros [->|Hin]%elem_of_cons.
  - destruct rest as [|second rest]; cbn [joinWith].
    + exists [], []. by rewrite app_nil_r.
    + by exists [], (sep ++ joinWith sep (second :: rest)).
  - destruct (IH Hin) as (before & after & E).
    destruct rest as [|second rest]; [by apply elem_of_nil in Hin|].
    cbn [joinWith] in *. rewrite E.
    exists (first ++ sep ++ before), after. by rewrite <- !app_assoc.
Qed.

Lemma occursIgnoringCase_within keyword before text after :
  occursIgnoringCase keyword text →
  occursIgnoringCase keyword (before ++ text ++ after).
Proof.
  intros (b & found & a & -> & Hfound).
  exists (before ++ b), found, (a ++ after). by rewrite <- !app_assoc.
Qed.

(** X24. The skip word.  When "queue" occurs, in any casing and also
    inside a longer word, in the content of a message or in the title of
    one of its embeds (the text being Latin-1), [handleChannelMessage]
    logs that it skips the message and does nothing else: no name is
    extracted, nothing is searched, nothing is replied. *)
Theorem handleChannelMessage_skip_word (message : Message) (s : TCGPlayerService) :
  (∀ text, Forall isLatin1 text →
           host_toLowerCase host text = latin1Lower <$> text) →
  Forall isLatin1 (fullTextOf message) →
  occursIgnoringCase (str "queue") (msg_content message)
  ∨ (∃ embed title, embed ∈ msg_embeds message ∧ embed_title embed = Some title
                    ∧ occursIgnoringCase (str "queue") title) →
  handleChannelMessage host message (startRun s)
  = (Return (),
     {| run_service := s;
        run_actions :=
          [Emit (ConsoleLog (str "Skipping message containing skip word"))];
        run_replies := 0 |}).
Proof.
  intros Hlower Hlatin Hqueue. unfold handleChannelMessage.
  replace (shouldSkipSearch (host_toLowerCase host) (fullTextOf message)) with true;
    [done|].
  symmetry. unfold shouldSkipSearch, SKIP_WORDS. cbn [existsb].
  rewrite orb_false_r. apply (includes_lower _ Hlower); [done|].
  unfold fullTextOf. destruct Hqueue as [H|(embed & title & Hin & Htitle & H)].
  - by apply (occursIgnoringCase_within _ []).
  - assert (Hjoin : title ∈ (λ e, default [] (embed_title e)) <$> msg_embeds message).
    { apply list_elem_of_fmap. exists embed. by rewrite Htitle. }
    destruct (joinWith_occurs (str " ") _ _ Hjoin) as (before & after & ->).
    rewrite !app_assoc, <- (app_assoc _ title after).
    by apply occursIgnoringCase_within.
Qed.

Lemma searchCleanedName_state name s :
  ∃ results trace,
    searchCleanedName (host_fuseScore host) name s = (Return results, s, trace)
    ∧ (fuse s = None → results = []
       ∧ trace = [ConsoleLog (str "Searching for: " ++ cleanProductName name);
                  ConsoleWarn (str "Product data not initialized")]).
Proof.
  unfold searchCleanedName, searchProducts. destruct (fuse s).
  - eexists _, _. split; [done|done].
  - eexists _, _. split; [done|done].
Qed.

(** What one name adds on a service without index. *)
Lemma replyWithPrice_not_initialized info r :
  fuse (run_service r) = None →
  replyWithPrice host info r
  = (Return (),
     {| run_service := run_service r;
        run_actions :=
          run_actions r
          ++ [ Emit (ConsoleLog (str "Searching for: "
                                   ++ cleanProductName (info_name info)));
               Emit (ConsoleWarn (str "Product data not initialized"));
               Emit (ConsoleLog (str "No TCGplayer match found for: "
                                   ++ cleanProductName (info_name info))) ];
        run_replies := run_replies r |}).
Proof.
  intros Hfuse. unfold replyWithPrice, bindH, service.
  destruct (searchCleanedName_state (info_name info) (run_service r))
    as (results & trace & -> & Hnone).
  destruct (Hnone Hfuse) as [-> ->]. unfold emit. cbn [run_service run_actions run_replies].
  by rewrite <- app_assoc.
Qed.

Lemma forEach_not_initialized infos r :
  fuse (run_service r) = None →
  forEach infos (replyWithPrice host) r
  = (Return (),
     {| run_service := run_service r;
        run_actions :=
          run_actions r
          ++ flat_map
               (λ info,
                  [ Emit (ConsoleLog (str "Searching for: "
                                        ++ cleanProductName (info_name info)));
                    Emit (ConsoleWarn (str "Product data not initialized"));
                    Emit (ConsoleLog (str "No TCGplayer match found for: "
                                        ++ cleanProductName (info_name info))) ])
               infos;
        run_replies := run_replies r |}).
Proof.
  revert r. induction infos as [|info infos IH]; intros r Hfuse; cbn [forEach flat_map].
  - unfold returnH. rewrite app_nil_r. by destruct r.
  - unfold bindH. rewrite replyWithPrice_not_initialized by done.
    rewrite IH by done. cbn [run_service run_actions run_replies].
    by rewrite <- app_assoc.
Qed.

(** X25. A monitored message on a service whose index is not built, the
    message having no skip word: the handler returns without replying.
    For a message with product names it logs their number and then, for
    each name in order, the search for the cleaned name, the warning of
    the service, and that nothing matched. *)
Theorem handleChannelMessage_not_initialized (message : Message)
    (s : TCGPlayerService) :
  fuse s = None →
  shouldSkipSearch (host_toLowerCase host) (fullTextOf message) = false →
  handleChannelMessage host message (startRun s)
  = (Return (),
     {| run_service := s;
        run_actions :=
          match extractProductNames host message with
          | [] => []
          | infos =>
              Emit (ConsoleLog (str "Found " ++ showZ (Z.of_nat (length infos))
                                  ++ str " Pokemon product(s) in message"))
                :: flat_map
                     (λ info,
                        [ Emit (ConsoleLog (str "Searching for: "
                                              ++ cleanProductName (info_name info)));
                          Emit (ConsoleWarn (str "Product data not initialized"));
                          Emit (ConsoleLog (str "No TCGplayer match found for: "
                                              ++ cleanProductName (info_name info))) ])
                     infos
          end;
        run_replies := 0 |}).
Proof.
  intros Hfuse Hskip. unfold handleChannelMessage. rewrite Hskip.
  destruct (extractProductNames host message) as [|info infos]; [done|].
  cbn [length Nat.eqb]. unfold bindH at 1. unfold emit at 1.
  by rewrite forEach_not_initialized.
Qed.

Lemma filter_isReply_emit (trace : list Event) :
  filter isReply (Emit <$> trace) = [].
Proof. induction trace as [|e trace IH]; [done|]. by rewrite fmap_cons, filter_cons. Qed.

Lemma filter_isReply_cons a (l : list Action) :
  filter isReply (a :: l)
  = match a with Reply _ => a :: filter isReply l | Emit _ => filter isReply l end.
Proof. rewrite filter_cons. by destruct a. Qed.

Lemma replyWithPrice_run info r :
  ∃ completion added,
    replyWithPrice host info r
    = (completion,
       {| run_service := run_service r;
          run_actions := run_actions r ++ added;
          run_replies := run_replies r + length (filter isReply added) |})
    ∧ (length (filter isReply added) ≤ 1)%nat
    ∧ Forall (λ a, ∀ text, a ≠ Reply (Content text)) added
    ∧ ((∀ calls c, host_rejects host calls c = None) → completion = Return ()).
Proof.
  unfold replyWithPrice, bindH, service.
  destruct (searchCleanedName_state (info_name info) (run_service r))
    as (results & trace & -> & _).
  assert (Hemits : Forall (λ a, ∀ text, a ≠ Reply (Content text)) (Emit <$> trace)).
  { apply Forall_fmap, Forall_forall. by intros e _ text. }
  destruct results as [|product _].
  - unfold emit. cbn [run_service run_actions run_replies].
    eexists _, ((Emit <$> trace) ++ [Emit (ConsoleLog _)]).
    rewrite filter_app, filter_isReply_emit, filter_isReply_cons, app_assoc.
    rewrite filter_nil. cbn [app length]. rewrite Nat.add_0_r.
    split_and!; [done|lia| |done].
    apply Forall_app. split; [done|by repeat constructor].
  - unfold built.
    destruct (createPriceEmbed host product (info_retailPrice info))
      as [embed|error] eqn:Hembed.
    + unfold tryCatch, bindH, reply, emit.
      cbn [run_service run_actions run_replies].
      destruct (host_replyError host (run_replies r)) as [error|];
        cbn [run_service run_actions run_replies];
        eexists _, ((Emit <$> trace) ++ [Reply (Embeds embed); Emit _]);
        rewrite filter_app, filter_isReply_emit, !filter_isReply_cons, <- !app_assoc;
        rewrite filter_nil; cbn [app length]; rewrite Nat.add_1_r;
        (split_and!; [done|lia| |done]);
        (apply Forall_app; split; [done|by repeat constructor]).
    + eexists _, (Emit <$> trace).
      rewrite filter_isReply_emit. cbn [length]. rewrite Nat.add_0_r.
      split_and!; [done|lia|done|].
      intros Haccept.
      destruct (createPriceEmbed_accepted host product (info_retailPrice info) Haccept)
        as [calls E]. congruence.
Qed.

Lemma forEach_run infos r :
  ∃ completion added,
    forEach infos (replyWithPrice host) r
    = (completion,
       {| run_service := run_service r;
          run_actions := run_actions r ++ added;
          run_replies := run_replies r + length (filter isReply added) |})
    ∧ (length (filter isReply added) ≤ length infos)%nat
    ∧ Forall (λ a, ∀ text, a ≠ Reply (Content text)) added
    ∧ ((∀ calls c, host_rejects host calls c = None) → completion = Return ()).
Proof.
  revert r. induction infos as [|info infos IH]; intros r; cbn [forEach].
  - exists (Return ()), []. unfold returnH. rewrite app_nil_r. simpl.
    rewrite Nat.add_0_r. split_and!; [by destruct r|lia|done|done].
  - unfold bindH.
    destruct (replyWithPrice_run info r) as (c1 & added1 & -> & Hlen1 & Hall1 & Hacc1).
    destruct c1 as [[]|error].
    + match goal with |- context [forEach infos _ ?r1] =>
        destruct (IH r1) as (c2 & added2 & -> & Hlen2 & Hall2 & Hacc2) end.
      cbn [run_service run_actions run_replies].
      exists c2, (added1 ++ added2). rewrite filter_app, length_app, <- app_assoc.
      split_and!; [f_equal; f_equal; lia|simpl; lia|by apply Forall_app|done].
    + exists (Throw error), added1.
      split_and!; [done|simpl; lia|done|].
      intros Haccept. by specialize (Hacc1 Haccept).
Qed.

(** X26. The replies of [handleChannelMessage], for every message and
    every state of the service: the service is left as it was; at most
    one reply is sent for each extracted name, and every reply is an
    embed, never a text; and a reply that is rejected does not end the
    handler, which can fail only when the embed builder rejects a
    call. *)
Theorem handleChannelMessage_replies (message : Message) (s : TCGPlayerService) :
  ∃ completion actions,
    handleChannelMessage host message (startRun s)
    = (completion,
       {| run_service := s;
          run_actions := actions;
          run_replies := length (filter isReply actions) |})
    ∧ (length (filter isReply actions)
       ≤ length (extractProductNames host message))%nat
    ∧ Forall (λ a, ∀ text, a ≠ Reply (Content text)) actions
    ∧ ((∀ calls c, host_rejects host calls c = None) → completion = Return ()).
Proof.
  unfold handleChannelMessage.
  destruct (shouldSkipSearch _ _).
  { exists (Return ()),
      [Emit (ConsoleLog (str "Skipping message containing skip word"))].
    rewrite filter_isReply_cons, filter_nil. unfold emit, startRun.
    cbn [run_service run_actions run_replies app length].
    split_and!; [done|lia|by repeat constructor|done]. }
  destruct (extractProductNames host message) as [|info infos] eqn:E.
  { exists (Return ()), []. rewrite filter_nil. unfold returnH, startRun.
    cbn [length]. split_and!; [done|lia|done|done]. }
  cbn [length Nat.eqb]. unfold bindH at 1. unfold emit at 1.
  match goal with |- context [forEach _ _ ?r1] =>
    destruct (forEach_run (info :: infos) r1) as (c & added & -> & Hlen & Hall & Hacc) end.
  cbn [run_service run_actions run_replies startRun app].
  eexists c, (Emit _ :: added). rewrite filter_isReply_cons.
  cbn [length Nat.add] in *.
  split_and!; [done|done|by constructor|done].
Qed.

Lemma replyWithPrice_count info r :
  (∀ calls c, host_rejects host calls c = None) →
  ∃ added,
    replyWithPrice host info r
    = (Return (),
       {| run_service := run_service r;
          run_actions := run_actions r ++ added;
          run_replies := run_replies r + length (filter isReply added) |})
    ∧ length (filter isReply added)
      = (if hasMatch host (run_service r) info then 1 else 0)%nat.
Proof.
  intros Haccept. unfold replyWithPrice, bindH, service, hasMatch, completion.
  destruct (searchCleanedName_state (info_name info) (run_service r))
    as (results & trace & -> & _). cbn [fst].
  destruct results as [|product rest].
  - unfold emit. cbn [run_service run_actions run_replies].
    exists ((Emit <$> trace)
            ++ [Emit (ConsoleLog (str "No TCGplayer match found for: "
                                    ++ cleanProductName (info_name info)))]).
    rewrite filter_app, filter_isReply_emit, filter_isReply_cons, app_assoc.
    rewrite filter_nil. cbn [app length]. by rewrite Nat.add_0_r.
  - unfold built.
    destruct (createPriceEmbed_accepted host product (info_retailPrice info) Haccept)
      as [embed ->].
    unfold tryCatch, bindH, reply, emit.
    cbn [run_service run_actions run_replies].
    destruct (host_replyError host (run_replies r)) as [error|];
      cbn [run_service run_actions run_replies];
      eexists ((Emit <$> trace) ++ [Reply (Embeds embed); Emit _]);
      rewrite filter_app, filter_isReply_emit, !filter_isReply_cons, <- !app_assoc;
      rewrite filter_nil; cbn [app length]; by rewrite Nat.add_1_r.
Qed.

Lemma forEach_count infos r :
  (∀ calls c, host_rejects host calls c = None) →
  ∃ added,
    forEach infos (replyWithPrice host) r
    = (Return (),
       {| run_service := run_service r;
          run_actions := run_actions r ++ added;
          run_replies := run_replies r + length (filter isReply added) |})
    ∧ length (filter isReply added)
      = length (filter (λ info, hasMatch host (run_service r) info) infos).
Proof.
  intros Haccept. revert r.
  induction infos as [|info infos IH]; intros r; cbn [forEach].
  - exists []. unfold returnH. rewrite app_nil_r, !filter_nil. cbn [length].
    rewrite Nat.add_0_r. by destruct r.
  - unfold bindH.
    destruct (replyWithPrice_count info r Haccept) as (added1 & -> & Hlen1).
    match goal with |- context [forEach infos _ ?r1] =>
      destruct (IH r1) as (added2 & -> & Hlen2) end.
    cbn [run_service run_actions run_replies] in *.
    exists (added1 ++ added2).
    rewrite filter_app, length_app, <- app_assoc, filter_cons, Hlen1, Hlen2.
    split; [f_equal; f_equal; lia|].
    destruct (hasMatch host (run_service r) info).
    + rewrite decide_True by done. simpl. lia.
    + rewrite decide_False by (by intros []). simpl. lia.
Qed.

(** X27. With a builder that accepts every call, [handleChannelMessage]
    returns for every message without skip word, and the number of
    replies it has sent is the number of extracted names whose search
    returns a result: one reply for each such name, delivered or not,
    and none for the others. *)
Theorem handleChannelMessage_one_reply_per_match (message : Message)
    (s : TCGPlayerService) :
  (∀ calls c, host_rejects host calls c = None) →
  shouldSkipSearch (host_toLowerCase host) (fullTextOf message) = false →
  ∃ actions,
    handleChannelMessage host message (startRun s)
    = (Return (),
       {| run_service := s;
          run_actions := actions;
          run_replies := length (filter isReply actions) |})
    ∧ length (filter isReply actions)
      = length (matching host s (extractProductNames host message)).
Proof.
  intros Haccept Hskip. unfold handleChannelMessage, matching. rewrite Hskip.
  destruct (extractProductNames host message) as [|info infos] eqn:E.
  { exists []. by rewrite !filter_nil. }
  cbn [length Nat.eqb]. unfold bindH at 1. unfold emit at 1.
  match goal with |- context [forEach _ _ ?r1] =>
    destruct (forEach_count (info :: infos) r1 Haccept) as (added & -> & Hlen) end.
  cbn [run_service run_actions run_replies startRun app] in *.
  eexists (Emit _ :: added). rewrite filter_isReply_cons. by rewrite Hlen.
Qed.

(** X28. A price command that comes to the list of results: if the
    search returns more than one result, the name of the first does not
    contain the query, and one of the first five results has no price
    record, then the handler fails without sending any reply; all it has
    done is to log the request. *)
Theorem handlePriceCommand_fails_without_prices (message : Message)
    (query : jsstring) (s : TCGPlayerService)
    (first second product : ProductWithPrice) (rest : list ProductWithPrice) :
  trim query ≠ [] →
  searchProducts (host_fuseScore host) query 5 s
  = (Return (first :: second :: rest), s, []) →
  includes (host_toLowerCase host (product_name (pwp_product first)))
    (host_toLowerCase host query) = false →
  product ∈ take 5 (first :: second :: rest) →
  prices product = [] →
  ∃ error,
    handlePriceCommand host message query (startRun s)
    = (Throw error,
       {| run_service := s;
          run_actions := [Emit (ConsoleLog (str "Price search requested: " ++ query))];
          run_replies := 0 |}).
Proof.
  intros Hquery Hsearch Hname Hin Hprices. unfold handlePriceCommand.
  destruct (trim query) as [|c t]; [done|]. cbn [nonEmpty negb].
  destruct (createSearchResultsEmbed_thrown host query _ product Hin Hprices)
    as [error Herror].
  exists error. unfold bindH, emit, service, built, startRun.
  cbn [run_service run_actions run_replies]. rewrite Hsearch, Hname.
  cbn [length Nat.eqb orb]. by rewrite Herror.
Qed.
End HandlerFacts.

(** ** The properties on the sample messages *)

Lemma plainHost_lower text :
  Forall isLatin1 text → PlainHost.toLowerCase text = latin1Lower <$> text.
Proof. done. Defined.

(** The name of a restock bot announcing a queue. *)
Lemma skip_and_bot_tests_ignore_case_witness :
  (shouldSkipSearch PlainHost.toLowerCase (str "Target Restocks: Queue open") = true
   ↔ occursIgnoringCase (str "queue") (str "Target Restocks: Queue open"))
  ∧ (isRestockBot PlainHost.toLowerCase (str "Target Restocks: Queue open") = true
     ↔ ∃ bot, bot ∈ RESTOCK_BOT_NAMES
              ∧ occursIgnoringCase bot (str "Target Restocks: Queue open")).
Proof.
  apply (skip_and_bot_tests_ignore_case PlainHost.toLowerCase plainHost_lower
           (str "Target Restocks: Queue open")).
  unfold isLatin1. vm_compute. repeat constructor.
Defined.

Example skip_and_bot_tests_values :
  shouldSkipSearch PlainHost.toLowerCase (str "Target Restocks: Queue open") = true
  ∧ shouldSkipSearch PlainHost.toLowerCase (str "Enqueued") = true
  ∧ isRestockBot PlainHost.toLowerCase (str "TARGET RESTOCKS") = true
  ∧ isRestockBot PlainHost.toLowerCase (str "Target Restock") = false.
Proof. by vm_compute. Qed.

(** The accented spelling of the name, with and without another keyword. *)
Lemma isPokemonProduct_latin1_witness :
  (isPokemonProduct PlainHost.toLowerCase
     (str "Pok" ++ [eAcute] ++ str "mon Center Booster Bundle") = true
   ↔ ∃ keyword, keyword ∈ tail pokemonKeywords
                ∧ occursIgnoringCase keyword
                    (str "Pok" ++ [eAcute] ++ str "mon Center Booster Bundle"))
  ∧ ∀ keyword, head pokemonKeywords = Some keyword →
               includes (PlainHost.toLowerCase
                           (str "Pok" ++ [eAcute] ++ str "mon Center Booster Bundle"))
                 keyword = false.
Proof.
  apply (isPokemonProduct_latin1 PlainHost.toLowerCase plainHost_lower
           (str "Pok" ++ [eAcute] ++ str "mon Center Booster Bundle")).
  unfold isLatin1. vm_compute. repeat constructor.
Defined.

Example isPokemonProduct_values :
  isPokemonProduct PlainHost.toLowerCase
    (str "Pok" ++ [eAcute] ++ str "mon Center Booster Bundle") = true
  ∧ isPokemonProduct PlainHost.toLowerCase
      (str "Pok" ++ [eAcute] ++ str "mon Center plush") = false
  ∧ isPokemonProduct PlainHost.toLowerCase (str "Violets in a vase") = true.
Proof. by vm_compute. Qed.

(** A restock alert with two price fields: the last one is taken. *)
Lemma parseRestockEmbed_record_witness :
  ∃ embed rest,
    msg_embeds Scene.restock = embed :: rest
    ∧ parsed_productName Scene.restockRecord ≠ []
    ∧ isPokemonProduct PlainHost.toLowerCase
        (parsed_productName Scene.restockRecord) = true
    ∧ parsed_rawTitle Scene.restockRecord = parsed_productName Scene.restockRecord
    ∧ parsed_price Scene.restockRecord
      = lastNamed PlainHost.toLowerCase [str "price"] (embed_fields embed)
    ∧ parsed_type Scene.restockRecord
      = lastNamed PlainHost.toLowerCase [str "type"] (embed_fields embed)
    ∧ parsed_stock Scene.restockRecord
      = lastNamed PlainHost.toLowerCase [str "total stock"; str "stock"]
          (embed_fields embed)
    ∧ parsed_tcin Scene.restockRecord
      = lastNamed PlainHost.toLowerCase [str "tcin"] (embed_fields embed).
Proof.
  apply (parseRestockEmbed_record PlainHost.toLowerCase Scene.restock
           Scene.restockRecord).
  vm_compute. reflexivity.
Defined.

(** A plain message of two lines, the second of them a product. *)
Lemma extractProductNames_plain_text_witness :
  (extractProductNames PlainHost.host Scene.twoLines ≠ []
   ↔ isPokemonProduct (host_toLowerCase PlainHost.host)
       (msg_content Scene.twoLines) = true
     ∧ (10 < length (trim (msg_content Scene.twoLines)))%nat)
  ∧ Forall (λ info, trim (info_name info) = info_name info
                    ∧ (10 < length (info_name info))%nat
                    ∧ info_retailPrice info = None)
      (extractProductNames PlainHost.host Scene.twoLines).
Proof.
  apply (extractProductNames_plain_text PlainHost.host Scene.twoLines).
  reflexivity.
Defined.

Example extractProductNames_plain_text_values :
  extractProductNames PlainHost.host Scene.twoLines
  = [ {| info_name := str "Pokemon Scarlet booster box";
         info_retailPrice := None |} ]
  ∧ extractProductNames PlainHost.host (Scene.plain "pikachu etb")
    = [ {| info_name := str "pikachu etb"; info_retailPrice := None |} ]
  ∧ extractProductNames PlainHost.host (Scene.plain "  pikachu    ") = [].
Proof. by vm_compute. Qed.

(** Two results, the second without price record. *)
Lemma createSearchResultsEmbed_needs_prices_witness :
  ∃ error,
    createSearchResultsEmbed PlainHost.host (str "sparks")
      [Sample.sparksETBEntry; Scene.priceless Sample.sparksBox "Surging Sparks"]
    = Throw error
    ∧ ((∀ calls c, host_rejects PlainHost.host calls c = None) →
       error = undefinedMainPrice).
Proof.
  apply (createSearchResultsEmbed_needs_prices PlainHost.host (str "sparks")
           [Sample.sparksETBEntry; Scene.priceless Sample.sparksBox "Surging Sparks"]
           (Scene.priceless Sample.sparksBox "Surging Sparks")).
  - simpl. right. left.
  - reflexivity.
Defined.

(** Two results with price records, one of them without market price. *)
Lemma createSearchResultsEmbed_shape_witness :
  ∃ fields,
    Scene.trainerEmbed
    = [SetColor pokemonYellow;
       SetTitle (str "Search Results: " ++ [quote] ++ str "trainer" ++ [quote]);
       SetDescription
         (match [Sample.sparksETBEntry; Sample.journeyETBEntry] with
          | [] => str "No matching products found."
          | _ => str "Found "
                   ++ showZ (Z.of_nat (length [Sample.sparksETBEntry;
                                                Sample.journeyETBEntry]))
                   ++ str " matching product(s):"
          end)]
      ++ fields
      ++ [SetFooter (str "Data from TCGplayer via tcgcsv.com"); SetTimestamp]
    ∧ length fields
      = Nat.min (length [Sample.sparksETBEntry; Sample.journeyETBEntry]) 5
    ∧ Forall (λ c, isAddFields c = true) fields.
Proof.
  apply (createSearchResultsEmbed_shape PlainHost.host (str "trainer")
           [Sample.sparksETBEntry; Sample.journeyETBEntry] Scene.trainerEmbed).
  vm_compute. reflexivity.
Defined.

(** The embed of a product with a "Normal" price record. *)
Lemma createPriceEmbed_price_field_witness :
  (∃ value inline,
     AddFields (str "TCGplayer Prices") value inline ∈ Scene.sparksEmbed)
  ↔ formatPrice (host_toFixed2 PlainHost.host) Sample.sparksETBEntry ≠ []
    ∧ formatPrice (host_toFixed2 PlainHost.host) Sample.sparksETBEntry ≠ noPriceData.
Proof.
  apply (createPriceEmbed_price_field PlainHost.host Sample.sparksETBEntry None
           Scene.sparksEmbed).
  vm_compute. reflexivity.
Defined.

(** A command before the start-up call has built the index. *)
Lemma handlePriceCommand_not_initialized_witness :
  handlePriceCommand PlainHost.host (Scene.plain "!price etb") (str "etb")
    (startRun newService)
  = (match host_replyError PlainHost.host 0 with
     | Some error => Throw error
     | None => Return ()
     end,
     {| run_service := newService;
        run_actions :=
          [ Emit (ConsoleLog (str "Price search requested: " ++ str "etb"));
            Emit (ConsoleWarn (str "Product data not initialized"));
            Reply (Content (str "No products found matching " ++ [quote] ++ str "etb"
                              ++ [quote] ++ str ". Try a different search term.")) ];
        run_replies := 1 |}).
Proof.
  apply (handlePriceCommand_not_initialized PlainHost.host (Scene.plain "!price etb")
           (str "etb") newService).
  - reflexivity.
  - vm_compute. discriminate.
Defined.

(** The start-up while the catalog is down. *)
Lemma ready_survives_catalog_failure_witness :
  ∃ error actions,
    ready PlainHost.host Scene.settings (Some Scene.bot) Outage.catalogDown
      (startRun newService)
    = (Return (),
       {| run_service := newService;
          run_actions :=
            actions
            ++ [ Emit (ConsoleLog (str "Fetching Pokemon TCG data from tcgcsv.com..."));
                 Emit (HttpGet groupsUrl);
                 Emit (ConsoleError (str "Error loading TCGplayer data:") error) ];
          run_replies := 0 |})
    ∧ Forall (λ a, ∃ msg, a = Emit (ConsoleLog msg)) actions.
Proof.
  apply (ready_survives_catalog_failure PlainHost.host Scene.settings
           (Some Scene.bot) Outage.catalogDown).
  intros groups. simpl. discriminate.
Defined.

(** The prefix followed by spaces, in a channel that is not monitored. *)
Lemma blank_command_gets_usage_witness :
  messageCreate PlainHost.host Scene.settings (Some Scene.bot)
    {| msg_content := str "!price   "; msg_embeds := [];
       msg_authorId := str "42"; msg_authorUsername := str "Ash";
       msg_channelId := str "999" |}
    (startRun Sample.startedService)
  = (match host_replyError PlainHost.host 0 with
     | Some error => Throw error
     | None => Return ()
     end,
     {| run_service := Sample.startedService;
        run_actions := [Reply (Content usageText)];
        run_replies := 1 |}).
Proof.
  apply (blank_command_gets_usage PlainHost.host Scene.settings (Some Scene.bot)
           {| msg_content := str "!price   "; msg_embeds := [];
              msg_authorId := str "42"; msg_authorUsername := str "Ash";
              msg_channelId := str "999" |}
           (str "   ") Sample.startedService).
  - vm_compute. discriminate.
  - reflexivity.
  - vm_compute. repeat constructor.
Defined.

(** A restock alert that mentions a queue. *)
Lemma handleChannelMessage_skip_word_witness :
  handleChannelMessage PlainHost.host
    (Scene.plain "Pokemon Surging Sparks ETB - Queue is open")
    (startRun Sample.startedService)
  = (Return (),
     {| run_service := Sample.startedService;
        run_actions :=
          [Emit (ConsoleLog (str "Skipping message containing skip word"))];
        run_replies := 0 |}).
Proof.
  apply (handleChannelMessage_skip_word PlainHost.host
           (Scene.plain "Pokemon Surging Sparks ETB - Queue is open")
           Sample.startedService).
  - intros text _. reflexivity.
  - unfold isLatin1. vm_compute. repeat constructor.
  - left. exists (str "Pokemon Surging Sparks ETB - "), (str "Queue"), (str " is open").
    split; reflexivity.
Defined.

(** A restock alert before the start-up call has built the index. *)
Lemma handleChannelMessage_not_initialized_witness :
  handleChannelMessage PlainHost.host Scene.restock (startRun newService)
  = (Return (),
     {| run_service := newService;
        run_actions :=
          match extractProductNames PlainHost.host Scene.restock with
          | [] => []
          | infos =>
              Emit (ConsoleLog (str "Found " ++ showZ (Z.of_nat (length infos))
                                  ++ str " Pokemon product(s) in message"))
                :: flat_map
                     (λ info,
                        [ Emit (ConsoleLog (str "Searching for: "
                                              ++ cleanProductName (info_name info)));
                          Emit (ConsoleWarn (str "Product data not initialized"));
                          Emit (ConsoleLog (str "No TCGplayer match found for: "
                                              ++ cleanProductName (info_name info))) ])
                     infos
          end;
        run_replies := 0 |}).
Proof.
  apply (handleChannelMessage_not_initialized PlainHost.host Scene.restock newService).
  - reflexivity.
  - vm_compute. reflexivity.
Defined.

Example handleChannelMessage_not_initialized_values :
  extractProductNames PlainHost.host Scene.restock
  = [ {| info_name := str "Pokemon TCG: Surging Sparks ETB";
         info_retailPrice := Some (str "$49.99") |} ]
  ∧ cleanProductName (str "Pokemon TCG: Surging Sparks ETB")
    = str "Surging Sparks Elite Trainer Box"
  ∧ parsed_price <$> parseRestockEmbed PlainHost.toLowerCase Scene.restock
    = Some (Some (str "$39.99")).
Proof. by vm_compute. Qed.

(** A search that comes to the list of results on a catalog without
    prices. *)
Lemma handlePriceCommand_fails_without_prices_witness :
  ∃ error,
    handlePriceCommand PlainHost.host (Scene.plain "!price surging sparks display")
      (str "surging sparks display") (startRun Scene.pricelessService)
    = (Throw error,
       {| run_service := Scene.pricelessService;
          run_actions :=
            [Emit (ConsoleLog (str "Price search requested: "
                                 ++ str "surging sparks display"))];
          run_replies := 0 |}).
Proof.
  apply (handlePriceCommand_fails_without_prices PlainHost.host
           (Scene.plain "!price surging sparks display")
           (str "surging sparks display") Scene.pricelessService
           (Scene.priceless Sample.sparksETB "Surging Sparks")
           (Scene.priceless Sample.sparksBox "Surging Sparks")
           (Scene.priceless Sample.sparksETB "Surging Sparks")
           []).
  - vm_compute. discriminate.
  - vm_compute. reflexivity.
  - vm_compute. reflexivity.
  - left.
  - reflexivity.
Defined.

(** The prefix in lower case, two spaces, and the name. *)
Lemma cleanProductName_strips_prefix_witness :
  cleanProductName (str "ptcg:" ++ str "  " ++ str "Paldea  Evolved etb")
  = cleanProductName (str "Paldea  Evolved etb").
Proof.
  apply (cleanProductName_strips_prefix prefixPTCG (str "ptcg:") (str "  ")
           (str "Paldea  Evolved etb")).
  - unfold knownPrefixes. do 3 right. left.
  - vm_compute. reflexivity.
  - vm_compute. repeat constructor.
  - vm_compute. reflexivity.
Defined.

Example cleanProductName_strips_prefix_values :
  cleanProductName (str "ptcg:  Paldea  Evolved etb")
  = str "Paldea Evolved Elite Trainer Box"
  ∧ cleanProductName (str "PTCG: Pokemon TCG: Paldea Evolved")
    = str "Pokemon TCG: Paldea Evolved".
Proof. by vm_compute. Qed.

(** A restock alert on the started service: one name, one reply. *)
Lemma handleChannelMessage_one_reply_per_match_witness :
  ∃ actions,
    handleChannelMessage PlainHost.host Scene.restock
      (startRun Sample.startedService)
    = (Return (),
       {| run_service := Sample.startedService;
          run_actions := actions;
          run_replies := length (filter isReply actions) |})
    ∧ length (filter isReply actions)
      = length (matching PlainHost.host Sample.startedService
                  (extractProductNames PlainHost.host Scene.restock)).
Proof.
  apply (handleChannelMessage_one_reply_per_match PlainHost.host Scene.restock
           Sample.startedService).
  - intros calls c. reflexivity.
  - vm_compute. reflexivity.
Defined.

Example handleChannelMessage_restock_values :
  run_actions (handleChannelMessage PlainHost.host Scene.restock
                 (startRun Sample.startedService)).2
  = [ Emit (ConsoleLog (str "Found 1 Pokemon product(s) in message"));
      Emit (ConsoleLog (str "Searching for: Surging Sparks Elite Trainer Box"));
      Reply (Embeds
               [ SetColor pokemonYellow;
                 SetTitle (str "Surging Sparks Elite Trainer Box");
                 SetURL (str "https://www.tcgplayer.com/product/101");
                 AddFields (str "TCGplayer Prices")
                   (str "**Market:** $55.12" ++ [lineFeed] ++ str "**Low:** $49.99"
                      ++ [lineFeed] ++ str "**High:** $70.00")
                   true;
                 AddFields (str "Retail Price") (str "$49.99") true;
                 AddFields (str "Value Comparison")
                   (indicatorUp ++ str " Market is +$5.13 (+10.3%) vs retail") false;
                 AddFields (str "Set") (str "Surging Sparks") true;
                 SetFooter (str "Data from TCGplayer via tcgcsv.com");
                 SetTimestamp ]);
      Emit (ConsoleLog (str "Replied with price for: Surging Sparks Elite Trainer Box")) ].
Proof. by vm_compute. Qed.
